(** * LibRecommender: the data-indexing layer [DataInfo] and the
      neighbourhood collaborative-filtering base class [CfBase]

    A shallow embedding of [libreco/data/data_info.py] and
    [libreco/bases/cf_base.py].

    Modelling conventions.
    - Python objects mutated through [self] are records threaded through a
      state-and-exception monad [M]: an exception leaves the mutations made
      so far in place, as in Python.
    - External ids, inner ids and sparse category codes are integers ([Z]);
      counts are [nat].  numpy floats (labels, similarities, dense feature
      values) are modelled by exact rationals ([Qc]).
    - A [dict] whose key order is observable (column-name mappings, the
      per-column unique-value dictionaries) is an association list with
      Python's insert-or-replace update; a [dict] used only through lookups
      ([user2id], [user_consumed], ...) is a [gmap].
    - [print] appends an event to the [stdout] log of the model state. *)

From Stdlib Require Import ZArith QArith Qcanon Lia.
From stdpp Require Import numbers base option list sorting gmap strings.

Open Scope string_scope.
Open Scope list_scope.
Open Scope Z_scope.

(** ** Exceptions and the state-and-exception monad *)

Inductive exn : Type :=
| ValueError (msg : string)
| KeyError (key : string)
| IndexError
| TypeError
| AttributeError (attr : string)
| OSError (msg : string).

Inductive outcome (A : Type) : Type :=
| Ok (a : A)
| Raise (e : exn).
Arguments Ok {A} a.
Arguments Raise {A} e.

Definition M (S A : Type) : Type := S -> outcome A * S.

#[global] Instance M_ret {S} : MRet (M S) := fun A a s => (Ok a, s).
#[global] Instance M_bind {S} : MBind (M S) := fun A B f m s =>
  match m s with
  | (Ok a, s') => f a s'
  | (Raise e, s') => (Raise e, s')
  end.

Definition raise {S A} (e : exn) : M S A := fun s => (Raise e, s).
Definition get {S} : M S S := fun s => (Ok s, s).
Definition modify {S} (f : S -> S) : M S unit := fun s => (Ok tt, f s).
Definition lift {S A} (o : outcome A) : M S A := fun s => (o, s).

(** The same sequencing for pure fallible code. *)
#[global] Instance outcome_ret : MRet outcome := fun A a => Ok a.
#[global] Instance outcome_bind : MBind outcome := fun A B f o =>
  match o with
  | Ok a => f a
  | Raise e => Raise e
  end.

Fixpoint mapO {A B} (f : A -> outcome B) (l : list A) : outcome (list B) :=
  match l with
  | [] => Ok []
  | x :: l' => y ← f x; ys ← mapO f l'; Ok (y :: ys)
  end.

(** [for x in l: body x] *)
Fixpoint for_each {S A} (l : list A) (body : A -> M S unit) : M S unit :=
  match l with
  | [] => mret tt
  | x :: l' => body x;; for_each l' body
  end.

(** [[f x for x in l]] with an effectful [f]. *)
Fixpoint mapM_list {S A B} (f : A -> M S B) (l : list A) : M S (list B) :=
  match l with
  | [] => mret []
  | x :: l' => y ← f x; ys ← mapM_list f l'; mret (y :: ys)
  end.

(** ** Python and numpy primitives *)

(** [d[k] = v] on an insertion-ordered dict. *)
Fixpoint dict_set {V} (k : string) (v : V) (d : list (string * V))
  : list (string * V) :=
  match d with
  | [] => [(k, v)]
  | (k', v') :: d' =>
      if decide (k = k') then (k, v) :: d' else (k', v') :: dict_set k v d'
  end.

Fixpoint dict_get {V} (k : string) (d : list (string * V)) : option V :=
  match d with
  | [] => None
  | (k', v) :: d' => if decide (k = k') then Some v else dict_get k d'
  end.

(** [d[k]], raising [KeyError] on a miss. *)
Definition dict_item {V} (k : string) (d : list (string * V)) : outcome V :=
  match dict_get k d with
  | Some v => Ok v
  | None => Raise (KeyError k)
  end.

(** [dict(zip(keys, vals))]: a later pair overwrites an earlier one. *)
Definition py_dict `{Countable K} {V} (l : list (K * V)) : gmap K V :=
  foldl (fun m kv => <[kv.1 := kv.2]> m) ∅ l.

(** [range(n)] as integers. *)
Definition py_range (n : nat) : list Z := Z.of_nat <$> seq 0 n.

(** [a[i]] for an integer [i]: negative indices count from the end. *)
Definition np_index {A} (a : list A) (i : Z) : outcome A :=
  let n := Z.of_nat (length a) in
  if decide (0 <= i < n) then
    match a !! Z.to_nat i with Some x => Ok x | None => Raise IndexError end
  else if decide (- n <= i < 0) then
    match a !! Z.to_nat (i + n) with Some x => Ok x | None => Raise IndexError end
  else Raise IndexError.

(** [a[idx]] for a list of integer indices (fancy indexing). *)
Definition np_take {A} (a : list A) (idx : list Z) : outcome (list A) :=
  mapO (np_index a) idx.

(** [np.unique]: the sorted distinct values. *)
Fixpoint insert_unique (x : Z) (l : list Z) : list Z :=
  match l with
  | [] => [x]
  | y :: l' =>
      if decide (x < y) then x :: y :: l'
      else if decide (x = y) then y :: l'
      else y :: insert_unique x l'
  end.

Definition np_unique (a : list Z) : list Z := foldr insert_unique [] a.

(** [np.setdiff1d(ar1, ar2)]: [unique(ar1)] without the members of [ar2]. *)
Definition setdiff1d (ar1 ar2 : list Z) : list Z :=
  filter (fun x => x ∉ ar2) (np_unique ar1).

(** A two-dimensional numpy array: [shape = (len mrows, ncols)]. *)
Record Matrix (A : Type) : Type := mkMatrix {
  ncols : nat;
  mrows : list (list A)
}.
Arguments mkMatrix {A} ncols mrows.
Arguments ncols {A} m.
Arguments mrows {A} m.

(** [len(m)] *)
Definition nrows {A} (m : Matrix A) : nat := length (mrows m).

(** [m[r, c]] for in-range natural indices. *)
Definition entry {A} (m : Matrix A) (r c : nat) : option A :=
  mrows m !! r ≫= fun row => row !! c.

(** [np.zeros([n, k])] *)
Definition np_zeros {A} (zero : A) (n k : nat) : list (list A) :=
  replicate n (replicate k zero).

(** [m[:-1]]: every row but the last. *)
Definition drop_last_row {A} (m : Matrix A) : list (list A) :=
  take (nrows m - 1) (mrows m).

(** [np.vstack([m, v])] for a one-dimensional [v]. *)
Definition vstack_row {A} (m : Matrix A) (v : list A) : outcome (Matrix A) :=
  if decide (length v = ncols m)
  then Ok (mkMatrix (ncols m) (mrows m ++ [v]))
  else Raise (ValueError "all the input array dimensions must match").

(** Resolve a row index of a fancy assignment ([-1] is the last row). *)
Definition wrap_index (n : nat) (i : Z) : outcome nat :=
  if decide (0 <= i < Z.of_nat n) then Ok (Z.to_nat i)
  else if decide (- Z.of_nat n <= i < 0) then Ok (Z.to_nat (i + Z.of_nat n))
  else Raise IndexError.

Definition set_entry {A} (rows : list (list A)) (r c : nat) (v : A)
  : list (list A) :=
  match rows !! r with
  | Some row => <[r := <[c := v]> row]> rows
  | None => rows
  end.

(** [m[row_idx, c] = vals]: indices are validated first, [vals] is either
    as long as [row_idx] or a single broadcast value, and a row index that
    occurs twice keeps the last value written. *)
Definition np_assign_col {A} (m : Matrix A) (row_idx : list Z) (c : nat)
    (vals : list A) : outcome (Matrix A) :=
  rs ← mapO (wrap_index (nrows m)) row_idx;
  if decide (c < ncols m)%nat then
    vs ← (if decide (length vals = length rs) then Ok vals
          else match vals with
               | [v] => Ok (replicate (length rs) v)
               | _ => Raise (ValueError "shape mismatch")
               end);
    Ok (mkMatrix (ncols m)
          (foldl (fun rows rv => set_entry rows rv.1 c rv.2)
                 (mrows m) (zip rs vs)))
  else Raise IndexError.

(** Sum and mean of rationals ([np.sum], [np.mean]). *)
Definition Qc_sum (l : list Qc) : Qc := foldr Qcplus 0%Qc l.
Definition Qc_of_nat (n : nat) : Qc := Q2Qc (inject_Z (Z.of_nat n)).
Definition Qc_of_Z (z : Z) : Qc := Q2Qc (inject_Z z).
Definition Qc_mean (l : list Qc) : Qc := (Qc_sum l / Qc_of_nat (length l))%Qc.

(** [np.mean(m, axis=0)]: one mean per column. *)
Definition column_means (m : Matrix Qc) : list Qc :=
  (fun c => Qc_mean (omap (fun row => row !! c) (mrows m))) <$> seq 0 (ncols m).

(** ** pandas data frames *)

Inductive Column : Type :=
| IntCol (xs : list Z)
| FloatCol (xs : list Qc).

(** A [DataFrame]: named columns in order. *)
Definition Frame : Type := list (string * Column).

(** [data.columns] *)
Definition frame_columns (data : Frame) : list string := data.*1.

(** [data[col]] *)
Definition frame_get (data : Frame) (col : string) : outcome Column :=
  dict_item col data.

(** [data[col].to_numpy()] where integer codes are expected (ids and sparse
    categories); a float column there is rejected by this model. *)
Definition int_values (c : Column) : outcome (list Z) :=
  match c with
  | IntCol xs => Ok xs
  | FloatCol _ => Raise TypeError
  end.

(** [data[col].to_numpy()] stored into a float matrix. *)
Definition float_values (c : Column) : list Qc :=
  match c with
  | IntCol xs => Qc_of_Z <$> xs
  | FloatCol xs => xs
  end.

(** ** [DataInfo]: the data model *)

(** [Feature = namedtuple("Feature", ["name", "index"])].  A value of a
    column-family dict is an index, or (in the "multi_sparse" family) the
    name of the field's main column. *)
Inductive Entry : Type :=
| EInt (i : Z)
| EStr (s : string).

#[global] Instance Entry_eq_dec : EqDecision Entry.
Proof. solve_decision. Defined.

Record Feature : Type := mkFeature {
  name : list string;
  index : list Entry
}.

Definition EmptyFeature : Feature := mkFeature [] [].

(** [{column_family_name: {column_name: index}}] *)
Definition ColNameMapping : Type := list (string * list (string * Entry)).

Record MultiSparseInfo : Type := mkMultiSparseInfo {
  field_offset : list Z;
  field_len : list Z;
  feat_oov : list Z
}.

(** A row of [interaction_data]: the [user], [item] and [label] columns. *)
Record Interaction : Type := mkInteraction {
  user : Z;
  item : Z;
  label : Qc
}.

(** The keyword arguments of [DataInfo.__init__]; [None] is the default of
    each.  [all_args] holds such a record: an argument that is [None] there
    and one that is missing from the dict are skipped alike by [save]. *)
Record Args : Type := mkArgs {
  arg_col_name_mapping : option ColNameMapping;
  arg_interaction_data : option (list Interaction);
  arg_user_sparse_unique : option (Matrix Z);
  arg_user_dense_unique : option (Matrix Qc);
  arg_item_sparse_unique : option (Matrix Z);
  arg_item_dense_unique : option (Matrix Qc);
  arg_user_indices : option (list Z);
  arg_item_indices : option (list Z);
  arg_user_unique_vals : option (list Z);
  arg_item_unique_vals : option (list Z);
  arg_sparse_unique_vals : option (list (string * list Z));
  arg_sparse_offset : option (list Z);
  arg_sparse_oov : option (list Z);
  arg_multi_sparse_unique_vals : option (list (string * list Z));
  arg_multi_sparse_combine_info : option MultiSparseInfo
}.

(** The lazily cached properties ([self._n_users], ...). *)
Record Cached : Type := mkCached {
  _n_users : option nat;
  _n_items : option nat;
  _user2id : option (gmap Z Z);
  _item2id : option (gmap Z Z);
  _id2user : option (gmap Z Z);
  _id2item : option (gmap Z Z);
  _data_size : option nat
}.

(** [reset_property] leaves exactly this. *)
Definition no_cache : Cached := mkCached None None None None None None None.

(** The "old info for rebuild models" attributes. *)
Record OldInfo : Type := mkOldInfo {
  old_n_users : option nat;
  old_n_items : option nat;
  old_sparse_len : option (list Z);
  old_sparse_oov : option (list Z);
  old_sparse_offset : option (list Z)
}.

Definition set_n_users (v : option nat) (c : Cached) : Cached :=
  mkCached v (_n_items c) (_user2id c) (_item2id c) (_id2user c) (_id2item c) (_data_size c).

Definition set_n_items (v : option nat) (c : Cached) : Cached :=
  mkCached (_n_users c) v (_user2id c) (_item2id c) (_id2user c) (_id2item c) (_data_size c).

Definition set_user2id (v : option (gmap Z Z)) (c : Cached) : Cached :=
  mkCached (_n_users c) (_n_items c) v (_item2id c) (_id2user c) (_id2item c) (_data_size c).

Definition set_item2id (v : option (gmap Z Z)) (c : Cached) : Cached :=
  mkCached (_n_users c) (_n_items c) (_user2id c) v (_id2user c) (_id2item c) (_data_size c).

Definition set_id2user (v : option (gmap Z Z)) (c : Cached) : Cached :=
  mkCached (_n_users c) (_n_items c) (_user2id c) (_item2id c) v (_id2item c) (_data_size c).

Definition set_id2item (v : option (gmap Z Z)) (c : Cached) : Cached :=
  mkCached (_n_users c) (_n_items c) (_user2id c) (_item2id c) (_id2user c) v (_data_size c).

Definition set_data_size (v : option nat) (c : Cached) : Cached :=
  mkCached (_n_users c) (_n_items c) (_user2id c) (_item2id c) (_id2user c) (_id2item c) v.
Definition put_old_n_users (v : option nat) (o : OldInfo) : OldInfo :=
  mkOldInfo v (old_n_items o) (old_sparse_len o) (old_sparse_oov o) (old_sparse_offset o).

Definition put_old_n_items (v : option nat) (o : OldInfo) : OldInfo :=
  mkOldInfo (old_n_users o) v (old_sparse_len o) (old_sparse_oov o) (old_sparse_offset o).

Definition put_old_sparse_len (v : option (list Z)) (o : OldInfo) : OldInfo :=
  mkOldInfo (old_n_users o) (old_n_items o) v (old_sparse_oov o) (old_sparse_offset o).

Definition put_old_sparse_oov (v : option (list Z)) (o : OldInfo) : OldInfo :=
  mkOldInfo (old_n_users o) (old_n_items o) (old_sparse_len o) v (old_sparse_offset o).

Definition put_old_sparse_offset (v : option (list Z)) (o : OldInfo) : OldInfo :=
  mkOldInfo (old_n_users o) (old_n_items o) (old_sparse_len o) (old_sparse_oov o) v.

(** Python attributes are references.  [self.all_args = locals()] in
    [__init__], and [self.all_args[arg] = all_variables[arg]] in [store_args],
    put into [all_args] the very objects that the attributes refer to, so a
    write into such an object shows in [all_args] too, while binding the
    attribute to a new object leaves [all_args] with the old one.

    The two dictionaries of unique sparse values are written in place only
    ([unique_dicts[sparse_col] = ...]) and never rebound: the attribute and
    [all_args] always hold the same dictionary.  A unique matrix is rebound by
    [add_oov] and [extend_unique_matrix] ([np.vstack] returns a new array) and
    written in place by the feature assignment ([m[row_idx, feat_idx] = ...]);
    [Sharing] records, per matrix, whether the attribute is still the array
    that [all_args] holds.  The other arguments are never written in place. *)
Record Sharing : Type := mkSharing {
  user_sparse_shared : bool;
  user_dense_shared : bool;
  item_sparse_shared : bool;
  item_dense_shared : bool
}.

(** [__init__] and [store_args] leave every matrix shared. *)
Definition all_shared : Sharing := mkSharing true true true true.

(** The attributes of a [DataInfo].  [all_args] holds the constructor
    arguments with their current contents, and [sharing] tells which unique
    matrices it shares with the attributes. *)
Record DataInfo : Type := mkDataInfo {
  col_name_mapping : option ColNameMapping;
  interaction_data : option (list Interaction);
  user_sparse_unique : option (Matrix Z);
  user_dense_unique : option (Matrix Qc);
  item_sparse_unique : option (Matrix Z);
  item_dense_unique : option (Matrix Qc);
  user_consumed : gmap Z (list Z);
  item_consumed : gmap Z (list Z);
  user_unique_vals : option (list Z);
  item_unique_vals : option (list Z);
  sparse_unique_vals : option (list (string * list Z));
  sparse_unique_idxs : option (list (string * gmap Z Z));
  sparse_offset : option (list Z);
  sparse_oov : option (list Z);
  multi_sparse_unique_vals : option (list (string * list Z));
  multi_sparse_unique_idxs : option (list (string * gmap Z Z));
  multi_sparse_combine_info : option MultiSparseInfo;
  props : Cached;
  popular_items : option (list Z);
  old : OldInfo;
  all_args : Args;
  sharing : Sharing
}.

(** [self.<field> = v], one setter per attribute that the methods assign. *)
Definition put_user_sparse_unique (v : option (Matrix Z)) (st : DataInfo) : DataInfo :=
  mkDataInfo (col_name_mapping st) (interaction_data st) v
    (user_dense_unique st) (item_sparse_unique st) (item_dense_unique st)
    (user_consumed st) (item_consumed st) (user_unique_vals st)
    (item_unique_vals st) (sparse_unique_vals st) (sparse_unique_idxs st)
    (sparse_offset st) (sparse_oov st) (multi_sparse_unique_vals st)
    (multi_sparse_unique_idxs st) (multi_sparse_combine_info st) (props st)
    (popular_items st) (old st) (all_args st) (sharing st).

Definition put_user_dense_unique (v : option (Matrix Qc)) (st : DataInfo) : DataInfo :=
  mkDataInfo (col_name_mapping st) (interaction_data st)
    (user_sparse_unique st) v (item_sparse_unique st) (item_dense_unique st)
    (user_consumed st) (item_consumed st) (user_unique_vals st)
    (item_unique_vals st) (sparse_unique_vals st) (sparse_unique_idxs st)
    (sparse_offset st) (sparse_oov st) (multi_sparse_unique_vals st)
    (multi_sparse_unique_idxs st) (multi_sparse_combine_info st) (props st)
    (popular_items st) (old st) (all_args st) (sharing st).

Definition put_item_sparse_unique (v : option (Matrix Z)) (st : DataInfo) : DataInfo :=
  mkDataInfo (col_name_mapping st) (interaction_data st)
    (user_sparse_unique st) (user_dense_unique st) v (item_dense_unique st)
    (user_consumed st) (item_consumed st) (user_unique_vals st)
    (item_unique_vals st) (sparse_unique_vals st) (sparse_unique_idxs st)
    (sparse_offset st) (sparse_oov st) (multi_sparse_unique_vals st)
    (multi_sparse_unique_idxs st) (multi_sparse_combine_info st) (props st)
    (popular_items st) (old st) (all_args st) (sharing st).

Definition put_item_dense_unique (v : option (Matrix Qc)) (st : DataInfo) : DataInfo :=
  mkDataInfo (col_name_mapping st) (interaction_data st)
    (user_sparse_unique st) (user_dense_unique st) (item_sparse_unique st) v
    (user_consumed st) (item_consumed st) (user_unique_vals st)
    (item_unique_vals st) (sparse_unique_vals st) (sparse_unique_idxs st)
    (sparse_offset st) (sparse_oov st) (multi_sparse_unique_vals st)
    (multi_sparse_unique_idxs st) (multi_sparse_combine_info st) (props st)
    (popular_items st) (old st) (all_args st) (sharing st).

Definition put_user_consumed (v : gmap Z (list Z)) (st : DataInfo) : DataInfo :=
  mkDataInfo (col_name_mapping st) (interaction_data st)
    (user_sparse_unique st) (user_dense_unique st) (item_sparse_unique st)
    (item_dense_unique st) v (item_consumed st) (user_unique_vals st)
    (item_unique_vals st) (sparse_unique_vals st) (sparse_unique_idxs st)
    (sparse_offset st) (sparse_oov st) (multi_sparse_unique_vals st)
    (multi_sparse_unique_idxs st) (multi_sparse_combine_info st) (props st)
    (popular_items st) (old st) (all_args st) (sharing st).

Definition put_item_consumed (v : gmap Z (list Z)) (st : DataInfo) : DataInfo :=
  mkDataInfo (col_name_mapping st) (interaction_data st)
    (user_sparse_unique st) (user_dense_unique st) (item_sparse_unique st)
    (item_dense_unique st) (user_consumed st) v (user_unique_vals st)
    (item_unique_vals st) (sparse_unique_vals st) (sparse_unique_idxs st)
    (sparse_offset st) (sparse_oov st) (multi_sparse_unique_vals st)
    (multi_sparse_unique_idxs st) (multi_sparse_combine_info st) (props st)
    (popular_items st) (old st) (all_args st) (sharing st).

Definition put_user_unique_vals (v : option (list Z)) (st : DataInfo) : DataInfo :=
  mkDataInfo (col_name_mapping st) (interaction_data st)
    (user_sparse_unique st) (user_dense_unique st) (item_sparse_unique st)
    (item_dense_unique st) (user_consumed st) (item_consumed st) v
    (item_unique_vals st) (sparse_unique_vals st) (sparse_unique_idxs st)
    (sparse_offset st) (sparse_oov st) (multi_sparse_unique_vals st)
    (multi_sparse_unique_idxs st) (multi_sparse_combine_info st) (props st)
    (popular_items st) (old st) (all_args st) (sharing st).

Definition put_item_unique_vals (v : option (list Z)) (st : DataInfo) : DataInfo :=
  mkDataInfo (col_name_mapping st) (interaction_data st)
    (user_sparse_unique st) (user_dense_unique st) (item_sparse_unique st)
    (item_dense_unique st) (user_consumed st) (item_consumed st)
    (user_unique_vals st) v (sparse_unique_vals st) (sparse_unique_idxs st)
    (sparse_offset st) (sparse_oov st) (multi_sparse_unique_vals st)
    (multi_sparse_unique_idxs st) (multi_sparse_combine_info st) (props st)
    (popular_items st) (old st) (all_args st) (sharing st).

Definition put_sparse_unique_vals (v : option (list (string * list Z))) (st : DataInfo) : DataInfo :=
  mkDataInfo (col_name_mapping st) (interaction_data st)
    (user_sparse_unique st) (user_dense_unique st) (item_sparse_unique st)
    (item_dense_unique st) (user_consumed st) (item_consumed st)
    (user_unique_vals st) (item_unique_vals st) v (sparse_unique_idxs st)
    (sparse_offset st) (sparse_oov st) (multi_sparse_unique_vals st)
    (multi_sparse_unique_idxs st) (multi_sparse_combine_info st) (props st)
    (popular_items st) (old st) (all_args st) (sharing st).

Definition put_sparse_unique_idxs (v : option (list (string * gmap Z Z))) (st : DataInfo) : DataInfo :=
  mkDataInfo (col_name_mapping st) (interaction_data st)
    (user_sparse_unique st) (user_dense_unique st) (item_sparse_unique st)
    (item_dense_unique st) (user_consumed st) (item_consumed st)
    (user_unique_vals st) (item_unique_vals st) (sparse_unique_vals st) v
    (sparse_offset st) (sparse_oov st) (multi_sparse_unique_vals st)
    (multi_sparse_unique_idxs st) (multi_sparse_combine_info st) (props st)
    (popular_items st) (old st) (all_args st) (sharing st).

Definition put_multi_sparse_unique_vals (v : option (list (string * list Z))) (st : DataInfo) : DataInfo :=
  mkDataInfo (col_name_mapping st) (interaction_data st)
    (user_sparse_unique st) (user_dense_unique st) (item_sparse_unique st)
    (item_dense_unique st) (user_consumed st) (item_consumed st)
    (user_unique_vals st) (item_unique_vals st) (sparse_unique_vals st)
    (sparse_unique_idxs st) (sparse_offset st) (sparse_oov st) v
    (multi_sparse_unique_idxs st) (multi_sparse_combine_info st) (props st)
    (popular_items st) (old st) (all_args st) (sharing st).

Definition put_multi_sparse_unique_idxs (v : option (list (string * gmap Z Z))) (st : DataInfo) : DataInfo :=
  mkDataInfo (col_name_mapping st) (interaction_data st)
    (user_sparse_unique st) (user_dense_unique st) (item_sparse_unique st)
    (item_dense_unique st) (user_consumed st) (item_consumed st)
    (user_unique_vals st) (item_unique_vals st) (sparse_unique_vals st)
    (sparse_unique_idxs st) (sparse_offset st) (sparse_oov st)
    (multi_sparse_unique_vals st) v (multi_sparse_combine_info st)
    (props st) (popular_items st) (old st) (all_args st) (sharing st).

Definition put_props (v : Cached) (st : DataInfo) : DataInfo :=
  mkDataInfo (col_name_mapping st) (interaction_data st)
    (user_sparse_unique st) (user_dense_unique st) (item_sparse_unique st)
    (item_dense_unique st) (user_consumed st) (item_consumed st)
    (user_unique_vals st) (item_unique_vals st) (sparse_unique_vals st)
    (sparse_unique_idxs st) (sparse_offset st) (sparse_oov st)
    (multi_sparse_unique_vals st) (multi_sparse_unique_idxs st)
    (multi_sparse_combine_info st) v (popular_items st) (old st)
    (all_args st) (sharing st).

Definition put_popular_items (v : option (list Z)) (st : DataInfo) : DataInfo :=
  mkDataInfo (col_name_mapping st) (interaction_data st)
    (user_sparse_unique st) (user_dense_unique st) (item_sparse_unique st)
    (item_dense_unique st) (user_consumed st) (item_consumed st)
    (user_unique_vals st) (item_unique_vals st) (sparse_unique_vals st)
    (sparse_unique_idxs st) (sparse_offset st) (sparse_oov st)
    (multi_sparse_unique_vals st) (multi_sparse_unique_idxs st)
    (multi_sparse_combine_info st) (props st) v (old st) (all_args st) (sharing st).

Definition put_old (v : OldInfo) (st : DataInfo) : DataInfo :=
  mkDataInfo (col_name_mapping st) (interaction_data st)
    (user_sparse_unique st) (user_dense_unique st) (item_sparse_unique st)
    (item_dense_unique st) (user_consumed st) (item_consumed st)
    (user_unique_vals st) (item_unique_vals st) (sparse_unique_vals st)
    (sparse_unique_idxs st) (sparse_offset st) (sparse_oov st)
    (multi_sparse_unique_vals st) (multi_sparse_unique_idxs st)
    (multi_sparse_combine_info st) (props st) (popular_items st) v
    (all_args st) (sharing st).

Definition put_all_args (v : Args) (st : DataInfo) : DataInfo :=
  mkDataInfo (col_name_mapping st) (interaction_data st)
    (user_sparse_unique st) (user_dense_unique st) (item_sparse_unique st)
    (item_dense_unique st) (user_consumed st) (item_consumed st)
    (user_unique_vals st) (item_unique_vals st) (sparse_unique_vals st)
    (sparse_unique_idxs st) (sparse_offset st) (sparse_oov st)
    (multi_sparse_unique_vals st) (multi_sparse_unique_idxs st)
    (multi_sparse_combine_info st) (props st) (popular_items st) (old st) v
    (sharing st).

Definition put_sharing (v : Sharing) (st : DataInfo) : DataInfo :=
  mkDataInfo (col_name_mapping st) (interaction_data st)
    (user_sparse_unique st) (user_dense_unique st) (item_sparse_unique st)
    (item_dense_unique st) (user_consumed st) (item_consumed st)
    (user_unique_vals st) (item_unique_vals st) (sparse_unique_vals st)
    (sparse_unique_idxs st) (sparse_offset st) (sparse_oov st)
    (multi_sparse_unique_vals st) (multi_sparse_unique_idxs st)
    (multi_sparse_combine_info st) (props st) (popular_items st) (old st)
    (all_args st) v.

(** ** [DataInfo]: rebinding an attribute and writing into its object *)

Definition set_arg_user_sparse_unique (v : option (Matrix Z)) (a : Args) : Args :=
  mkArgs (arg_col_name_mapping a) (arg_interaction_data a) v
    (arg_user_dense_unique a) (arg_item_sparse_unique a) (arg_item_dense_unique a)
    (arg_user_indices a) (arg_item_indices a) (arg_user_unique_vals a)
    (arg_item_unique_vals a) (arg_sparse_unique_vals a) (arg_sparse_offset a)
    (arg_sparse_oov a) (arg_multi_sparse_unique_vals a)
    (arg_multi_sparse_combine_info a).

Definition set_arg_user_dense_unique (v : option (Matrix Qc)) (a : Args) : Args :=
  mkArgs (arg_col_name_mapping a) (arg_interaction_data a)
    (arg_user_sparse_unique a) v (arg_item_sparse_unique a) (arg_item_dense_unique a)
    (arg_user_indices a) (arg_item_indices a) (arg_user_unique_vals a)
    (arg_item_unique_vals a) (arg_sparse_unique_vals a) (arg_sparse_offset a)
    (arg_sparse_oov a) (arg_multi_sparse_unique_vals a)
    (arg_multi_sparse_combine_info a).

Definition set_arg_item_sparse_unique (v : option (Matrix Z)) (a : Args) : Args :=
  mkArgs (arg_col_name_mapping a) (arg_interaction_data a)
    (arg_user_sparse_unique a) (arg_user_dense_unique a) v (arg_item_dense_unique a)
    (arg_user_indices a) (arg_item_indices a) (arg_user_unique_vals a)
    (arg_item_unique_vals a) (arg_sparse_unique_vals a) (arg_sparse_offset a)
    (arg_sparse_oov a) (arg_multi_sparse_unique_vals a)
    (arg_multi_sparse_combine_info a).

Definition set_arg_item_dense_unique (v : option (Matrix Qc)) (a : Args) : Args :=
  mkArgs (arg_col_name_mapping a) (arg_interaction_data a)
    (arg_user_sparse_unique a) (arg_user_dense_unique a) (arg_item_sparse_unique a) v
    (arg_user_indices a) (arg_item_indices a) (arg_user_unique_vals a)
    (arg_item_unique_vals a) (arg_sparse_unique_vals a) (arg_sparse_offset a)
    (arg_sparse_oov a) (arg_multi_sparse_unique_vals a)
    (arg_multi_sparse_combine_info a).

Definition set_arg_sparse_unique_vals (v : option (list (string * list Z)))
    (a : Args) : Args :=
  mkArgs (arg_col_name_mapping a) (arg_interaction_data a)
    (arg_user_sparse_unique a) (arg_user_dense_unique a) (arg_item_sparse_unique a)
    (arg_item_dense_unique a) (arg_user_indices a) (arg_item_indices a)
    (arg_user_unique_vals a) (arg_item_unique_vals a) v (arg_sparse_offset a)
    (arg_sparse_oov a) (arg_multi_sparse_unique_vals a)
    (arg_multi_sparse_combine_info a).

Definition set_arg_multi_sparse_unique_vals (v : option (list (string * list Z)))
    (a : Args) : Args :=
  mkArgs (arg_col_name_mapping a) (arg_interaction_data a)
    (arg_user_sparse_unique a) (arg_user_dense_unique a) (arg_item_sparse_unique a)
    (arg_item_dense_unique a) (arg_user_indices a) (arg_item_indices a)
    (arg_user_unique_vals a) (arg_item_unique_vals a) (arg_sparse_unique_vals a)
    (arg_sparse_offset a) (arg_sparse_oov a) v
    (arg_multi_sparse_combine_info a).

Definition set_user_sparse_shared (v : bool) (s : Sharing) : Sharing :=
  mkSharing v (user_dense_shared s) (item_sparse_shared s) (item_dense_shared s).

Definition set_user_dense_shared (v : bool) (s : Sharing) : Sharing :=
  mkSharing (user_sparse_shared s) v (item_sparse_shared s) (item_dense_shared s).

Definition set_item_sparse_shared (v : bool) (s : Sharing) : Sharing :=
  mkSharing (user_sparse_shared s) (user_dense_shared s) v (item_dense_shared s).

Definition set_item_dense_shared (v : bool) (s : Sharing) : Sharing :=
  mkSharing (user_sparse_shared s) (user_dense_shared s) (item_sparse_shared s) v.

(** [self.<matrix> = np.vstack(...)]: the attribute is bound to a new array,
    and [all_args] keeps the array it has. *)
Definition rebind_user_sparse_unique (v : option (Matrix Z)) (st : DataInfo)
  : DataInfo :=
  put_sharing (set_user_sparse_shared false (sharing st))
    (put_user_sparse_unique v st).

Definition rebind_user_dense_unique (v : option (Matrix Qc)) (st : DataInfo)
  : DataInfo :=
  put_sharing (set_user_dense_shared false (sharing st))
    (put_user_dense_unique v st).

Definition rebind_item_sparse_unique (v : option (Matrix Z)) (st : DataInfo)
  : DataInfo :=
  put_sharing (set_item_sparse_shared false (sharing st))
    (put_item_sparse_unique v st).

Definition rebind_item_dense_unique (v : option (Matrix Qc)) (st : DataInfo)
  : DataInfo :=
  put_sharing (set_item_dense_shared false (sharing st))
    (put_item_dense_unique v st).

(** [self.<matrix>[row_idx, feat_idx] = ...]: the array is written in place;
    [v] is its new content, which [all_args] shows as well when it holds the
    same array. *)
Definition write_user_sparse_unique (v : option (Matrix Z)) (st : DataInfo)
  : DataInfo :=
  let st' := put_user_sparse_unique v st in
  if user_sparse_shared (sharing st)
  then put_all_args (set_arg_user_sparse_unique v (all_args st)) st'
  else st'.

Definition write_user_dense_unique (v : option (Matrix Qc)) (st : DataInfo)
  : DataInfo :=
  let st' := put_user_dense_unique v st in
  if user_dense_shared (sharing st)
  then put_all_args (set_arg_user_dense_unique v (all_args st)) st'
  else st'.

Definition write_item_sparse_unique (v : option (Matrix Z)) (st : DataInfo)
  : DataInfo :=
  let st' := put_item_sparse_unique v st in
  if item_sparse_shared (sharing st)
  then put_all_args (set_arg_item_sparse_unique v (all_args st)) st'
  else st'.

Definition write_item_dense_unique (v : option (Matrix Qc)) (st : DataInfo)
  : DataInfo :=
  let st' := put_item_dense_unique v st in
  if item_dense_shared (sharing st)
  then put_all_args (set_arg_item_dense_unique v (all_args st)) st'
  else st'.

(** A write into the dictionary of unique sparse values, or into the one of
    the multi-sparse fields: [v] is its new content, for the attribute and
    for [all_args], which hold the one dictionary. *)
Definition write_sparse_unique_vals (v : option (list (string * list Z)))
    (st : DataInfo) : DataInfo :=
  put_all_args (set_arg_sparse_unique_vals v (all_args st))
    (put_sparse_unique_vals v st).

Definition write_multi_sparse_unique_vals (v : option (list (string * list Z)))
    (st : DataInfo) : DataInfo :=
  put_all_args (set_arg_multi_sparse_unique_vals v (all_args st))
    (put_multi_sparse_unique_vals v st).

(** ** [DataInfo]: properties *)

Definition set_cache (f : Cached -> Cached) : M DataInfo unit :=
  modify (fun st => put_props (f (props st)) st).

Definition set_old_info (f : OldInfo -> OldInfo) : M DataInfo unit :=
  modify (fun st => put_old (f (old st)) st).

(** [x] where the code goes on to use it as a sequence: [None] has no
    [len], no subscript and is not iterable. *)
Definition not_none {S A} (x : option A) : M S A :=
  match x with
  | Some a => mret a
  | None => raise TypeError
  end.

(** The six column-family properties ([sparse_col], [user_sparse_col], ...)
    differ only in the family name. *)
Definition column_family (fam : string) : M DataInfo Feature :=
  st ← get;
  match col_name_mapping st with
  | None | Some [] => mret EmptyFeature
  | Some cnm =>
      cols ← lift (dict_item fam cnm);
      match cols with
      | [] => mret EmptyFeature
      | _ => mret (mkFeature cols.*1 cols.*2)
      end
  end.

Definition sparse_col : M DataInfo Feature := column_family "sparse_col".
Definition dense_col : M DataInfo Feature := column_family "dense_col".
Definition user_sparse_col : M DataInfo Feature := column_family "user_sparse_col".
Definition user_dense_col : M DataInfo Feature := column_family "user_dense_col".
Definition item_sparse_col : M DataInfo Feature := column_family "item_sparse_col".
Definition item_dense_col : M DataInfo Feature := column_family "item_dense_col".

Definition n_users : M DataInfo nat :=
  st ← get;
  match _n_users (props st) with
  | Some n => mret n
  | None =>
      vals ← not_none (user_unique_vals st);
      set_cache (set_n_users (Some (length vals)));;
      mret (length vals)
  end.

Definition n_items : M DataInfo nat :=
  st ← get;
  match _n_items (props st) with
  | Some n => mret n
  | None =>
      vals ← not_none (item_unique_vals st);
      set_cache (set_n_items (Some (length vals)));;
      mret (length vals)
  end.

Definition user2id : M DataInfo (gmap Z Z) :=
  st ← get;
  match _user2id (props st) with
  | Some d => mret d
  | None =>
      n ← n_users;
      vals ← not_none (user_unique_vals st);
      let d := py_dict (zip vals (py_range n)) in
      set_cache (set_user2id (Some d));;
      mret d
  end.

Definition item2id : M DataInfo (gmap Z Z) :=
  st ← get;
  match _item2id (props st) with
  | Some d => mret d
  | None =>
      n ← n_items;
      vals ← not_none (item_unique_vals st);
      let d := py_dict (zip vals (py_range n)) in
      set_cache (set_item2id (Some d));;
      mret d
  end.

(** [{j: user for user, j in d.items()}]; the iteration order of [d] is
    unobservable when its values are distinct, as those of [user2id] are. *)
Definition invert_dict (d : gmap Z Z) : gmap Z Z :=
  py_dict ((fun kv : Z * Z => (kv.2, kv.1)) <$> map_to_list d).

Definition id2user : M DataInfo (gmap Z Z) :=
  st ← get;
  match _id2user (props st) with
  | Some d => mret d
  | None =>
      u2i ← user2id;
      set_cache (set_id2user (Some (invert_dict u2i)));;
      mret (invert_dict u2i)
  end.

Definition id2item : M DataInfo (gmap Z Z) :=
  st ← get;
  match _id2item (props st) with
  | Some d => mret d
  | None =>
      i2i ← item2id;
      set_cache (set_id2item (Some (invert_dict i2i)));;
      mret (invert_dict i2i)
  end.

(** The value a property returns in a given state. *)
Definition value_of {S A} (prop : M S A) (st : S) : outcome A := (prop st).1.

(** [DataInfo.map_unique_vals] *)
Definition map_unique_vals (sparse_unique_vals : option (list (string * list Z)))
  : option (list (string * gmap Z Z)) :=
  match sparse_unique_vals with
  | None => None
  | Some d =>
      Some (foldl (fun res col =>
                     match dict_get col d with
                     | Some vals =>
                         let size := length vals in
                         dict_set col (py_dict (zip vals (py_range size))) res
                     | None => res
                     end) [] d.*1)
  end.

Definition reset_property : M DataInfo unit :=
  modify (put_props no_cache).

(** ** [DataInfo]: consumption index, oov rows, popular items, construction *)

(** [defaultdict(list)[k].append(v)] *)
Definition append_to (k v : Z) (d : gmap Z (list Z)) : gmap Z (list Z) :=
  <[k := default [] (d !! k) ++ [v]]> d.

(** Modelled from the spec: [interaction_consumed] of [libreco.feature] is
    not among the sources.  Per the spec (ConsumptionIndex, [build]) it is a
    single pass over the (user, item) pairs that groups by user and by item,
    keeps every occurrence, and keeps the order of the source data. *)
Definition interaction_consumed (user_indices item_indices : list Z)
  : gmap Z (list Z) * gmap Z (list Z) :=
  foldl (fun acc ui => (append_to ui.1 ui.2 acc.1, append_to ui.2 ui.1 acc.2))
        (∅, ∅) (zip user_indices item_indices).

(** [a[idx]] where the indices come from a column family. *)
Definition np_take_entries {A} (a : list A) (idx : list Entry) : outcome (list A) :=
  mapO (fun e => match e with
                 | EInt i => np_index a i
                 | EStr _ => Raise IndexError
                 end) idx.

(** One of the four [if] blocks of [add_oov]; they differ in the matrix, in
    the entity count it is compared with and in how the oov row is obtained.
    The block binds the attribute to the array that [np.vstack] returns. *)
Definition add_oov_block {A} (unique : DataInfo -> option (Matrix A))
    (rebind_unique : option (Matrix A) -> DataInfo -> DataInfo)
    (n_entities : M DataInfo nat) (oov_row : Matrix A -> M DataInfo (list A))
  : M DataInfo unit :=
  st ← get;
  match unique st with
  | Some m =>
      n ← n_entities;
      if decide (nrows m = n) then
        oov ← oov_row m;
        m' ← lift (vstack_row m oov);
        modify (rebind_unique (Some m'))
      else mret tt
  | None => mret tt
  end.

(** [self.sparse_oov[<family>.index]] *)
Definition sparse_oov_row (family : M DataInfo Feature) : M DataInfo (list Z) :=
  col ← family;
  st ← get;
  oov ← not_none (sparse_oov st);
  lift (np_take_entries oov (index col)).

Definition add_oov : M DataInfo unit :=
  add_oov_block user_sparse_unique rebind_user_sparse_unique n_users
    (fun _ => sparse_oov_row user_sparse_col);;
  add_oov_block item_sparse_unique rebind_item_sparse_unique n_items
    (fun _ => sparse_oov_row item_sparse_col);;
  add_oov_block user_dense_unique rebind_user_dense_unique n_users
    (fun m => mret (column_means m));;
  add_oov_block item_dense_unique rebind_item_dense_unique n_items
    (fun m => mret (column_means m)).

(** [sort_values(ascending=False)] on (item, count) pairs: larger counts
    first; equal counts keep their incoming order in this model (pandas
    leaves the order of ties to the sorting kind). *)
Fixpoint insert_by_count (x : Z * nat) (l : list (Z * nat)) : list (Z * nat) :=
  match l with
  | [] => [x]
  | y :: l' =>
      if decide (x.2 < y.2)%nat then y :: insert_by_count x l' else x :: y :: l'
  end.

Definition sort_values_desc (l : list (Z * nat)) : list (Z * nat) :=
  foldr insert_by_count [] l.

(** [drop_duplicates(subset=["user", "item"]).groupby("item")["user"].count()]:
    per item, in ascending item order, the number of distinct users. *)
Definition count_items (data : list Interaction) : list (Z * nat) :=
  let pairs := remove_dups ((fun r => (user r, item r)) <$> data) in
  (fun i => (i, length (filter (fun p : Z * Z => p.2 = i) pairs)))
    <$> np_unique pairs.*2.

Definition set_popular_items (num : nat) : M DataInfo unit :=
  st ← get;
  match interaction_data st with
  | None => raise (AttributeError "drop_duplicates")
  | Some data =>
      let selected_items := take num (sort_values_desc (count_items data)).*1 in
      let selected_items :=
        match popular_items st with
        | Some old_popular =>
            if decide (length selected_items < num)%nat
            then selected_items ++ take (num - length selected_items) old_popular
            else selected_items
        | None => selected_items
        end in
      modify (put_popular_items (Some selected_items))
  end.

(** The object as [__init__] has it just before [self.add_oov()]. *)
Definition initial_state (args : Args) (consumed : gmap Z (list Z) * gmap Z (list Z))
  : DataInfo :=
  {| col_name_mapping := arg_col_name_mapping args;
     interaction_data := arg_interaction_data args;
     user_sparse_unique := arg_user_sparse_unique args;
     user_dense_unique := arg_user_dense_unique args;
     item_sparse_unique := arg_item_sparse_unique args;
     item_dense_unique := arg_item_dense_unique args;
     user_consumed := consumed.1;
     item_consumed := consumed.2;
     user_unique_vals := arg_user_unique_vals args;
     item_unique_vals := arg_item_unique_vals args;
     sparse_unique_vals := arg_sparse_unique_vals args;
     sparse_unique_idxs := map_unique_vals (arg_sparse_unique_vals args);
     sparse_offset := arg_sparse_offset args;
     sparse_oov := arg_sparse_oov args;
     multi_sparse_unique_vals := arg_multi_sparse_unique_vals args;
     multi_sparse_unique_idxs := map_unique_vals (arg_multi_sparse_unique_vals args);
     multi_sparse_combine_info := arg_multi_sparse_combine_info args;
     props := no_cache;
     popular_items := None;
     old := mkOldInfo None None None None None;
     all_args := args;
     sharing := all_shared |}.

(** The constructor call with keyword arguments [args]: the constructed object, or the exception that
    escapes [__init__].  [interaction_consumed] iterates over both index
    arrays, so a missing one is a [TypeError]. *)
Definition __init__ (args : Args) : outcome DataInfo :=
  match arg_user_indices args, arg_item_indices args with
  | Some user_indices, Some item_indices =>
      let st0 := initial_state args (interaction_consumed user_indices item_indices) in
      match (add_oov;;
             st ← get;
             match popular_items st with
             | None => set_popular_items 100
             | Some _ => mret tt
             end) st0 with
      | (Ok _, st) => Ok st
      | (Raise e, _) => Raise e
      end
  | _, _ => Raise TypeError
  end.

(** ** [DataInfo]: incremental expansion *)

(** [enumerate(l)] *)
Definition enumerate {A} (l : list A) : list (nat * A) := zip (seq 0 (length l)) l.

(** [l[i]] for a loop counter [i]. *)
Definition nth_item {A} (l : list A) (i : nat) : outcome A :=
  match l !! i with
  | Some x => Ok x
  | None => Raise IndexError
  end.

(** [names.index(x)] *)
Fixpoint list_index (names : list string) (x : Entry) : outcome nat :=
  match names with
  | [] => Raise (ValueError "is not in list")
  | y :: names' =>
      if decide (EStr y = x) then Ok 0%nat
      else pos ← list_index names' x; Ok (S pos)
  end.

Definition has_key {V} (col : string) (d : option (list (string * V))) : bool :=
  match d with
  | Some d => bool_decide (col ∈ d.*1)
  | None => false
  end.

Definition old_sparse_len_append (x : Z) : M DataInfo unit :=
  set_old_info (fun o => put_old_sparse_len ((fun l => l ++ [x]) <$> old_sparse_len o) o).
Definition old_sparse_oov_append (x : Z) : M DataInfo unit :=
  set_old_info (fun o => put_old_sparse_oov ((fun l => l ++ [x]) <$> old_sparse_oov o) o).
Definition old_sparse_offset_append (x : Z) : M DataInfo unit :=
  set_old_info (fun o => put_old_sparse_offset ((fun l => l ++ [x]) <$> old_sparse_offset o) o).

(** The first two branches of the loop in [store_old_info] differ only in
    the dictionary that knows the column. *)
Definition store_old_known (unique_vals : option (list (string * list Z)))
    (i : nat) (col : string) : M DataInfo unit :=
  d ← not_none unique_vals;
  vals ← lift (dict_item col d);
  old_sparse_len_append (Z.of_nat (length vals));;
  st ← get;
  oov ← not_none (sparse_oov st);
  x ← lift (nth_item oov i);
  old_sparse_oov_append x;;
  offset ← not_none (sparse_offset st);
  y ← lift (nth_item offset i);
  old_sparse_offset_append y.

Definition store_old_info : M DataInfo unit :=
  n ← n_users;
  set_old_info (put_old_n_users (Some n));;
  n ← n_items;
  set_old_info (put_old_n_items (Some n));;
  st ← get;
  if bool_decide (sparse_unique_vals st ≠ None ∨ multi_sparse_unique_vals st ≠ None)
  then
    set_old_info (put_old_sparse_len (Some []));;
    set_old_info (put_old_sparse_oov (Some []));;
    set_old_info (put_old_sparse_offset (Some []));;
    cols ← sparse_col;
    for_each (enumerate (name cols)) (fun ic =>
      let i := ic.1 in
      let col := ic.2 in
      if has_key col (sparse_unique_vals st) then
        store_old_known (sparse_unique_vals st) i col
      else if has_key col (multi_sparse_unique_vals st) then
        store_old_known (multi_sparse_unique_vals st) i col
      else
        match multi_sparse_unique_vals st with
        | None => mret tt
        | Some _ =>
            cnm ← not_none (col_name_mapping st);
            multi_sparse ← lift (dict_item "multi_sparse" cnm);
            if bool_decide (col ∈ multi_sparse.*1) then
              main_name ← lift (dict_item col multi_sparse);
              cols' ← sparse_col;
              pos ← lift (list_index (name cols') main_name);
              old_sparse_len_append (-1);;
              offset ← not_none (sparse_offset st);
              y ← lift (nth_item offset pos);
              old_sparse_offset_append y
            else mret tt
        end)
  else mret tt.

(** [np.vstack([m[:-1], np.zeros([diff_num, m.shape[1]])])] *)
Definition without_oov_plus_zeros {A} (zero : A) (m : Matrix A) (diff_num : nat)
  : Matrix A :=
  mkMatrix (ncols m) (drop_last_row m ++ np_zeros zero diff_num (ncols m)).

Definition extend_unique_matrix (mode : string) (diff_num : nat) : M DataInfo unit :=
  if decide (mode = "user") then
    st ← get;
    match user_sparse_unique st with
    | Some m =>
        (* exclude last oov unique values *)
        modify (rebind_user_sparse_unique (Some (without_oov_plus_zeros 0 m diff_num)))
    | None => mret tt
    end;;
    st ← get;
    match user_dense_unique st with
    | Some m =>
        modify (rebind_user_dense_unique (Some (without_oov_plus_zeros 0%Qc m diff_num)))
    | None => mret tt
    end
  else if decide (mode = "item") then
    st ← get;
    match item_sparse_unique st with
    | Some m =>
        modify (rebind_item_sparse_unique (Some (without_oov_plus_zeros 0 m diff_num)))
    | None => mret tt
    end;;
    st ← get;
    match item_dense_unique st with
    | Some m =>
        modify (rebind_item_dense_unique (Some (without_oov_plus_zeros 0%Qc m diff_num)))
    | None => mret tt
    end
  else mret tt.

(** [data.user]: attribute access to a column. *)
Definition frame_attr (data : Frame) (col : string) : outcome Column :=
  match dict_get col data with
  | Some c => Ok c
  | None => Raise (AttributeError col)
  end.

(** The two dictionary pairs that [update_sparse_unique] is applied to. *)
Inductive SparseKind : Type := Single | Multi.

Definition unique_dicts_of (k : SparseKind) (st : DataInfo)
  : option (list (string * list Z)) :=
  match k with
  | Single => sparse_unique_vals st
  | Multi => multi_sparse_unique_vals st
  end.

Definition unique_idxs_of (k : SparseKind) (st : DataInfo)
  : option (list (string * gmap Z Z)) :=
  match k with
  | Single => sparse_unique_idxs st
  | Multi => multi_sparse_unique_idxs st
  end.

Definition put_unique_dicts (k : SparseKind) (v : list (string * list Z))
  : DataInfo -> DataInfo :=
  match k with
  | Single => write_sparse_unique_vals (Some v)
  | Multi => write_multi_sparse_unique_vals (Some v)
  end.

Definition put_unique_idxs (k : SparseKind) (v : list (string * gmap Z Z))
  : DataInfo -> DataInfo :=
  match k with
  | Single => put_sparse_unique_idxs (Some v)
  | Multi => put_multi_sparse_unique_idxs (Some v)
  end.

(** The inner function of [expand_sparse_unique_vals_and_matrix]: first the
    body of its loop, for one key of the dictionary.  Both dictionaries are
    updated in place; the one of the unique values is the dictionary that
    [all_args] holds, so the new values show there too. *)
Definition update_sparse_column (data : Frame) (k : SparseKind) (sparse_col : string)
  : M DataInfo unit :=
  st ← get;
  unique_dicts ← not_none (unique_dicts_of k st);
  unique_vals ← lift (dict_item sparse_col unique_dicts);
  column ← lift (frame_get data sparse_col);
  values ← lift (int_values column);
  let sparse_diff := setdiff1d values unique_vals in
  if decide (0 < length sparse_diff)%nat then
    let unique_vals := unique_vals ++ sparse_diff in
    modify (put_unique_dicts k (dict_set sparse_col unique_vals unique_dicts));;
    let size := length unique_vals in
    unique_idxs ← not_none (unique_idxs_of k st);
    modify (put_unique_idxs k
              (dict_set sparse_col (py_dict (zip unique_vals (py_range size)))
                        unique_idxs))
  else mret tt.

Definition update_sparse_unique (data : Frame) (k : SparseKind) : M DataInfo unit :=
  st ← get;
  unique_dicts ← not_none (unique_dicts_of k st);
  for_each unique_dicts.*1 (update_sparse_column data k).

(** The user block and the item block of
    [expand_sparse_unique_vals_and_matrix].  A [DataInfo] whose unique-value
    array is [None] cannot take part in a set difference; this model raises
    [TypeError] there. *)
Definition expand_users (data : Frame) : M DataInfo unit :=
  column ← lift (frame_attr data "user");
  users ← lift (int_values column);
  st ← get;
  known ← not_none (user_unique_vals st);
  let user_diff := setdiff1d users known in
  if decide (0 < length user_diff)%nat then
    modify (put_user_unique_vals (Some (known ++ user_diff)));;
    extend_unique_matrix "user" (length user_diff)
  else mret tt.

Definition expand_items (data : Frame) : M DataInfo unit :=
  column ← lift (frame_attr data "item");
  items ← lift (int_values column);
  st ← get;
  known ← not_none (item_unique_vals st);
  let item_diff := setdiff1d items known in
  if decide (0 < length item_diff)%nat then
    modify (put_item_unique_vals (Some (known ++ item_diff)));;
    extend_unique_matrix "item" (length item_diff)
  else mret tt.

(** [if self.<dicts> is not None: update_sparse_unique(...)] *)
Definition update_if_present (data : Frame) (k : SparseKind) : M DataInfo unit :=
  st ← get;
  match unique_dicts_of k st with
  | Some _ => update_sparse_unique data k
  | None => mret tt
  end.

Definition expand_sparse_unique_vals_and_matrix (data : Frame) : M DataInfo unit :=
  store_old_info;;
  reset_property;;
  expand_users data;;
  expand_items data;;
  update_if_present data Single;;
  update_if_present data Multi.

(** ** [DataInfo]: feature assignment *)

(** The two helpers that [data_info.py] imports from [libreco.feature] and
    that are not among the sources.  They are taken as parameters: both read
    the index and return a value.  [check_oov] is known (from the spec's
    [assign_features]) to resolve the id column of the incoming rows to inner
    ids; it keeps the column names of the frame it is given. *)
Class FeatureHelpers : Type := {
  check_oov : DataInfo -> Frame -> string -> outcome Frame;
  compute_sparse_feat_indices :
    DataInfo -> Frame -> Entry -> string -> outcome (list Z);
  check_oov_columns : forall st data mode data',
    check_oov st data mode = Ok data' ->
    frame_columns data' = frame_columns data
}.

(** The loop that the four branches of [assign_sparse_features] and
    [assign_dense_features] share: [id_col] is the id column of the mode,
    [family] its column family, [unique] the matrix, [write_unique] the
    write into its array, and [values] the right hand side of the assignment
    for one column. *)
Definition assign_columns {A} (data : Frame) (id_col : string)
    (family : M DataInfo Feature)
    (unique : DataInfo -> option (Matrix A))
    (write_unique : option (Matrix A) -> DataInfo -> DataInfo)
    (values : DataInfo -> Feature -> nat -> string -> outcome (list A))
  : M DataInfo unit :=
  column ← lift (frame_get data id_col);
  row_idx ← lift (int_values column);
  col_info ← family;
  st ← get;
  match unique st, name col_info with
  | Some _, _ :: _ =>
      for_each (enumerate (name col_info)) (fun fc =>
        let feat_idx := fc.1 in
        let col := fc.2 in
        if bool_decide (col ∈ frame_columns data) then
          st ← get;
          vals ← lift (values st col_info feat_idx col);
          m ← not_none (unique st);
          m' ← lift (np_assign_col m row_idx feat_idx vals);
          modify (write_unique (Some m'))
        else mret tt)
  | _, _ => mret tt
  end.

(** [data[col].to_numpy()] *)
Definition dense_values (data : Frame) (st : DataInfo) (col_info : Feature)
    (feat_idx : nat) (col : string) : outcome (list Qc) :=
  column ← frame_get data col;
  Ok (float_values column).

Section Assign.
Context `{FeatureHelpers}.

(** [compute_sparse_feat_indices(self, data, col_info.index[feat_idx], col)] *)
Definition sparse_values (data : Frame) (st : DataInfo) (col_info : Feature)
    (feat_idx : nat) (col : string) : outcome (list Z) :=
  field_idx ← nth_item (index col_info) feat_idx;
  compute_sparse_feat_indices st data field_idx col.

Definition assign_sparse_features (data : Frame) (mode : string)
  : M DataInfo unit :=
  st ← get;
  data ← lift (check_oov st data mode);
  if decide (mode = "user") then
    assign_columns data "user" user_sparse_col
      user_sparse_unique write_user_sparse_unique (sparse_values data)
  else if decide (mode = "item") then
    assign_columns data "item" item_sparse_col
      item_sparse_unique write_item_sparse_unique (sparse_values data)
  else raise (ValueError "mode must be user or item.").

Definition assign_dense_features (data : Frame) (mode : string)
  : M DataInfo unit :=
  st ← get;
  data ← lift (check_oov st data mode);
  if decide (mode = "user") then
    assign_columns data "user" user_dense_col
      user_dense_unique write_user_dense_unique (dense_values data)
  else if decide (mode = "item") then
    assign_columns data "item" item_dense_col
      item_dense_unique write_item_dense_unique (dense_values data)
  else mret tt.

Definition assign_user_features (user_data : Frame) : M DataInfo unit :=
  assign_sparse_features user_data "user";;
  assign_dense_features user_data "user".

Definition assign_item_features (item_data : Frame) : M DataInfo unit :=
  assign_sparse_features item_data "item";;
  assign_dense_features item_data "item".
End Assign.

(** [data[mask]]: the rows of a column that the mask selects. *)
Definition mask_column (mask : list bool) (c : Column) : Column :=
  match c with
  | IntCol xs => IntCol (filter (fun bx : bool * Z => bx.1 = true) (zip mask xs)).*2
  | FloatCol xs => FloatCol (filter (fun bx : bool * Qc => bx.1 = true) (zip mask xs)).*2
  end.

(** Modelled from the spec: [check_oov] of [libreco.feature] is not among
    the sources.  Per the spec ([assign_features]) the id of an incoming row
    is looked up for "the row's current inner id"; a row whose id the index
    does not hold has no row of the unique matrix and is left out.  Another
    mode than "user" or "item" has no id column to resolve. *)
Definition check_oov_model (st : DataInfo) (data : Frame) (mode : string)
  : outcome Frame :=
  if bool_decide (mode = "user" \/ mode = "item") then
    to_id ← value_of (if decide (mode = "user") then user2id else item2id) st;
    column ← frame_get data mode;
    ids ← int_values column;
    let mask := (fun x => bool_decide (is_Some (to_id !! x))) <$> ids in
    Ok ((fun nc : string * Column =>
           (nc.1, if decide (nc.1 = mode) then IntCol (omap (fun x => to_id !! x) ids)
                  else mask_column mask nc.2)) <$> data)
  else Ok data.

(** The index map of a sparse column, single or multi. *)
Definition unique_idxs_for (st : DataInfo) (col : string) : outcome (gmap Z Z) :=
  match sparse_unique_idxs st ≫= dict_get col with
  | Some d => Ok d
  | None =>
      match multi_sparse_unique_idxs st ≫= dict_get col with
      | Some d => Ok d
      | None => Raise (KeyError col)
      end
  end.

(** Modelled from the spec: [compute_sparse_feat_indices] of
    [libreco.feature] is not among the sources.  Per the spec
    ([assign_features]) a sparse value becomes "the computed embedding index
    (using the column's unique-value dictionary, falling back to oov if
    unseen)": its position in the dictionary plus the field's offset, or the
    field's oov slot. *)
Definition compute_sparse_feat_indices_model (st : DataInfo) (data : Frame)
    (field_idx : Entry) (col : string) : outcome (list Z) :=
  match field_idx, sparse_offset st, sparse_oov st return outcome (list Z) with
  | EInt i, Some offsets, Some oovs =>
      offset ← np_index offsets i;
      oov_val ← np_index oovs i;
      map_vals ← unique_idxs_for st col;
      column ← frame_get data col;
      values ← int_values column;
      Ok ((fun v : Z => match (map_vals : gmap Z Z) !! v with
                        | Some j => j + offset
                        | None => oov_val
                        end) <$> (values : list Z))
  | _, _, _ => Raise TypeError
  end.

(** The helpers modelled from the spec satisfy the interface. *)
#[global] Instance feature_helpers_model : FeatureHelpers.
Proof.
  refine {| check_oov := check_oov_model;
            compute_sparse_feat_indices := compute_sparse_feat_indices_model |}.
  intros st data mode data'. unfold check_oov_model, frame_columns.
  destruct (bool_decide _); [| by intros [= <-]].
  destruct (value_of _ st) as [to_id | e]; simpl; [| done].
  destruct (frame_get data mode) as [column | e]; simpl; [| done].
  destruct (int_values column) as [ids | e]; simpl; [| done].
  intros [= <-]. rewrite <- list_fmap_compose. by apply list_fmap_ext.
Defined.

(** ** [DataInfo]: persistence *)

(** [store_args]: every listed attribute that is not [None], and the two
    index arrays.  The new [all_args] holds the objects of the attributes. *)
Definition store_args (user_indices item_indices : option (list Z))
  : M DataInfo unit :=
  st ← get;
  modify (fun s => put_sharing all_shared (put_all_args
    {| arg_col_name_mapping := col_name_mapping st;
       arg_interaction_data := interaction_data st;
       arg_user_sparse_unique := user_sparse_unique st;
       arg_user_dense_unique := user_dense_unique st;
       arg_item_sparse_unique := item_sparse_unique st;
       arg_item_dense_unique := item_dense_unique st;
       arg_user_indices := user_indices;
       arg_item_indices := item_indices;
       arg_user_unique_vals := user_unique_vals st;
       arg_item_unique_vals := item_unique_vals st;
       arg_sparse_unique_vals := sparse_unique_vals st;
       arg_sparse_offset := sparse_offset st;
       arg_sparse_oov := sparse_oov st;
       arg_multi_sparse_unique_vals := multi_sparse_unique_vals st;
       arg_multi_sparse_combine_info := multi_sparse_combine_info st |} s)).

(** The values that travel through [all_args], the [.npz] archive and the
    keyword arguments of the constructor. *)
Inductive Value : Type :=
| VMapping (m : option ColNameMapping)
| VInteractions (rows : list Interaction)
| VIntMatrix (m : Matrix Z)
| VFloatMatrix (m : Matrix Qc)
| VIntArray (a : list Z)
| VDict (d : list (string * list Z))
| VInfo (i : MultiSparseInfo).

(** [all_args] listed in the order of [inspect.signature(self.__init__)];
    [None] stands for an argument that is [None] or missing. *)
Definition signature (a : Args) : list (string * option Value) :=
  [ ("col_name_mapping", Some (VMapping (arg_col_name_mapping a)));
    ("interaction_data", VInteractions <$> arg_interaction_data a);
    ("user_sparse_unique", VIntMatrix <$> arg_user_sparse_unique a);
    ("user_dense_unique", VFloatMatrix <$> arg_user_dense_unique a);
    ("item_sparse_unique", VIntMatrix <$> arg_item_sparse_unique a);
    ("item_dense_unique", VFloatMatrix <$> arg_item_dense_unique a);
    ("user_indices", VIntArray <$> arg_user_indices a);
    ("item_indices", VIntArray <$> arg_item_indices a);
    ("user_unique_vals", VIntArray <$> arg_user_unique_vals a);
    ("item_unique_vals", VIntArray <$> arg_item_unique_vals a);
    ("sparse_unique_vals", VDict <$> arg_sparse_unique_vals a);
    ("sparse_offset", VIntArray <$> arg_sparse_offset a);
    ("sparse_oov", VIntArray <$> arg_sparse_oov a);
    ("multi_sparse_unique_vals", VDict <$> arg_multi_sparse_unique_vals a);
    ("multi_sparse_combine_info", VInfo <$> arg_multi_sparse_combine_info a) ].

Inductive File : Type :=
| JsonFile (content : option ColNameMapping)
| NpzFile (content : list (string * Value)).

(** The part of the world that [save] and [load] touch. *)
Record World : Type := mkWorld {
  folders : gset string;
  files : gmap string File;
  console : list string
}.

Definition print (line : string) : M World unit :=
  modify (fun w => mkWorld (folders w) (files w) (console w ++ [line])).
Definition makedirs (path : string) : M World unit :=
  modify (fun w => mkWorld ({[path]} ∪ folders w) (files w) (console w)).
Definition write_file (path : string) (f : File) : M World unit :=
  modify (fun w => mkWorld (folders w) (<[path := f]> (files w)) (console w)).

(** [os.path.join(path, file)] for a relative [file]. *)
Definition path_join (path file : string) : string := path +:+ "/" +:+ file.

(** [os.path.exists] *)
Definition path_exists (w : World) (path : string) : bool :=
  bool_decide (path ∈ folders w) || bool_decide (is_Some (files w !! path)).

(** One turn of the loop over the argument names in [save]. *)
Definition save_arg (hparams : list (string * Value)) (av : string * option Value)
  : list (string * Value) :=
  let arg := av.1 in
  match av.2 with
  | None => hparams
  | Some v =>
      if decide (arg = "col_name_mapping") then hparams
      else if decide (arg = "sparse_unique_vals") then
        match v with
        | VDict sparse_unique_vals =>
            foldl (fun h cv => dict_set ("unique_" +:+ cv.1) (VIntArray cv.2) h)
                  hparams sparse_unique_vals
        | _ => hparams
        end
      else if decide (arg = "multi_sparse_unique_vals") then
        match v with
        | VDict multi_sparse_unique_vals =>
            foldl (fun h cv => dict_set ("munique_" +:+ cv.1) (VIntArray cv.2) h)
                  hparams multi_sparse_unique_vals
        | _ => hparams
        end
      else dict_set arg v hparams
  end.

Definition save (st : DataInfo) (path model_name : string) : M World unit :=
  w ← get;
  (if bool_decide (path ∈ folders w) then mret tt
   else print ("file folder " +:+ path +:+ " doesn't exists, creating a new one...");;
        makedirs path);;
  match col_name_mapping st with
  | Some _ =>
      let name_mapping_path :=
        path_join path (model_name +:+ "_data_info_name_mapping.json") in
      write_file name_mapping_path (JsonFile (arg_col_name_mapping (all_args st)))
  | None => mret tt
  end;;
  let other_path := path_join path (model_name +:+ "_data_info") in
  let hparams := foldl save_arg [] (signature (all_args st)) in
  write_file (other_path +:+ ".npz") (NpzFile hparams).

(** [s[n:]] *)
Fixpoint str_drop (n : nat) (s : string) : string :=
  match n, s with
  | O, _ => s
  | S n', String _ s' => str_drop n' s'
  | S _, EmptyString => EmptyString
  end.

(** [hparams[key][col] = a], creating the dict at [key] first if needed. *)
Definition set_in_dict (key col : string) (a : Value) (hparams : list (string * Value))
  : outcome (list (string * Value)) :=
  let hparams :=
    match dict_get key hparams with
    | None => dict_set key (VDict []) hparams
    | Some _ => hparams
    end in
  match dict_get key hparams, a with
  | Some (VDict d), VIntArray a => Ok (dict_set key (VDict (dict_set col a d)) hparams)
  | _, _ => Raise TypeError
  end.

(** One turn of the loop over the archive in [load]. *)
Definition load_arg (hparams : list (string * Value)) (av : string * Value)
  : outcome (list (string * Value)) :=
  let arg := av.1 in
  if decide (arg = "interaction_data") then
    match av.2 with
    | VInteractions rows => Ok (dict_set arg (VInteractions rows) hparams)
    | _ => Raise (ValueError "Shape of passed values")
    end
  else if decide (arg = "multi_sparse_combine_info") then
    match av.2 with
    | VInfo i => Ok (dict_set arg (VInfo i) hparams)
    | _ => Raise (ValueError "can only convert an array of size 1 to a Python scalar")
    end
  else if String.prefix "unique_" arg then
    set_in_dict "sparse_unique_vals" (str_drop 7 arg) av.2 hparams
  else if String.prefix "munique_" arg then
    set_in_dict "multi_sparse_unique_vals" (str_drop 8 arg) av.2 hparams
  else Ok (dict_set arg av.2 hparams).

Fixpoint load_args (hparams : list (string * Value)) (info : list (string * Value))
  : outcome (list (string * Value)) :=
  match info with
  | [] => Ok hparams
  | av :: info' => hparams' ← load_arg hparams av; load_args hparams' info'
  end.

(** Binding keyword arguments to the parameters of [__init__]: an unknown
    keyword is a [TypeError]; so is, in this typed model, a value of another
    kind than the parameter holds. *)
Definition keyword {A} (key : string) (proj : Value -> option A)
    (hparams : list (string * Value)) : outcome (option A) :=
  match dict_get key hparams with
  | None => Ok None
  | Some v =>
      match proj v with
      | Some a => Ok (Some a)
      | None => Raise TypeError
      end
  end.

Definition as_mapping (v : Value) : option (option ColNameMapping) :=
  match v with VMapping m => Some m | _ => None end.
Definition as_interactions (v : Value) : option (list Interaction) :=
  match v with VInteractions r => Some r | _ => None end.
Definition as_int_matrix (v : Value) : option (Matrix Z) :=
  match v with VIntMatrix m => Some m | _ => None end.
Definition as_float_matrix (v : Value) : option (Matrix Qc) :=
  match v with VFloatMatrix m => Some m | _ => None end.
Definition as_int_array (v : Value) : option (list Z) :=
  match v with VIntArray a => Some a | _ => None end.
Definition as_dict (v : Value) : option (list (string * list Z)) :=
  match v with VDict d => Some d | _ => None end.
Definition as_info (v : Value) : option MultiSparseInfo :=
  match v with VInfo i => Some i | _ => None end.

(** The parameter names of [__init__]. *)
Definition parameters : list string :=
  [ "col_name_mapping"; "interaction_data"; "user_sparse_unique";
    "user_dense_unique"; "item_sparse_unique"; "item_dense_unique";
    "user_indices"; "item_indices"; "user_unique_vals"; "item_unique_vals";
    "sparse_unique_vals"; "sparse_offset"; "sparse_oov";
    "multi_sparse_unique_vals"; "multi_sparse_combine_info" ].

Definition bind_kwargs (hparams : list (string * Value)) : outcome Args :=
  if forallb (fun k => bool_decide (k ∈ parameters)) hparams.*1 then
    cnm ← keyword "col_name_mapping" as_mapping hparams;
    a2 ← keyword "interaction_data" as_interactions hparams;
    a3 ← keyword "user_sparse_unique" as_int_matrix hparams;
    a4 ← keyword "user_dense_unique" as_float_matrix hparams;
    a5 ← keyword "item_sparse_unique" as_int_matrix hparams;
    a6 ← keyword "item_dense_unique" as_float_matrix hparams;
    a7 ← keyword "user_indices" as_int_array hparams;
    a8 ← keyword "item_indices" as_int_array hparams;
    a9 ← keyword "user_unique_vals" as_int_array hparams;
    a10 ← keyword "item_unique_vals" as_int_array hparams;
    a11 ← keyword "sparse_unique_vals" as_dict hparams;
    a12 ← keyword "sparse_offset" as_int_array hparams;
    a13 ← keyword "sparse_oov" as_int_array hparams;
    a14 ← keyword "multi_sparse_unique_vals" as_dict hparams;
    a15 ← keyword "multi_sparse_combine_info" as_info hparams;
    Ok (mkArgs (mjoin cnm) a2 a3 a4 a5 a6 a7 a8 a9 a10 a11 a12 a13 a14 a15)
  else Raise TypeError.

Definition load (path model_name : string) (w : World) : outcome DataInfo :=
  if negb (path_exists w path) then
    Raise (OSError ("file folder " +:+ path +:+ " doesn't exists..."))
  else
    let name_mapping_path :=
      path_join path (model_name +:+ "_data_info_name_mapping.json") in
    hparams ← match files w !! name_mapping_path with
              | None => Ok []
              | Some (JsonFile m) => Ok [("col_name_mapping", VMapping m)]
              | Some (NpzFile _) => Raise (ValueError "Expecting value")
              end;
    let other_path := path_join path (model_name +:+ "_data_info.npz") in
    info ← match files w !! other_path with
           | Some (NpzFile info) => Ok info
           | Some (JsonFile _) => Raise (ValueError "Cannot load file")
           | None => Raise (OSError "No such file or directory")
           end;
    hparams ← load_args hparams info;
    args ← bind_kwargs hparams;
    __init__ args.

(** ** [CfBase]: the neighbourhood collaborative-filtering base class *)

(** What the two diagnostics print; the colour is dropped. *)
Inductive Event : Type :=
| NoNeighborWarning (user item : Z)
| NoRecommendationWarning (user : Z).

#[global] Instance Event_eq_dec : EqDecision Event.
Proof. solve_decision. Defined.

(** The attributes that the methods below read or write.  [default_pred],
    the bounds and [model_name] are set by the [Base] constructor;
    [random_state] is the state of the [random] module, a tape of draws. *)
Record CfBase : Type := mkCfBase {
  task : string;
  data_info : DataInfo;
  cf_type : string;
  k_sim : nat;
  default_pred : Qc;
  lower_bound : Qc;
  upper_bound : Qc;
  model_name : string;
  print_count : nat;
  stdout : list Event;
  random_state : list nat
}.

(** [self.print_count += 1] *)
Definition incr_print_count : M CfBase unit :=
  modify (fun self =>
    mkCfBase (task self) (data_info self) (cf_type self) (k_sim self)
      (default_pred self) (lower_bound self) (upper_bound self)
      (model_name self) (print_count self + 1) (stdout self) (random_state self)).

Definition print_event (e : Event) : M CfBase unit :=
  modify (fun self =>
    mkCfBase (task self) (data_info self) (cf_type self) (k_sim self)
      (default_pred self) (lower_bound self) (upper_bound self)
      (model_name self) (print_count self) (stdout self ++ [e]) (random_state self)).

Definition put_random_state (tape : list nat) : M CfBase unit :=
  modify (fun self =>
    mkCfBase (task self) (data_info self) (cf_type self) (k_sim self)
      (default_pred self) (lower_bound self) (upper_bound self)
      (model_name self) (print_count self) (stdout self) tape).

(** The state of a model as [__init__] leaves it: [print_count = 0]. *)
Definition fresh (self : CfBase) : Prop := print_count self = 0%nat.

(** [sorted(pairs, key=itemgetter(1), reverse=True)]: a stable sort, so
    pairs of equal similarity keep their order. *)
Fixpoint insert_desc (x : Qc * Qc) (l : list (Qc * Qc)) : list (Qc * Qc) :=
  match l with
  | [] => [x]
  | y :: l' =>
      if decide (y.2 < x.2)%Qc then x :: y :: l' else y :: insert_desc x l'
  end.

Definition sorted_desc (l : list (Qc * Qc)) : list (Qc * Qc) :=
  foldl (fun acc x => insert_desc x acc) [] l.

(** [itertools.takewhile] *)
Fixpoint takewhile {A} (p : A -> bool) (l : list A) : list A :=
  match l with
  | [] => []
  | x :: l' => if p x then x :: takewhile p l' else []
  end.

(** [np.average(labels, weights=w)] *)
Definition np_average (labels weights : list Qc) : Qc :=
  (Qc_sum (zip_with Qcmult labels weights) / Qc_sum weights)%Qc.

(** [np.clip] *)
Definition np_clip (x lo hi : Qc) : Qc :=
  let y := if decide (x < lo)%Qc then lo else x in
  if decide (hi < y)%Qc then hi else y.

(** No common interaction, or no positive similarity among the common ones:
    the guard of the first branch of [compute_pred]. *)
Definition no_neighbor (common_size : nat) (common_sims : list Qc) : bool :=
  bool_decide (common_size = 0%nat)
  || forallb (fun s => bool_decide (s <= 0)%Qc) common_sims.

Definition compute_pred (user item : Z) (common_size : nat)
    (common_sims common_labels : list Qc) : M CfBase (option Qc) :=
  if no_neighbor common_size common_sims then
    incr_print_count;;
    self ← get;
    (if decide (print_count self < 7)%nat
     then print_event (NoNeighborWarning user item)
     else mret tt);;
    mret (Some (default_pred self))
  else
    self ← get;
    let neighbors :=
      take (k_sim self)
           (takewhile (fun x : Qc * Qc => bool_decide (0 < x.2)%Qc)
                      (sorted_desc (zip common_labels common_sims))) in
    match neighbors with
    | [] => raise (ValueError "not enough values to unpack")
    | _ :: _ =>
        let k_neighbor_labels := neighbors.*1 in
        let k_neighbor_sims := neighbors.*2 in
        if decide (task self = "rating") then
          let total := Qc_sum k_neighbor_sims in
          let sims_distribution := (fun s => (s / total)%Qc) <$> k_neighbor_sims in
          let weighted_pred := np_average k_neighbor_labels sims_distribution in
          mret (Some (np_clip weighted_pred (lower_bound self) (upper_bound self)))
        else if decide (task self = "ranking") then
          mret (Some (Qc_mean k_neighbor_sims))
        else mret None
    end.

(** Modelled from the spec: [filter_items] of [libreco.recommendation] is
    not among the sources.  Per the spec ([recommend]) it "filters out items
    in the user's consumption set", from the candidate ids and, position by
    position, from their scores. *)
Definition filter_items (ids : list Z) (preds : list Qc) (items : list Z)
  : list Z * list Qc :=
  (filter (fun i => i ∉ items) ids,
   (filter (fun ip : Z * Qc => ip.1 ∉ items) (zip ids preds)).*2).

(** Modelled from the spec: [popular_recommendations] of
    [libreco.recommendation] is not among the sources.  Per the spec it is
    "the global popularity list": the first [n_rec] of [popular_items], which
    [set_popular_items] stores as external ids, expressed as inner ids when
    [inner_id] is set. *)
Definition popular_recommendations (data_info : DataInfo) (inner_id : bool)
    (n_rec : nat) : outcome (list Z) :=
  match popular_items data_info with
  | None => Raise TypeError
  | Some popular =>
      if inner_id then
        i2i ← value_of item2id data_info;
        mapO (fun i => match i2i !! i with
                       | Some j => Ok j
                       | None => Raise (KeyError "item")
                       end) (take n_rec popular)
      else Ok (take n_rec popular)
  end.

(** [np.argsort]: the positions in ascending order of score; equal scores
    keep their order in this model. *)
Fixpoint insert_asc (x : nat * Qc) (l : list (nat * Qc)) : list (nat * Qc) :=
  match l with
  | [] => [x]
  | y :: l' =>
      if decide (x.2 < y.2)%Qc then x :: y :: l' else y :: insert_asc x l'
  end.

Definition argsort (preds : list Qc) : list nat :=
  (foldl (fun acc x => insert_asc x acc) [] (enumerate preds)).*1.

(** [random.sample(pool, k)] for [k <= len(pool)], as CPython selects from
    a pool: draw a position below the current pool size, take that element,
    move the last one into its place.  A draw is the next value of the tape
    reduced below the bound. *)
Fixpoint random_sample (pool : list Z) (k : nat) (tape : list nat)
  : list Z * list nat :=
  match k with
  | O => ([], tape)
  | S k' =>
      let n := length pool in
      let j := (hd 0 tape `mod` n)%nat in
      match pool !! j, list.last pool with
      | Some x, Some y =>
          let rest := random_sample (take (n - 1) (<[j := y]> pool)) k' (tl tape) in
          (x :: rest.1, rest.2)
      | _, _ => ([], tape)
      end
  end.

Definition rank_recommendations (user : Z) (ids : list Z) (preds : list Qc)
    (n_rec : nat) (consumed : list Z) (filter_consumed random_rec : bool)
  : M CfBase (list Z) :=
  let filtered :=
    if filter_consumed then filter_items ids preds consumed else (ids, preds) in
  let ids := filtered.1 in
  let preds := filtered.2 in
  if decide (length ids = 0)%nat then
    incr_print_count;;
    self ← get;
    (if decide (print_count self < 11)%nat
     then print_event (NoRecommendationWarning user)
     else mret tt);;
    lift (popular_recommendations (data_info self) true n_rec)
  else if random_rec && bool_decide (n_rec < length ids)%nat then
    self ← get;
    let drawn := random_sample ids n_rec (random_state self) in
    put_random_state drawn.2;;
    mret drawn.1
  else
    let indices := reverse (argsort preds) in
    picked ← lift (np_take ids (Z.of_nat <$> indices));
    mret (take n_rec picked).

(** An id "unknown to the index": an external id that the id mapping does
    not hold, or, with [inner_id], an integer outside [[0, n_entities)].
    [resolve] gives the inner id of a known id. *)
Definition resolve (to_id : M DataInfo (gmap Z Z)) (n_entities : M DataInfo nat)
    (data_info : DataInfo) (inner_id : bool) : outcome (Z -> option Z) :=
  if inner_id then
    n ← value_of n_entities data_info;
    Ok (fun x => if decide (0 <= x < Z.of_nat n) then Some x else None)
  else
    d ← value_of to_id data_info;
    Ok (fun x => d !! x).

(** Modelled from the spec: [check_unknown_user] of [libreco.utils.validate]
    is not among the sources.  Per the spec (cold-start policy) an id "not
    present in IdentifierIndex is unknown"; the helper returns the inner ids
    of the known users and, apart, the unknown users as supplied. *)
Definition check_unknown_user (data_info : DataInfo) (user : list Z)
    (inner_id : bool) : outcome (list Z * list Z) :=
  known ← resolve user2id n_users data_info inner_id;
  Ok (omap known user, filter (fun u => known u = None) user).

(** Modelled from the spec: [construct_rec] of [libreco.recommendation] is
    not among the sources.  [recommend_one] returns inner ids (comment in
    [cf_base.py]); the result is keyed by user and, unless [inner_id] is
    set, goes back to external ids through the inverse mappings of the
    spec's IdentifierIndex. *)
Definition construct_rec (data_info : DataInfo) (user_ids : list Z)
    (computed_recs : list (list Z)) (inner_id : bool)
  : outcome (gmap Z (list Z)) :=
  i2u ← value_of id2user data_info;
  i2i ← value_of id2item data_info;
  recs ← mapO (fun ur : Z * list Z =>
                 if inner_id then Ok ur
                 else
                   match i2u !! ur.1 with
                   | None => Raise (KeyError "user")
                   | Some u =>
                       items ← mapO (fun ri => match i2i !! ri with
                                               | Some i => Ok i
                                               | None => Raise (KeyError "item")
                                               end) ur.2;
                       Ok (u, items)
                   end) (zip user_ids computed_recs);
  Ok (py_dict recs).

(** Modelled from the spec: [convert_id] of [libreco.utils.validate] is not
    among the sources.  External ids are resolved through the index; a miss
    resolves to the oov position [n_entities], "used whenever a lookup
    misses". *)
Definition convert_id (data_info : DataInfo) (user item : list Z)
    (inner_id : bool) : outcome (list Z * list Z) :=
  if inner_id then Ok (user, item)
  else
    u2i ← value_of user2id data_info;
    i2i ← value_of item2id data_info;
    nu ← value_of n_users data_info;
    ni ← value_of n_items data_info;
    Ok ((fun u => default (Z.of_nat nu) (u2i !! u)) <$> user,
        (fun i => default (Z.of_nat ni) (i2i !! i)) <$> item).

(** Modelled from the spec: [check_unknown] of [libreco.utils.validate] is
    not among the sources.  A (user, item) pair is unknown when either inner
    id lies outside its dense range; the helper counts the unknown pairs and
    sends both ids of such a pair to the oov positions. *)
Definition check_unknown (data_info : DataInfo) (user item : list Z)
  : outcome (nat * list nat * list Z * list Z) :=
  nu ← value_of n_users data_info;
  ni ← value_of n_items data_info;
  let unknown (ui : Z * Z) : bool :=
    negb (bool_decide (0 <= ui.1 < Z.of_nat nu)
          && bool_decide (0 <= ui.2 < Z.of_nat ni)) in
  let pairs := zip user item in
  let unknown_index := (filter (fun pu => unknown pu.2 = true) (enumerate pairs)).*1 in
  Ok (length unknown_index, unknown_index,
      (fun ui => if unknown ui then Z.of_nat nu else ui.1) <$> pairs,
      (fun ui => if unknown ui then Z.of_nat ni else ui.2) <$> pairs).

(** The abstract methods, implemented by the user-based and the item-based
    model. *)
Class CfModel : Type := {
  compute_top_k : M CfBase unit;
  recommend_one : Z -> nat -> bool -> bool -> M CfBase (list Z)
}.

Section Recommend.
Context `{CfModel}.

Definition pre_predict_check (user item : list Z) (inner_id : bool)
    (cold_start : string) : M CfBase (list Z * list Z) :=
  self ← get;
  converted ← lift (convert_id (data_info self) user item inner_id);
  checked ← lift (check_unknown (data_info self) converted.1 converted.2);
  let '(unknown_num, _, user_arr, item_arr) := checked in
  if bool_decide (0 < unknown_num)%nat && bool_decide (cold_start ≠ "popular")
  then raise (ValueError (model_name self +:+ " only supports popular strategy"))
  else mret (user_arr, item_arr).

Definition recommend_user (user : list Z) (n_rec : nat) (cold_start : string)
    (inner_id filter_consumed random_rec : bool)
  : M CfBase (gmap Z (list Z)) :=
  self ← get;
  checked ← lift (check_unknown_user (data_info self) user inner_id);
  let user_ids := checked.1 in
  let unknown_users := checked.2 in
  result_recs ←
    match unknown_users with
    | [] => mret ∅
    | _ :: _ =>
        if decide (cold_start ≠ "popular") then
          raise (ValueError (model_name self
                             +:+ " only supports `popular` cold start strategy"))
        else
          recs ← mapM_list (fun u =>
                    self ← get;
                    rec ← lift (popular_recommendations (data_info self)
                                                        inner_id n_rec);
                    mret (u, rec)) unknown_users;
          mret (py_dict recs)
    end;
  match user_ids with
  | [] => mret result_recs
  | _ :: _ =>
      computed_recs ← mapM_list (fun u =>
                        recommend_one u n_rec filter_consumed random_rec) user_ids;
      self ← get;
      user_recs ← lift (construct_rec (data_info self) user_ids computed_recs
                                      inner_id);
      (* result_recs.update(user_recs) *)
      mret (user_recs ∪ result_recs)
  end.
End Recommend.

(** ** Sequences of calls on one model instance *)

Inductive Call : Type :=
| PredCall (user item : Z) (common_size : nat) (common_sims common_labels : list Qc)
| RankCall (user : Z) (ids : list Z) (preds : list Qc) (n_rec : nat)
           (consumed : list Z) (filter_consumed random_rec : bool).

Inductive Result : Type :=
| Pred (p : option Qc)
| Recs (ids : list Z).

Definition run_call (c : Call) : M CfBase Result :=
  match c with
  | PredCall user item common_size common_sims common_labels =>
      p ← compute_pred user item common_size common_sims common_labels;
      mret (Pred p)
  | RankCall user ids preds n_rec consumed filter_consumed random_rec =>
      r ← rank_recommendations user ids preds n_rec consumed filter_consumed
                               random_rec;
      mret (Recs r)
  end.

(** The calls are made one after the other on the same object; an exception
    does not end the sequence (the caller may catch it). *)
Fixpoint run_calls (calls : list Call) (self : CfBase)
  : list (outcome Result) * CfBase :=
  match calls with
  | [] => ([], self)
  | c :: calls' =>
      let r := run_call c self in
      let rest := run_calls calls' r.2 in
      (r.1 :: rest.1, rest.2)
  end.

(** The predictions of a call sequence that find no qualifying neighbour,
    each with the warning it may print. *)
Definition occurrence (c : Call) : option Event :=
  match c with
  | PredCall user item common_size common_sims _ =>
      if no_neighbor common_size common_sims
      then Some (NoNeighborWarning user item) else None
  | RankCall _ _ _ _ _ _ _ => None
  end.

Definition is_pred_call (c : Call) : bool :=
  match c with PredCall _ _ _ _ _ => true | _ => false end.

Definition is_neighbor_warning (e : Event) : bool :=
  match e with NoNeighborWarning _ _ => true | _ => false end.

(** ** Vocabulary of the statements about cold start *)

(** The index answers: its four identifier properties return. *)
Definition trained (data_info : DataInfo) : Prop :=
  exists nu ni u2i i2i,
    value_of n_users data_info = Ok nu /\ value_of n_items data_info = Ok ni
    /\ value_of user2id data_info = Ok u2i /\ value_of item2id data_info = Ok i2i.

Definition unknown_user (data_info : DataInfo) (inner_id : bool) (u : Z) : Prop :=
  exists known, resolve user2id n_users data_info inner_id = Ok known
                /\ known u = None.

Definition unknown_item (data_info : DataInfo) (inner_id : bool) (i : Z) : Prop :=
  exists known, resolve item2id n_items data_info inner_id = Ok known
                /\ known i = None.

Definition outcome_map {A B} (f : A -> B) (o : outcome A) : outcome B :=
  match o with
  | Ok a => Ok (f a)
  | Raise e => Raise e
  end.

(** An implementation of the abstract methods for the examples: the
    candidates are all items in index order, scored alike. *)
Definition example_impl : CfModel :=
  {| compute_top_k := mret tt;
     recommend_one := fun u n_rec filter_consumed random_rec =>
       self ← get;
       rank_recommendations u [0; 1] [1%Qc; 1%Qc] n_rec
         (default [] (user_consumed (data_info self) !! u))
         filter_consumed random_rec |}.

(** ** Frame conditions

    [unchanged keep m]: running [m] leaves the observation [keep] of the
    state as it was, whether [m] returns or raises.  [ignores keep put]: the
    observation does not look at the attribute that [put] assigns. *)
Definition unchanged {S A T} (keep : S -> T) (m : M S A) : Prop :=
  forall s, keep (m s).2 = keep s.

Definition ignores {S T V} (keep : S -> T) (put : V -> S -> S) : Prop :=
  forall v s, keep (put v s) = keep s.

(** ** Vocabulary of the statements about the index

    The cached properties agree with the unique-value arrays: what every
    method of the class maintains by calling [reset_property] before it
    rebinds an array. *)
Definition cache_coherent (st : DataInfo) : Prop :=
  (forall n, _n_users (props st) = Some n ->
             exists vals, user_unique_vals st = Some vals /\ n = length vals)
  /\ (forall n, _n_items (props st) = Some n ->
                exists vals, item_unique_vals st = Some vals /\ n = length vals)
  /\ (forall d, _user2id (props st) = Some d ->
                exists vals, user_unique_vals st = Some vals
                             /\ d = py_dict (zip vals (py_range (length vals))))
  /\ (forall d, _item2id (props st) = Some d ->
                exists vals, item_unique_vals st = Some vals
                             /\ d = py_dict (zip vals (py_range (length vals)))).

(** The spec's words for [expand]: the novel ids "in the order encountered". *)
Fixpoint first_seen (seen incoming : list Z) : list Z :=
  match incoming with
  | [] => []
  | x :: incoming' =>
      if decide (x ∈ seen) then first_seen seen incoming'
      else x :: first_seen (x :: seen) incoming'
  end.

Definition novel_in_order (incoming known : list Z) : list Z :=
  first_seen known incoming.

(** The statement of C3 as written, for the user ids. *)
Definition appends_in_encounter_order : Prop :=
  forall st data users known,
    (expand_sparse_unique_vals_and_matrix data st).1 = Ok tt ->
    frame_attr data "user" = Ok (IntCol users) ->
    user_unique_vals st = Some known ->
    user_unique_vals (expand_sparse_unique_vals_and_matrix data st).2
      = Some (known ++ novel_in_order users known).

(** ** Vocabulary of the statements about the unique feature matrices *)

Inductive UniqueMatrix : Type := UserSparse | UserDense | ItemSparse | ItemDense.

(** A row of a sparse or of a dense unique matrix. *)
Inductive Row : Type :=
| SparseRow (r : list Z)
| DenseRow (r : list Qc).

Definition rows_of (w : UniqueMatrix) (st : DataInfo) : option (list Row) :=
  match w with
  | UserSparse => (fun m => SparseRow <$> mrows m) <$> user_sparse_unique st
  | UserDense => (fun m => DenseRow <$> mrows m) <$> user_dense_unique st
  | ItemSparse => (fun m => SparseRow <$> mrows m) <$> item_sparse_unique st
  | ItemDense => (fun m => DenseRow <$> mrows m) <$> item_dense_unique st
  end.

Definition width_of (w : UniqueMatrix) (st : DataInfo) : option nat :=
  match w with
  | UserSparse => ncols <$> user_sparse_unique st
  | UserDense => ncols <$> user_dense_unique st
  | ItemSparse => ncols <$> item_sparse_unique st
  | ItemDense => ncols <$> item_dense_unique st
  end.

(** A row of [np.zeros]. *)
Definition zero_row (w : UniqueMatrix) (k : nat) : Row :=
  match w with
  | UserSparse | ItemSparse => SparseRow (replicate k 0)
  | UserDense | ItemDense => DenseRow (replicate k 0%Qc)
  end.

Definition row_width (r : Row) : nat :=
  match r with
  | SparseRow r => length r
  | DenseRow r => length r
  end.

(** The entities that the rows of a matrix stand for, and their count. *)
Definition entities_of (w : UniqueMatrix) (st : DataInfo) : option (list Z) :=
  match w with
  | UserSparse | UserDense => user_unique_vals st
  | ItemSparse | ItemDense => item_unique_vals st
  end.

Definition n_entities_of (w : UniqueMatrix) : M DataInfo nat :=
  match w with
  | UserSparse | UserDense => n_users
  | ItemSparse | ItemDense => n_items
  end.

#[global] Instance UniqueMatrix_eq_dec : EqDecision UniqueMatrix.
Proof. solve_decision. Defined.

(** The [if] block of [add_oov] for a matrix; [add_oov] runs the four of
    them in the order user sparse, item sparse, user dense, item dense. *)
Definition oov_block (w : UniqueMatrix) : M DataInfo unit :=
  match w with
  | UserSparse =>
      add_oov_block user_sparse_unique rebind_user_sparse_unique n_users
        (fun _ => sparse_oov_row user_sparse_col)
  | ItemSparse =>
      add_oov_block item_sparse_unique rebind_item_sparse_unique n_items
        (fun _ => sparse_oov_row item_sparse_col)
  | UserDense =>
      add_oov_block user_dense_unique rebind_user_dense_unique n_users
        (fun m => mret (column_means m))
  | ItemDense =>
      add_oov_block item_dense_unique rebind_item_dense_unique n_items
        (fun m => mret (column_means m))
  end.

Definition is_user_matrix (w : UniqueMatrix) : bool :=
  match w with UserSparse | UserDense => true | _ => false end.

(** The statement of C2 as written: every unique matrix that is not [None]
    has [n_entities + 1] rows, and growing the index keeps it so. *)
Definition oov_row_invariant (st : DataInfo) : Prop :=
  forall w rows n,
    rows_of w st = Some rows -> value_of (n_entities_of w) st = Ok n ->
    length rows = S n.

Definition growth_keeps_oov_row : Prop :=
  forall st data,
    oov_row_invariant st ->
    (expand_sparse_unique_vals_and_matrix data st).1 = Ok tt ->
    oov_row_invariant (expand_sparse_unique_vals_and_matrix data st).2.

(** ** Vocabulary of the statement about a repeated expansion *)

(** What C8 says a second call leaves unchanged: the unique-value arrays, the
    sparse-category dictionaries with their index maps, and the unique
    feature matrices. *)
Definition expand_fields (st : DataInfo) :=
  (user_unique_vals st, item_unique_vals st,
   sparse_unique_vals st, sparse_unique_idxs st,
   multi_sparse_unique_vals st, multi_sparse_unique_idxs st,
   user_sparse_unique st, user_dense_unique st,
   item_sparse_unique st, item_dense_unique st).

(** The dictionary of kind [k] knows every value of column [col] of the
    incoming data. *)
Definition covered (data : Frame) (k : SparseKind) (col : string) (st : DataInfo)
  : Prop :=
  exists d vals values,
    unique_dicts_of k st = Some d
    /\ dict_get col d = Some vals
    /\ frame_get data col ≫= int_values = Ok values
    /\ forall x, x ∈ values -> x ∈ vals.

(** Every key of the dictionary of kind [k] is covered. *)
Definition all_covered (data : Frame) (k : SparseKind) (st : DataInfo) : Prop :=
  forall d c, unique_dicts_of k st = Some d -> c ∈ d.*1 -> covered data k c st.

(** The state that a call which returns leaves behind: nothing in the data
    is novel any more. *)
Definition absorbed (data : Frame) (st : DataInfo) : Prop :=
  (exists users known,
      frame_attr data "user" = Ok (IntCol users)
      /\ user_unique_vals st = Some known /\ setdiff1d users known = [])
  /\ (exists items known,
        frame_attr data "item" = Ok (IntCol items)
        /\ item_unique_vals st = Some known /\ setdiff1d items known = [])
  /\ all_covered data Single st
  /\ all_covered data Multi st.

(** The keys of a dictionary of the index, if it has the dictionary. *)
Definition keys_of (k : SparseKind) (st : DataInfo) : option (list string) :=
  (fun d : list (string * list Z) => d.*1) <$> unique_dicts_of k st.

(** ** Vocabulary of the statement about feature assignment *)

(** The column names of a family, in matrix column order. *)
Definition column_names (family : M DataInfo Feature) (st : DataInfo) : list string :=
  match value_of family st with
  | Ok col_info => name col_info
  | Raise _ => []
  end.

(** What the assignment loop over [data] may write: a column present in the
    frame, at a row that one of the ids of the frame addresses. *)
Definition may_write (data : Frame) (id_col : string) (names : list string)
    (n r c : nat) : Prop :=
  (exists nm, names !! c = Some nm /\ nm ∈ frame_columns data)
  /\ (exists ids i, frame_get data id_col ≫= int_values = Ok ids
                   /\ i ∈ ids /\ wrap_index n i = Ok r).

(** Entry [(r, c)] of a matrix of [n] rows may be overwritten by an
    assignment of [data] in mode [mode] started in state [st]: column [c]
    has a name that is a column of the incoming frame, and row [r] is
    addressed by one of the incoming ids as [check_oov] resolves them. *)
Definition overwritten `{FeatureHelpers} (st : DataInfo) (names : list string)
    (data : Frame) (mode : string) (n r c : nat) : Prop :=
  (exists nm, names !! c = Some nm /\ nm ∈ frame_columns data)
  /\ (exists data' ids i,
        check_oov st data mode = Ok data'
        /\ frame_get data' mode ≫= int_values = Ok ids
        /\ i ∈ ids /\ wrap_index n i = Ok r).

(** The matrix keeps its shape and every entry outside [P]. *)
Definition kept_outside {A} (P : nat -> nat -> nat -> Prop)
    (before after : option (Matrix A)) : Prop :=
  match before, after with
  | None, None => True
  | Some m, Some m' =>
      ncols m' = ncols m /\ nrows m' = nrows m
      /\ forall r c, ~ P (nrows m) r c -> entry m' r c = entry m r c
  | _, _ => False
  end.

(** ** Vocabulary of the statement about persistence *)

(** What C4 compares: the two id mappings, the four unique feature matrices
    and the two consumption indices. *)
Definition observed (st : DataInfo) :=
  (value_of user2id st, value_of item2id st,
   user_sparse_unique st, user_dense_unique st,
   item_sparse_unique st, item_dense_unique st,
   user_consumed st, item_consumed st).

(** [save] followed by [load] with the same path and model name returns an
    object whose observed part is that of the saved one. *)
Definition save_load_reproduces (st : DataInfo) (path model_name : string)
    (w : World) : Prop :=
  exists st', load path model_name (save st path model_name w).2 = Ok st'
              /\ observed st' = observed st.

(** The statement of C4 as written. *)
Definition round_trip_from_every_state : Prop :=
  forall st path model_name w, save_load_reproduces st path model_name w.

(** The constructor arguments without the two dictionaries of unique sparse
    values, which the archive stores one key per column. *)
Definition plain_args (a : Args) :=
  (arg_col_name_mapping a, arg_interaction_data a,
   arg_user_sparse_unique a, arg_user_dense_unique a,
   arg_item_sparse_unique a, arg_item_dense_unique a,
   arg_user_indices a, arg_item_indices a,
   arg_user_unique_vals a, arg_item_unique_vals a,
   arg_sparse_offset a, arg_sparse_oov a, arg_multi_sparse_combine_info a).

(** The attributes that hold the dictionaries and the stored arguments. *)
Record Dicts : Type := mkDicts {
  dict_vals : option (list (string * list Z));
  dict_idxs : option (list (string * gmap Z Z));
  dict_multi_vals : option (list (string * list Z));
  dict_multi_idxs : option (list (string * gmap Z Z));
  dict_args : Args
}.

Definition with_dicts (d : Dicts) (st : DataInfo) : DataInfo :=
  put_sparse_unique_vals (dict_vals d)
    (put_sparse_unique_idxs (dict_idxs d)
       (put_multi_sparse_unique_vals (dict_multi_vals d)
          (put_multi_sparse_unique_idxs (dict_multi_idxs d)
             (put_all_args (dict_args d) st)))).

(** A computation that neither reads nor writes what [put] sets. *)
Definition commutes {S A V} (put : V -> S -> S) (m : M S A) : Prop :=
  forall v s, m (put v s) = ((m s).1, put v (m s).2).

(** The parameters that [save] stores under their own name. *)
Definition plain (k : string) : Prop :=
  k ∈ parameters /\ k <> "sparse_unique_vals" /\ k <> "multi_sparse_unique_vals".

(** An entry of the archive that [save] writes. *)
Definition archived (av : string * Value) : Prop :=
  (String.prefix "unique_" av.1 = true /\ exists a, av.2 = VIntArray a)
  \/ (String.prefix "munique_" av.1 = true /\ exists a, av.2 = VIntArray a)
  \/ (plain av.1 /\ av.1 <> "col_name_mapping"
      /\ (av.1 = "interaction_data" -> exists rows, av.2 = VInteractions rows)
      /\ (av.1 = "multi_sparse_combine_info" -> exists i, av.2 = VInfo i)).

(** The keyword dictionary while [load] fills it. *)
Definition loading (hparams : list (string * Value)) : Prop :=
  Forall (fun kv => kv.1 ∈ parameters) hparams
  /\ (forall v, dict_get "sparse_unique_vals" hparams = Some v ->
                 exists d, v = VDict d)
  /\ (forall v, dict_get "multi_sparse_unique_vals" hparams = Some v ->
                 exists d, v = VDict d).

(** ** The statement of C1 as written

    With [filter_consumed = True], whatever list comes back (the ranked
    candidates or the fallback) holds no consumed item. *)
Definition never_recommends_consumed : Prop :=
  forall self user ids preds n_rec consumed random_rec recs,
    (rank_recommendations user ids preds n_rec consumed true random_rec self).1
      = Ok recs ->
    forall i, i ∈ recs -> i ∉ consumed.

(** ** A small instance

    Two users (external ids 1 and 2) and two items (10 and 20); user 1
    consumed item 10, user 2 consumed both. *)

Definition example_args : Args :=
  {| arg_col_name_mapping := None;
     arg_interaction_data :=
       Some [mkInteraction 1 10 1%Qc; mkInteraction 2 10 1%Qc;
             mkInteraction 2 20 1%Qc];
     arg_user_sparse_unique := None;
     arg_user_dense_unique := None;
     arg_item_sparse_unique := None;
     arg_item_dense_unique := None;
     arg_user_indices := Some [0; 1; 1];
     arg_item_indices := Some [0; 0; 1];
     arg_user_unique_vals := Some [1; 2];
     arg_item_unique_vals := Some [10; 20];
     arg_sparse_unique_vals := None;
     arg_sparse_offset := None;
     arg_sparse_oov := None;
     arg_multi_sparse_unique_vals := None;
     arg_multi_sparse_combine_info := None |}.

(** The object that [__init__ example_args] constructs. *)
Definition example_data_info : DataInfo :=
  put_popular_items (Some [10; 20])
    (initial_state example_args (interaction_consumed [0; 1; 1] [0; 0; 1])).

(** The same index with one sparse user feature, "sex", of two known
    categories (codes 0 and 1, oov code 2). *)
Definition example_feat_args : Args :=
  {| arg_col_name_mapping :=
       Some [("sparse_col", [("sex", EInt 0)]);
             ("dense_col", []);
             ("user_sparse_col", [("sex", EInt 0)]);
             ("user_dense_col", []);
             ("item_sparse_col", []);
             ("item_dense_col", [])];
     arg_interaction_data := arg_interaction_data example_args;
     arg_user_sparse_unique := Some (mkMatrix 1 [[0]; [1]]);
     arg_user_dense_unique := None;
     arg_item_sparse_unique := None;
     arg_item_dense_unique := None;
     arg_user_indices := Some [0; 1; 1];
     arg_item_indices := Some [0; 0; 1];
     arg_user_unique_vals := Some [1; 2];
     arg_item_unique_vals := Some [10; 20];
     arg_sparse_unique_vals := Some [("sex", [0; 1])];
     arg_sparse_offset := Some [0];
     arg_sparse_oov := Some [2];
     arg_multi_sparse_unique_vals := None;
     arg_multi_sparse_combine_info := None |}.

(** The object that [__init__ example_feat_args] constructs: [add_oov] has
    appended the oov row and cached [n_users]. *)
Definition example_feat_data_info : DataInfo :=
  put_popular_items (Some [10; 20])
    (put_props (set_n_users (Some 2%nat) no_cache)
       (rebind_user_sparse_unique (Some (mkMatrix 1 [[0]; [1]; [2]]))
          (initial_state example_feat_args
             (interaction_consumed [0; 1; 1] [0; 0; 1])))).

(** A new user, 3, of known sex. *)
Definition example_new_user : Frame :=
  [("user", IntCol [3]); ("item", IntCol [10]); ("sex", IntCol [1])].

(** The index with two sparse user features: "sex" (codes 0 and 1, oov 2)
    and "age" (codes 3 and 4, oov 5). *)
Definition example_profile_args : Args :=
  {| arg_col_name_mapping :=
       Some [("sparse_col", [("sex", EInt 0); ("age", EInt 1)]);
             ("dense_col", []);
             ("user_sparse_col", [("sex", EInt 0); ("age", EInt 1)]);
             ("user_dense_col", []);
             ("item_sparse_col", []);
             ("item_dense_col", [])];
     arg_interaction_data := arg_interaction_data example_args;
     arg_user_sparse_unique := Some (mkMatrix 2 [[0; 3]; [1; 4]]);
     arg_user_dense_unique := None;
     arg_item_sparse_unique := None;
     arg_item_dense_unique := None;
     arg_user_indices := Some [0; 1; 1];
     arg_item_indices := Some [0; 0; 1];
     arg_user_unique_vals := Some [1; 2];
     arg_item_unique_vals := Some [10; 20];
     arg_sparse_unique_vals := Some [("sex", [0; 1]); ("age", [20; 30])];
     arg_sparse_offset := Some [0; 3];
     arg_sparse_oov := Some [2; 5];
     arg_multi_sparse_unique_vals := None;
     arg_multi_sparse_combine_info := None |}.

Definition example_profile_data_info : DataInfo :=
  put_popular_items (Some [10; 20])
    (put_props (set_n_users (Some 2%nat) no_cache)
       (rebind_user_sparse_unique (Some (mkMatrix 2 [[0; 3]; [1; 4]; [2; 5]]))
          (initial_state example_profile_args
             (interaction_consumed [0; 1; 1] [0; 0; 1])))).

(** A partial update: the sex of user 2 and of the unknown user 7, and no
    "age" column. *)
Definition example_partial_update : Frame :=
  [("user", IntCol [2; 7]); ("sex", IntCol [0; 1])].

(** The index of [example_feat_args] once user 3 has joined, without a
    call of [store_args]. *)
Definition example_grown_data_info : DataInfo :=
  (expand_sparse_unique_vals_and_matrix example_new_user example_feat_data_info).2.

Definition empty_world : World := mkWorld ∅ ∅ [].

Definition example_model : CfBase :=
  {| task := "rating";
     data_info := example_data_info;
     cf_type := "item_cf";
     k_sim := 2;
     default_pred := Qc_of_Z 3;
     lower_bound := Qc_of_Z 1;
     upper_bound := Qc_of_Z 5;
     model_name := "ItemCF";
     print_count := 0;
     stdout := [];
     random_state := [] |}.

(** ** Vocabulary of further statements *)

(** The cached entity count that the [add_oov] block of a matrix compares
    the row count with. *)
Definition cached_entities (w : UniqueMatrix) (st : DataInfo) : option nat :=
  if is_user_matrix w then _n_users (props st) else _n_items (props st).

(** The [add_oov] block of [w] has nothing to do: there is no matrix, or the
    entity count is cached and differs from the row count. *)
Definition settled (w : UniqueMatrix) (st : DataInfo) : Prop :=
  forall rows, rows_of w st = Some rows ->
               exists n, cached_entities w st = Some n /\ length rows <> n.

(** The number of distinct users that interacted with an item: what
    [set_popular_items] counts. *)
Definition n_consumers (data : list Interaction) (i : Z) : nat :=
  length (filter (fun p : Z * Z => p.2 = i)
            (remove_dups ((fun r => (user r, item r)) <$> data))).

(** ** [DataInfo]: the interaction data in inner ids *)

(** [s.isnull().any()] on a mapped column: [None] when a value is missing. *)
Fixpoint all_present (xs : list (option Z)) : option (list Z) :=
  match xs with
  | [] => Some []
  | Some x :: xs' => (fun l => x :: l) <$> all_present xs'
  | None :: _ => None
  end.

(** [if s.isnull().any(): s.fillna(n_entities, inplace=True)] and the cast
    back to integers.  The fill is made in place on the column taken from
    the frame and reaches the frame, as in pandas before copy-on-write; the
    count is read only when a value is missing. *)
Definition fill_missing (xs : list (option Z)) (n_entities : M DataInfo nat)
  : M DataInfo (list Z) :=
  match all_present xs with
  | Some l => mret l
  | None => n ← n_entities; mret (default (Z.of_nat n) <$> xs)
  end.

(** [DataInfo.get_indexed_interaction]: [Series.map] with a dict leaves a
    missing value for a key that the dict does not hold. *)
Definition get_indexed_interaction : M DataInfo (list Interaction) :=
  st ← get;
  match interaction_data st with
  | None => raise (AttributeError "copy")
  | Some data =>
      u2i ← user2id;
      let users := (fun r => u2i !! user r) <$> data in
      i2i ← item2id;
      let items := (fun r => i2i !! item r) <$> data in
      users ← fill_missing users n_users;
      items ← fill_missing items n_items;
      mret (zip_with (fun ui r => mkInteraction ui.1 ui.2 (label r))
                     (zip users items) data)
  end.

(** ** Vocabulary of the statements about what [all_args] shares *)

(** [all_args] shows the two dictionaries of unique sparse values as the
    attributes have them. *)
Definition dicts_in_args (st : DataInfo) : Prop :=
  arg_sparse_unique_vals (all_args st) = sparse_unique_vals st
  /\ arg_multi_sparse_unique_vals (all_args st) = multi_sparse_unique_vals st.

(** [all_args] shows the four unique matrices as the attributes have them. *)
Definition matrices_in_args (st : DataInfo) : Prop :=
  arg_user_sparse_unique (all_args st) = user_sparse_unique st
  /\ arg_user_dense_unique (all_args st) = user_dense_unique st
  /\ arg_item_sparse_unique (all_args st) = item_sparse_unique st
  /\ arg_item_dense_unique (all_args st) = item_dense_unique st.

(** Every unique matrix is the array that [all_args] holds. *)
Definition shares_matrices (st : DataInfo) : Prop :=
  sharing st = all_shared /\ matrices_in_args st.

(** A new user, 3, whose sex is a category that the index has not seen. *)
Definition example_new_category : Frame :=
  [("user", IntCol [3]); ("item", IntCol [10]); ("sex", IntCol [7])].

(** * Verification *)

(** ** The monad *)

Arguments popular_recommendations : simpl never.
Arguments np_take : simpl never.

Ltac run_step :=
  unfold mbind, M_bind, mret, M_ret, get, modify, lift, raise, not_none; simpl.

Section Frame.
Context {S T : Type} (keep : S -> T).

Lemma unchanged_ret {A} (a : A) : unchanged keep (mret a).
Proof. by intros s. Qed.

Lemma unchanged_raise {A} (e : exn) : unchanged keep (raise e : M S A).
Proof. by intros s. Qed.

Lemma unchanged_lift {A} (o : outcome A) : unchanged keep (lift o).
Proof. by intros s. Qed.

Lemma unchanged_get : unchanged keep get.
Proof. by intros s. Qed.

Lemma unchanged_not_none {A} (x : option A) : unchanged keep (not_none x).
Proof. by destruct x; intros s. Qed.

Lemma unchanged_modify (f : S -> S) :
  (forall s, keep (f s) = keep s) -> unchanged keep (modify f).
Proof. intros Hf s. apply Hf. Qed.

Lemma unchanged_put {V} (put : V -> S -> S) (v : V) :
  ignores keep put -> unchanged keep (modify (put v)).
Proof. intros Hput s. apply Hput. Qed.

Lemma unchanged_bind {A B} (m : M S A) (f : A -> M S B) :
  unchanged keep m -> (forall a, unchanged keep (f a)) -> unchanged keep (m ≫= f).
Proof.
  intros Hm Hf s. unfold mbind, M_bind. specialize (Hm s).
  destruct (m s) as [[a | e] s']; simpl in *; [| done].
  by rewrite Hf.
Qed.

Lemma unchanged_for_each {A} (l : list A) (body : A -> M S unit) :
  (forall x, unchanged keep (body x)) -> unchanged keep (for_each l body).
Proof.
  intros Hbody. induction l as [| x l IH]; simpl.
  - apply unchanged_ret.
  - apply unchanged_bind; [apply Hbody | intros _; apply IH].
Qed.

Lemma unchanged_mapM_list {A B} (f : A -> M S B) (l : list A) :
  (forall x, unchanged keep (f x)) -> unchanged keep (mapM_list f l).
Proof.
  intros Hf. induction l as [| x l IH]; simpl.
  - apply unchanged_ret.
  - apply unchanged_bind; [apply Hf | intros y].
    apply unchanged_bind; [apply IH | intros ys; apply unchanged_ret].
Qed.
End Frame.

(** Breaks a frame goal down along the structure of the code. *)
Ltac frame_step :=
  first
    [ apply unchanged_ret | apply unchanged_raise | apply unchanged_lift
    | apply unchanged_get | apply unchanged_not_none
    | apply unchanged_bind; [| intros ?]
    | apply unchanged_for_each; intros ?
    | match goal with
      | |- unchanged _ (match ?x with _ => _ end) => destruct x
      | |- unchanged _ (if ?x then _ else _) => destruct x
      end ].

Ltac frame := repeat frame_step.

(** A setter against a field: by cases on the record, and on the sharing
    flag that a write into a matrix consults. *)
Create HintDb setters.
#[global] Hint Unfold write_user_sparse_unique write_user_dense_unique
  write_item_sparse_unique write_item_dense_unique
  rebind_user_sparse_unique rebind_user_dense_unique
  rebind_item_sparse_unique rebind_item_dense_unique
  write_sparse_unique_vals write_multi_sparse_unique_vals : setters.

Ltac setter_cases :=
  let v := fresh "v" in
  let s := fresh "s" in
  intros v s; destruct s; autounfold with setters; simpl;
  repeat match goal with
         | |- context [if ?b then _ else _] => destruct b; simpl
         end;
  done.

(** ** [compute_pred] *)

Lemma no_neighbor_spec common_size common_sims :
  no_neighbor common_size common_sims = true <->
  common_size = 0%nat \/ Forall (fun s => (s <= 0)%Qc) common_sims.
Proof.
  unfold no_neighbor. rewrite orb_true_iff, bool_decide_eq_true.
  rewrite forallb_forall, Forall_forall.
  split; (intros [Hz | Hall]; [by left | right]); intros s Hs.
  - rewrite list_elem_of_In in Hs. apply Hall in Hs.
    by apply bool_decide_eq_true in Hs.
  - apply bool_decide_eq_true, Hall. by rewrite list_elem_of_In.
Qed.

Lemma compute_pred_no_neighbor user item common_size common_sims common_labels self :
  no_neighbor common_size common_sims = true ->
  compute_pred user item common_size common_sims common_labels self =
    (Ok (Some (default_pred self)),
     mkCfBase (task self) (data_info self) (cf_type self) (k_sim self)
       (default_pred self) (lower_bound self) (upper_bound self)
       (model_name self) (print_count self + 1)
       (if decide (print_count self + 1 < 7)%nat
        then stdout self ++ [NoNeighborWarning user item] else stdout self)
       (random_state self)).
Proof.
  intros Hno. unfold compute_pred. rewrite Hno.
  unfold incr_print_count, print_event. run_step.
  destruct (decide (print_count self + 1 < 7)%nat); reflexivity.
Qed.

Lemma compute_pred_neighbors user item common_size common_sims common_labels self :
  no_neighbor common_size common_sims = false ->
  (compute_pred user item common_size common_sims common_labels self).2 = self.
Proof.
  intros Hno. unfold compute_pred. rewrite Hno. run_step.
  destruct (take _ _); [reflexivity |].
  repeat case_decide; reflexivity.
Qed.

Lemma rank_recommendations_counter user ids preds n_rec consumed fc rr self :
  let self' := (rank_recommendations user ids preds n_rec consumed fc rr self).2 in
  filter is_neighbor_warning (stdout self') = filter is_neighbor_warning (stdout self)
  /\ (print_count self <= print_count self')%nat
  /\ default_pred self' = default_pred self.
Proof.
  unfold rank_recommendations.
  destruct (decide (length _ = 0%nat)) as [Hempty | Hsome].
  - unfold incr_print_count, print_event. run_step.
    destruct (decide (print_count self + 1 < 11)%nat); simpl;
      rewrite ?filter_app; simpl; rewrite ?app_nil_r; repeat split; lia.
  - destruct (rr && _); unfold put_random_state; run_step.
    + repeat split; lia.
    + destruct (np_take _ _); simpl; repeat split; lia.
Qed.

Lemma bind_ret_state {S A B} (m : M S A) (f : A -> B) (s : S) :
  ((m ≫= fun a => mret (f a)) s).2 = (m s).2.
Proof. unfold mbind, M_bind. by destruct (m s) as [[a | e] s']. Qed.

Lemma bind_ret_value {S A B} (m : M S A) (f : A -> B) (s : S) :
  ((m ≫= fun a => mret (f a)) s).1 =
  match (m s).1 with Ok a => Ok (f a) | Raise e => Raise e end.
Proof. unfold mbind, M_bind. by destruct (m s) as [[a | e] s']. Qed.

Lemma run_call_state c self :
  (run_call c self).2 =
  match c with
  | PredCall user item common_size common_sims common_labels =>
      (compute_pred user item common_size common_sims common_labels self).2
  | RankCall user ids preds n_rec consumed fc rr =>
      (rank_recommendations user ids preds n_rec consumed fc rr self).2
  end.
Proof. destruct c; apply bind_ret_state. Qed.

Lemma run_calls_warnings calls : forall self,
  let self' := (run_calls calls self).2 in
  default_pred self' = default_pred self
  /\ exists k : nat,
      (k <= 6 - print_count self)%nat
      /\ filter is_neighbor_warning (stdout self') =
         filter is_neighbor_warning (stdout self) ++ take k (omap occurrence calls)
      /\ (forallb is_pred_call calls = true ->
          k = ((6 - print_count self) `min` length (omap occurrence calls))%nat
          /\ print_count self' = (print_count self + length (omap occurrence calls))%nat).
Proof.
  induction calls as [| c calls IH]; intros self; simpl.
  - split; [reflexivity |]. exists 0%nat. rewrite app_nil_r.
    repeat split; lia.
  - rewrite run_call_state.
    destruct c as [u i size sims labels | u ids preds n_rec consumed fc rr]; simpl.
    + destruct (no_neighbor size sims) eqn:Hno.
      * rewrite compute_pred_no_neighbor by done. simpl.
        destruct (decide (print_count self + 1 < 7)%nat) as [Hlt | Hge];
          match goal with
          | |- context [run_calls calls ?s] =>
              destruct (IH s) as (Hd & k & Hk & Hw & Hp)
          end; simpl in *; (split; [done |]).
        -- exists (S k). split; [lia |]. split.
           ++ rewrite Hw, filter_app. simpl. by rewrite <- app_assoc.
           ++ intros Hall. destruct (Hp Hall) as [-> ->].
              change (list_omap _ _ occurrence calls) with (omap occurrence calls).
              split; lia.
        -- exists 0%nat. assert (k = 0%nat) as -> by lia. split; [lia |]. split.
           ++ rewrite Hw. by rewrite !take_0.
           ++ intros Hall. destruct (Hp Hall) as [_ ->].
              change (list_omap _ _ occurrence calls) with (omap occurrence calls).
              split; lia.
      * rewrite compute_pred_neighbors by done. apply IH.
    + pose proof (rank_recommendations_counter u ids preds n_rec consumed fc rr self)
        as (Hw1 & Hp1 & Hd1).
      destruct (IH (rank_recommendations u ids preds n_rec consumed fc rr self).2)
        as (Hd & k & Hk & Hw & _).
      split; [congruence |]. exists k.
      split; [lia |]. split; [by rewrite Hw, Hw1 | done].
Qed.

Lemma run_call_default_pred c self :
  default_pred (run_call c self).2 = default_pred self.
Proof. apply (run_calls_warnings [c] self). Qed.

Lemma run_calls_default calls : forall self i user item common_size common_sims
    common_labels,
  calls !! i = Some (PredCall user item common_size common_sims common_labels) ->
  no_neighbor common_size common_sims = true ->
  (run_calls calls self).1 !! i = Some (Ok (Pred (Some (default_pred self)))).
Proof.
  induction calls as [| c calls IH]; intros self i u it size sims labels Hi Hno.
  - by rewrite lookup_nil in Hi.
  - destruct i as [| i]; simpl in *.
    + injection Hi as ->. unfold run_call. rewrite bind_ret_value.
      by rewrite compute_pred_no_neighbor.
    + rewrite (IH _ _ _ _ _ _ _ Hi Hno). by rewrite run_call_default_pred.
Qed.

(** C5.  On a model instance as constructed ([print_count = 0]) and over any
    sequence of [compute_pred] and [rank_recommendations] calls: every
    prediction with no qualifying neighbour (no common interaction, or only
    non-positive common similarities) returns exactly [default_pred]; the
    warnings printed for such predictions are those of the first [k]
    occurrences for some [k <= 6], hence never of a seventh or later one; and
    when the sequence consists of predictions only, they are exactly those
    of the first six occurrences. *)
Theorem compute_pred_default_rate_limited (self : CfBase) (calls : list Call) :
  fresh self ->
  let run := run_calls calls self in
  (forall i user item common_size common_sims common_labels,
      calls !! i = Some (PredCall user item common_size common_sims common_labels) ->
      common_size = 0%nat \/ Forall (fun s => (s <= 0)%Qc) common_sims ->
      run.1 !! i = Some (Ok (Pred (Some (default_pred self)))))
  /\ (exists k : nat,
        (k <= 6)%nat
        /\ filter is_neighbor_warning (stdout run.2) =
           filter is_neighbor_warning (stdout self) ++ take k (omap occurrence calls))
  /\ (forallb is_pred_call calls = true ->
      filter is_neighbor_warning (stdout run.2) =
      filter is_neighbor_warning (stdout self) ++ take 6 (omap occurrence calls)).
Proof.
  unfold fresh. intros Hfresh. split; [| split].
  - intros i u it size sims labels Hi Hno.
    apply (run_calls_default calls self i u it size sims labels Hi).
    by apply no_neighbor_spec.
  - destruct (run_calls_warnings calls self) as (_ & k & Hk & Hw & _).
    exists k. split; [lia | exact Hw].
  - intros Hpred.
    destruct (run_calls_warnings calls self) as (_ & k & Hk & Hw & Hp).
    destruct (Hp Hpred) as [-> _]. rewrite Hw, Hfresh. f_equal.
    rewrite Nat.sub_0_r. destruct (Nat.min_spec 6 (length (omap occurrence calls)))
      as [[_ ->] | [Hle ->]]; [done |].
    rewrite !take_ge by lia. reflexivity.
Qed.

(** Eight predictions without neighbours on the example model: each returns
    the default prediction, and six warnings are printed. *)
Lemma compute_pred_default_rate_limited_witness :
  let calls := replicate 8 (PredCall 0 1 0 [] []) in
  fresh example_model
  /\ (run_calls calls example_model).1 !! 7%nat
     = Some (Ok (Pred (Some (default_pred example_model))))
  /\ filter is_neighbor_warning (stdout (run_calls calls example_model).2)
     = replicate 6 (NoNeighborWarning 0 1).
Proof.
  intros calls.
  destruct (compute_pred_default_rate_limited example_model calls eq_refl)
    as (Hdefault & _ & Hsix).
  split; [reflexivity |]. split.
  - apply (Hdefault 7%nat 0 1 0%nat [] []); [reflexivity | by left].
  - apply (Hsix eq_refl).
Defined.

(** ** [recommend_user] and [pre_predict_check] *)

Section ColdStart.
Context `{CfModel}.

Lemma recommend_user_unknown_other_strategy self user n_rec cold_start
    inner_id filter_consumed random_rec u :
  u ∈ user ->
  unknown_user (data_info self) inner_id u ->
  cold_start <> "popular" ->
  recommend_user user n_rec cold_start inner_id filter_consumed random_rec self =
    (Raise (ValueError (model_name self
                        +:+ " only supports `popular` cold start strategy")),
     self).
Proof.
  intros Hu (known & Hres & Hunk) Hcold.
  unfold recommend_user, check_unknown_user. run_step. rewrite Hres. simpl.
  assert (u ∈ filter (fun u => known u = None) user) as Hin
    by (by apply list_elem_of_filter).
  destruct (filter _ user) as [| u' us]; [by apply not_elem_of_nil in Hin |].
  by destruct (decide (cold_start <> "popular")).
Qed.

Lemma resolve_inner to_id n_entities data_info known n :
  value_of n_entities data_info = Ok n ->
  resolve to_id n_entities data_info true = Ok known ->
  forall x, known x = None <-> ~ (0 <= x < Z.of_nat n).
Proof.
  unfold resolve. intros -> [= <-] x. simpl.
  destruct (decide (0 <= x < Z.of_nat n)); split; intros; try done; tauto.
Qed.

Lemma resolve_external to_id n_entities data_info known d :
  value_of to_id data_info = Ok d ->
  resolve to_id n_entities data_info false = Ok known ->
  forall x, known x = d !! x.
Proof. unfold resolve. by intros -> [= <-] x. Qed.

Lemma check_unknown_counts data_info user item nu ni p u i :
  value_of n_users data_info = Ok nu ->
  value_of n_items data_info = Ok ni ->
  user !! p = Some u -> item !! p = Some i ->
  ~ (0 <= u < Z.of_nat nu) \/ ~ (0 <= i < Z.of_nat ni) ->
  exists unknown_num unknown_index user_arr item_arr,
    check_unknown data_info user item =
      Ok (unknown_num, unknown_index, user_arr, item_arr)
    /\ (0 < unknown_num)%nat.
Proof.
  intros Hnu Hni Hu Hi Hout. unfold check_unknown. rewrite Hnu, Hni. simpl.
  eexists _, _, _, _. split; [reflexivity |].
  rewrite length_fmap.
  match goal with |- (0 < length ?l)%nat => assert ((p, (u, i)) ∈ l) as Hin end.
  { apply list_elem_of_filter. split.
    - simpl. apply negb_true_iff, andb_false_iff.
      rewrite !bool_decide_eq_false. tauto.
    - unfold enumerate. apply list_elem_of_lookup. exists p.
      apply lookup_zip_with_Some. exists p, (u, i). split; [done |].
      assert (zip user item !! p = Some (u, i)) as Hz.
      { apply lookup_zip_with_Some. by exists u, i. }
      split; [| done]. apply lookup_seq. split; [done |].
      by apply lookup_lt_Some in Hz. }
  destruct (filter _ _); [by apply not_elem_of_nil in Hin | simpl; lia].
Qed.

Lemma pre_predict_check_unknown_other_strategy self user item inner_id
    cold_start p u i :
  trained (data_info self) ->
  user !! p = Some u -> item !! p = Some i ->
  unknown_user (data_info self) inner_id u
  \/ unknown_item (data_info self) inner_id i ->
  cold_start <> "popular" ->
  pre_predict_check user item inner_id cold_start self =
    (Raise (ValueError (model_name self +:+ " only supports popular strategy")),
     self).
Proof.
  intros (nu & ni & u2i & i2i & Hnu & Hni & Hu2i & Hi2i) Hu Hi Hunk Hcold.
  assert (exists user' item' u' i',
             convert_id (data_info self) user item inner_id = Ok (user', item')
             /\ user' !! p = Some u' /\ item' !! p = Some i'
             /\ (~ (0 <= u' < Z.of_nat nu) \/ ~ (0 <= i' < Z.of_nat ni)))
    as (user' & item' & u' & i' & Hconv & Hu' & Hi' & Hout).
  { unfold convert_id. destruct inner_id.
    - exists user, item, u, i. repeat split; try done.
      destruct Hunk as [(known & Hres & Hk) | (known & Hres & Hk)].
      + left. by apply (resolve_inner _ _ _ _ _ Hnu Hres).
      + right. by apply (resolve_inner _ _ _ _ _ Hni Hres).
    - rewrite Hu2i, Hi2i, Hnu, Hni. simpl. eexists _, _, _, _.
      split; [reflexivity |]. rewrite !list_lookup_fmap, Hu, Hi. simpl.
      split; [reflexivity |]. split; [reflexivity |].
      destruct Hunk as [(known & Hres & Hk) | (known & Hres & Hk)].
      + left. rewrite (resolve_external _ _ _ _ _ Hu2i Hres) in Hk.
        rewrite Hk. simpl. lia.
      + right. rewrite (resolve_external _ _ _ _ _ Hi2i Hres) in Hk.
        rewrite Hk. simpl. lia. }
  destruct (check_unknown_counts _ _ _ _ _ _ _ _ Hnu Hni Hu' Hi' Hout)
    as (num & idx & ua & ia & Hchk & Hpos).
  unfold pre_predict_check. run_step. rewrite Hconv. simpl. rewrite Hchk.
  rewrite (bool_decide_eq_true_2 _ Hpos), (bool_decide_eq_true_2 _ Hcold).
  reflexivity.
Qed.

Lemma recommend_user_unknown_popular self u n_rec inner_id filter_consumed
    random_rec :
  unknown_user (data_info self) inner_id u ->
  recommend_user [u] n_rec "popular" inner_id filter_consumed random_rec self =
    (outcome_map (fun recs => {[u := recs]})
                 (popular_recommendations (data_info self) inner_id n_rec),
     self).
Proof.
  intros (known & Hres & Hunk).
  unfold recommend_user, check_unknown_user. run_step. rewrite Hres. simpl.
  rewrite Hunk. rewrite filter_cons_True by done. rewrite filter_nil.
  destruct (decide ("popular" <> "popular")) as [Hne | _]; [done |].
  simpl. unfold mbind, M_bind. simpl.
  by destruct (popular_recommendations (data_info self) inner_id n_rec).
Qed.

(** C6.  On a trained index, with a cold-start strategy other than
    "popular": [recommend_user] raises the [ValueError] that stands for
    UnsupportedStrategy as soon as one requested user is unknown, and
    [pre_predict_check] (the entry of every prediction) raises it as soon
    as one requested pair has an unknown user or an unknown item.  Neither
    returns a result, and the model is left as it was. *)
Theorem unknown_id_other_strategy_raises (self : CfBase) (cold_start : string)
    (inner_id : bool) :
  trained (data_info self) ->
  cold_start <> "popular" ->
  (forall user n_rec filter_consumed random_rec u,
      u ∈ user ->
      unknown_user (data_info self) inner_id u ->
      recommend_user user n_rec cold_start inner_id filter_consumed random_rec self =
        (Raise (ValueError (model_name self
                            +:+ " only supports `popular` cold start strategy")),
         self))
  /\ (forall user item p u i,
        user !! p = Some u -> item !! p = Some i ->
        unknown_user (data_info self) inner_id u
        \/ unknown_item (data_info self) inner_id i ->
        pre_predict_check user item inner_id cold_start self =
          (Raise (ValueError (model_name self +:+ " only supports popular strategy")),
           self)).
Proof.
  intros Htrained Hcold. split.
  - intros user n_rec fc rr u Hu Hunk.
    by apply (recommend_user_unknown_other_strategy _ _ _ _ _ _ _ u).
  - intros user item p u i Hu Hi Hunk.
    by apply (pre_predict_check_unknown_other_strategy _ _ _ _ _ p u i).
Qed.

(** C7.  For two user ids that are both unknown to the index,
    [recommend_user] with the "popular" strategy and the same [n_rec] (and
    the same other arguments, on the same model) gives both the same list:
    what [popular_recommendations] returns, which does not mention the id.
    With external ids that list is the first [n_rec] popular items. *)
Theorem cold_start_independent_of_unknown_id (self : CfBase) (u1 u2 : Z)
    (n_rec : nat) (inner_id filter_consumed random_rec : bool) :
  unknown_user (data_info self) inner_id u1 ->
  unknown_user (data_info self) inner_id u2 ->
  let popular := popular_recommendations (data_info self) inner_id n_rec in
  recommend_user [u1] n_rec "popular" inner_id filter_consumed random_rec self =
    (outcome_map (fun recs => {[u1 := recs]}) popular, self)
  /\ recommend_user [u2] n_rec "popular" inner_id filter_consumed random_rec self =
       (outcome_map (fun recs => {[u2 := recs]}) popular, self)
  /\ (forall pop, popular_items (data_info self) = Some pop ->
                  inner_id = false -> popular = Ok (take n_rec pop)).
Proof.
  intros H1 H2. simpl. split; [| split].
  - by apply recommend_user_unknown_popular.
  - by apply recommend_user_unknown_popular.
  - intros pop Hpop ->. unfold popular_recommendations. by rewrite Hpop.
Qed.
End ColdStart.

Lemma example_data_info_constructed : __init__ example_args = Ok example_data_info.
Proof. vm_compute. reflexivity. Qed.

Lemma example_trained : trained example_data_info.
Proof. unfold trained. eexists _, _, _, _. vm_compute. done. Qed.

Lemma example_unknown_user (u : Z) :
  u <> 1 -> u <> 2 -> unknown_user example_data_info false u.
Proof.
  intros H1 H2. eexists. split; [reflexivity |]. simpl.
  unfold py_dict. simpl. by rewrite !lookup_insert_ne.
Qed.

(** The request of the test suite: user [-99999], strategy "sss". *)
Lemma unknown_id_other_strategy_raises_witness :
  @recommend_user example_impl [-99999] 7 "sss" false true false example_model =
    (Raise (ValueError "ItemCF only supports `popular` cold start strategy"),
     example_model)
  /\ pre_predict_check [1] [2333] false "sss" example_model =
      (Raise (ValueError "ItemCF only supports popular strategy"), example_model).
Proof.
  assert ("sss" <> "popular") as Hcold by done.
  destruct (@unknown_id_other_strategy_raises example_impl example_model "sss"
              false example_trained Hcold) as [Hrec Hpred].
  split.
  - apply (Hrec [-99999] 7%nat true false (-99999)).
    + apply list_elem_of_singleton. reflexivity.
    + apply example_unknown_user; lia.
  - apply (Hpred [1] [2333] 0%nat 1 2333); [reflexivity | reflexivity |].
    right. eexists. split; [reflexivity |]. vm_compute. reflexivity.
Defined.

(** The two cold users of the test suite, [-99999] and [-1], get the same
    three popular items. *)
Lemma cold_start_independent_of_unknown_id_witness :
  @recommend_user example_impl [-99999] 3 "popular" false true false example_model =
    (Ok {[ -99999 := [10; 20] ]}, example_model)
  /\ @recommend_user example_impl [-1] 3 "popular" false true false example_model =
      (Ok {[ -1 := [10; 20] ]}, example_model).
Proof.
  assert (unknown_user example_data_info false (-99999)) as H1
    by (apply example_unknown_user; lia).
  assert (unknown_user example_data_info false (-1)) as H2
    by (apply example_unknown_user; lia).
  destruct (@cold_start_independent_of_unknown_id example_impl example_model
              (-99999) (-1) 3 false true false H1 H2) as (Ha & Hb & _).
  split; [exact Ha | exact Hb].
Defined.

(** ** [rank_recommendations] *)

Lemma random_sample_subset k : forall pool tape x,
  x ∈ (random_sample pool k tape).1 -> x ∈ pool.
Proof.
  induction k as [| k IH]; intros pool tape x; simpl.
  - intros Hin. by apply not_elem_of_nil in Hin.
  - destruct (pool !! _) as [x0 |] eqn:Hj; [| intros Hin; by apply not_elem_of_nil in Hin].
    destruct (list.last pool) as [y |] eqn:Hlast;
      [| intros Hin; by apply not_elem_of_nil in Hin].
    simpl. intros [-> | Hin]%elem_of_cons.
    + by apply list_elem_of_lookup_2 in Hj.
    + apply IH in Hin. apply elem_of_take in Hin as (i & Hi & _).
      apply list_lookup_insert_Some in Hi as [(_ & <- & _) | (_ & Hi)].
      * by apply last_Some_elem_of.
      * by apply list_elem_of_lookup_2 in Hi.
Qed.

Lemma np_index_nat {A} (a : list A) (i : nat) (x : A) :
  a !! i = Some x -> np_index a (Z.of_nat i) = Ok x.
Proof.
  intros Hx. pose proof (lookup_lt_Some _ _ _ Hx) as Hlt. unfold np_index.
  destruct (decide (0 <= Z.of_nat i < Z.of_nat (length a))) as [_ | Hout]; [| lia].
  by rewrite Nat2Z.id, Hx.
Qed.

Lemma np_take_in_range {A} (a : list A) (idx : list nat) :
  Forall (fun i => (i < length a)%nat) idx ->
  exists picked, np_take a (Z.of_nat <$> idx) = Ok picked
                 /\ length picked = length idx
                 /\ forall x, x ∈ picked -> x ∈ a.
Proof.
  unfold np_take. induction 1 as [| i idx Hi _ (picked & Heq & Hlen & Hsub)].
  - exists []. repeat split. intros x Hx. by apply not_elem_of_nil in Hx.
  - destruct (lookup_lt_is_Some_2 a i Hi) as [x Hx].
    rewrite fmap_cons. cbn [mapO]. rewrite (np_index_nat _ _ _ Hx), Heq. simpl.
    exists (x :: picked). repeat split; [simpl; lia |].
    intros y [-> | Hy]%elem_of_cons; [by apply list_elem_of_lookup_2 in Hx | auto].
Qed.

Lemma insert_asc_elem x l y : y ∈ insert_asc x l <-> y = x \/ y ∈ l.
Proof.
  induction l as [| z l IH]; simpl.
  - rewrite list_elem_of_singleton. split; [by left | intros [-> | Hy]; [done |]].
    by apply not_elem_of_nil in Hy.
  - destruct (decide (x.2 < z.2)%Qc).
    + by rewrite elem_of_cons.
    + rewrite !elem_of_cons, IH. tauto.
Qed.

Lemma foldl_insert_asc_elem l : forall acc y,
  y ∈ foldl (fun acc x => insert_asc x acc) acc l <-> y ∈ acc \/ y ∈ l.
Proof.
  induction l as [| x l IH]; intros acc y; simpl.
  - split; [by left | intros [Hy | Hy]; [done |]]. by apply not_elem_of_nil in Hy.
  - rewrite IH, insert_asc_elem, elem_of_cons. tauto.
Qed.

Lemma enumerate_lookup {A} (l : list A) i x :
  enumerate l !! i = Some x <-> x.1 = i /\ l !! i = Some x.2.
Proof.
  unfold enumerate. rewrite lookup_zip_with_Some. split.
  - intros (j & y & -> & Hj & Hy). apply lookup_seq in Hj as [-> _]. done.
  - intros [<- Hx]. exists x.1, x.2. split; [by destruct x |]. split; [| done].
    apply lookup_seq. split; [done |]. by apply lookup_lt_Some in Hx.
Qed.

Lemma argsort_lt preds i : i ∈ argsort preds -> (i < length preds)%nat.
Proof.
  unfold argsort. intros (x & -> & Hx)%list_elem_of_fmap.
  apply foldl_insert_asc_elem in Hx as [Hx | Hx]; [by apply not_elem_of_nil in Hx |].
  apply list_elem_of_lookup in Hx as (j & Hj).
  apply enumerate_lookup in Hj as [-> Hj]. by apply lookup_lt_Some in Hj.
Qed.

Lemma insert_asc_length x l : length (insert_asc x l) = S (length l).
Proof.
  induction l as [| z l IH]; simpl; [done |].
  destruct (decide (x.2 < z.2)%Qc); simpl; lia.
Qed.

Lemma foldl_insert_asc_length l : forall acc,
  length (foldl (fun acc x => insert_asc x acc) acc l) = (length acc + length l)%nat.
Proof.
  induction l as [| x l IH]; intros acc; simpl; [lia |].
  rewrite IH, insert_asc_length. lia.
Qed.

Lemma argsort_length preds : length (argsort preds) = length preds.
Proof.
  unfold argsort, enumerate. rewrite length_fmap, foldl_insert_asc_length. simpl.
  rewrite length_zip_with, length_seq. lia.
Qed.

Lemma filter_items_ids ids preds items :
  (filter_items ids preds items).1 = filter (fun i => i ∉ items) ids.
Proof. reflexivity. Qed.

Lemma filter_items_lengths ids : forall preds items,
  length ids = length preds ->
  length (filter_items ids preds items).2 = length (filter_items ids preds items).1.
Proof.
  unfold filter_items. simpl.
  induction ids as [| i ids IH]; intros [| p preds] items Hlen; simpl in *; try done.
  rewrite !filter_cons. simpl.
  destruct (decide (i ∉ items)); simpl; rewrite IH by lia; done.
Qed.

(** C1, as written, fails on the fallback: the second user of the example
    consumed both items (inner ids 0 and 1); with both as the only candidates
    everything is filtered out and the popular list, which holds them, comes
    back. *)
Lemma fallback_recommends_consumed : ~ never_recommends_consumed.
Proof.
  intros Hclaim.
  assert ((rank_recommendations 1 [0; 1] [1%Qc; 1%Qc] 2 [0; 1] true false
             example_model).1 = Ok [0; 1]) as Hrun by (vm_compute; reflexivity).
  apply (Hclaim _ _ _ _ _ _ _ _ Hrun 0); apply elem_of_cons; by left.
Qed.

(** C1, amended.  With [filter_consumed = True] and candidate ids and scores
    of equal length: when some candidate survives the filter,
    [rank_recommendations] returns a list of at most [n_rec] survivors, none
    of them in the consumption set; when none survives it returns the
    popularity list as [popular_recommendations] gives it (inner ids), which
    is not filtered. *)
Theorem rank_recommendations_filters_consumed (self : CfBase) (user : Z)
    (ids : list Z) (preds : list Qc) (n_rec : nat) (consumed : list Z)
    (random_rec : bool) :
  length ids = length preds ->
  let run := rank_recommendations user ids preds n_rec consumed true random_rec self in
  (filter (fun i => i ∉ consumed) ids <> [] ->
   exists recs, run.1 = Ok recs
                /\ (length recs <= n_rec)%nat
                /\ forall i, i ∈ recs -> i ∈ ids /\ i ∉ consumed)
  /\ (filter (fun i => i ∉ consumed) ids = [] ->
      run.1 = popular_recommendations (data_info self) true n_rec).
Proof.
  intros Hlen. simpl. unfold rank_recommendations.
  pose proof (filter_items_lengths ids preds consumed Hlen) as Hlen'.
  rewrite filter_items_ids in *.
  set (ids' := filter (fun i => i ∉ consumed) ids) in *.
  assert (forall i, i ∈ ids' -> i ∈ ids /\ i ∉ consumed) as Hsurvive.
  { intros i Hi. apply list_elem_of_filter in Hi. tauto. }
  split.
  - intros Hsome.
    destruct (decide (length ids' = 0%nat)) as [Hnil | _];
      [by apply nil_length_inv in Hnil |].
    destruct (random_rec && _) eqn:Hrandom.
    + unfold put_random_state; run_step.
      apply andb_true_iff in Hrandom as [_ Hlt%bool_decide_eq_true].
      eexists. split; [reflexivity |]. split.
      * clear -Hlt. revert Hlt. generalize (random_state self). generalize ids'.
        induction n_rec as [| n IH]; intros pool tape Hlt; simpl; [lia |].
        destruct (pool !! _); [| simpl; lia].
        destruct (list.last pool); [| simpl; lia]. simpl.
        apply le_n_S, IH. rewrite length_take, length_insert. lia.
      * intros i Hi. by apply random_sample_subset, Hsurvive in Hi.
    + destruct (np_take_in_range ids' (reverse (argsort (filter_items ids preds consumed).2)))
        as (picked & Hpick & Hpicked & Hsub).
      { apply Forall_forall. intros i Hi%elem_of_reverse%argsort_lt. lia. }
      unfold mbind, M_bind, lift. rewrite Hpick.
      simpl. eexists. split; [reflexivity |]. split.
      * rewrite length_take. lia.
      * intros i Hi. apply Hsurvive, Hsub. by apply (subseteq_take n_rec).
  - intros Hnone. rewrite Hnone. simpl.
    unfold incr_print_count, print_event. run_step.
    by destruct (decide (print_count self + 1 < 11)%nat).
Qed.

(** User 0 of the example consumed item 0 only: item 1 survives the filter
    and is what comes back. *)
Lemma rank_recommendations_filters_consumed_witness :
  exists recs,
    (rank_recommendations 0 [0; 1] [1%Qc; 1%Qc] 2 [0] true false example_model).1
      = Ok recs
    /\ (length recs <= 2)%nat
    /\ forall i, i ∈ recs -> i ∈ [0; 1] /\ i ∉ [0].
Proof.
  apply (rank_recommendations_filters_consumed example_model 0 [0; 1]
           [1%Qc; 1%Qc] 2 [0] false eq_refl).
  vm_compute. discriminate.
Defined.

(** ** [DataInfo]: what the properties and [store_old_info] leave alone *)

Section DataInfoFrame.
Context {T : Type} (keep : DataInfo -> T).
Hypothesis keep_props : ignores keep put_props.

Lemma unchanged_set_cache f : unchanged keep (set_cache f).
Proof. intros s. apply keep_props. Qed.

Lemma unchanged_column_family fam : unchanged keep (column_family fam).
Proof. unfold column_family. frame. Qed.

Lemma unchanged_n_users : unchanged keep n_users.
Proof. unfold n_users. frame; apply unchanged_set_cache. Qed.

Lemma unchanged_n_items : unchanged keep n_items.
Proof. unfold n_items. frame; apply unchanged_set_cache. Qed.

Lemma unchanged_reset_property : unchanged keep reset_property.
Proof. intros s. apply keep_props. Qed.

Hypothesis keep_old : ignores keep put_old.

Lemma unchanged_set_old_info f : unchanged keep (set_old_info f).
Proof. intros s. apply keep_old. Qed.

Lemma unchanged_store_old_known unique_vals i col :
  unchanged keep (store_old_known unique_vals i col).
Proof.
  unfold store_old_known, old_sparse_len_append, old_sparse_oov_append,
    old_sparse_offset_append.
  frame; apply unchanged_set_old_info.
Qed.

Lemma unchanged_store_old_info : unchanged keep store_old_info.
Proof.
  unfold store_old_info. frame;
    unfold old_sparse_len_append, old_sparse_oov_append, old_sparse_offset_append;
    first [ apply unchanged_set_cache | apply unchanged_set_old_info ].
Qed.
End DataInfoFrame.

(** ** [np.unique], [np.setdiff1d] and [dict(zip(...))] *)

Lemma insert_unique_elem x l y : y ∈ insert_unique x l <-> y = x \/ y ∈ l.
Proof.
  induction l as [| z l IH]; simpl.
  - rewrite list_elem_of_singleton, elem_of_nil. tauto.
  - destruct (decide (x < z)); [by rewrite elem_of_cons |].
    destruct (decide (x = z)) as [-> | Hne].
    + rewrite elem_of_cons. tauto.
    + rewrite !elem_of_cons, IH. tauto.
Qed.

Lemma insert_unique_sorted x l :
  StronglySorted Z.lt l -> StronglySorted Z.lt (insert_unique x l).
Proof.
  induction l as [| z l IH]; simpl; intros Hsorted.
  - repeat constructor.
  - apply StronglySorted_cons in Hsorted as [Hz Hl].
    destruct (decide (x < z)) as [Hlt | Hge].
    + apply StronglySorted_cons. split; [| by apply StronglySorted_cons].
      constructor; [done |]. eapply Forall_impl; [exact Hz |]. simpl. lia.
    + destruct (decide (x = z)) as [-> | Hne]; [by apply StronglySorted_cons |].
      apply StronglySorted_cons. split; [| by apply IH].
      apply Forall_forall. intros y [-> | Hy]%insert_unique_elem; [lia |].
      by apply (proj1 (Forall_forall _ _) Hz).
Qed.

Lemma np_unique_elem a y : y ∈ np_unique a <-> y ∈ a.
Proof.
  unfold np_unique. induction a as [| x a IH]; simpl; [done |].
  by rewrite insert_unique_elem, elem_of_cons, IH.
Qed.

Lemma np_unique_sorted a : StronglySorted Z.lt (np_unique a).
Proof.
  unfold np_unique. induction a as [| x a IH]; simpl; [constructor |].
  by apply insert_unique_sorted.
Qed.

Lemma filter_sorted (P : Z -> Prop) `{forall x, Decision (P x)} l :
  StronglySorted Z.lt l -> StronglySorted Z.lt (filter P l).
Proof.
  induction l as [| x l IH]; [done |].
  intros [Hx Hl]%StronglySorted_cons. rewrite filter_cons.
  destruct (decide (P x)); [| by apply IH].
  apply StronglySorted_cons. split; [| by apply IH].
  apply Forall_forall. intros y [_ Hy]%list_elem_of_filter.
  by apply (proj1 (Forall_forall _ _) Hx).
Qed.

Lemma setdiff1d_elem ar1 ar2 x : x ∈ setdiff1d ar1 ar2 <-> x ∈ ar1 /\ x ∉ ar2.
Proof. unfold setdiff1d. rewrite list_elem_of_filter, np_unique_elem. tauto. Qed.

Lemma setdiff1d_sorted ar1 ar2 : StronglySorted Z.lt (setdiff1d ar1 ar2).
Proof. apply filter_sorted, np_unique_sorted. Qed.

(** Once the novel values are known, nothing is novel. *)
Lemma setdiff1d_absorbed ar1 ar2 : setdiff1d ar1 (ar2 ++ setdiff1d ar1 ar2) = [].
Proof.
  apply elem_of_nil_inv. intros x [H1 Hnot]%setdiff1d_elem. apply Hnot.
  apply elem_of_app. destruct (decide (x ∈ ar2)); [by left | right].
  by apply setdiff1d_elem.
Qed.

Lemma setdiff1d_covered ar1 ar2 : (forall x, x ∈ ar1 -> x ∈ ar2) -> setdiff1d ar1 ar2 = [].
Proof.
  intros Hsub. apply elem_of_nil_inv. intros x [H1 Hnot]%setdiff1d_elem. auto.
Qed.

Lemma foldl_insert_lookup_ne `{Countable K} {V} (l : list (K * V)) :
  forall (m : gmap K V) k,
  k ∉ l.*1 ->
  foldl (fun m kv => <[kv.1 := kv.2]> m) m l !! k = m !! k.
Proof.
  induction l as [| [k' v] l IH]; intros m k Hk; simpl; [done |].
  rewrite fmap_cons in Hk. apply not_elem_of_cons in Hk as [Hne Hk].
  rewrite IH by done. by rewrite lookup_insert_ne.
Qed.

Lemma py_dict_app `{Countable K} {V} (l1 l2 : list (K * V)) k :
  k ∉ l2.*1 -> py_dict (l1 ++ l2) !! k = py_dict l1 !! k.
Proof.
  intros Hk. unfold py_dict. rewrite foldl_app. by apply foldl_insert_lookup_ne.
Qed.

Lemma py_dict_lookup_key `{Countable K} {V} (l : list (K * V)) k v :
  py_dict l !! k = Some v -> k ∈ l.*1.
Proof.
  intros Hk. destruct (decide (k ∈ l.*1)) as [| Hnot]; [done |].
  unfold py_dict in Hk. rewrite foldl_insert_lookup_ne in Hk by done.
  by rewrite lookup_empty in Hk.
Qed.

(** The id mapping of an index: [dict(zip(vals, range(len(vals))))]. *)
Lemma id_mapping_grows (known novel : list Z) x j :
  (forall y, y ∈ novel -> y ∉ known) ->
  py_dict (zip known (py_range (length known))) !! x = Some j ->
  py_dict (zip (known ++ novel) (py_range (length (known ++ novel)))) !! x = Some j.
Proof.
  intros Hnovel Hx. unfold py_range in *.
  rewrite length_app, seq_app, fmap_app.
  rewrite zip_with_app by (by rewrite length_fmap, length_seq).
  rewrite py_dict_app; [done |].
  apply py_dict_lookup_key in Hx.
  intros Hin. apply (Hnovel x).
  - apply list_elem_of_fmap in Hin as ([y i] & -> & Hin).
    apply elem_of_zip_l in Hin. done.
  - apply list_elem_of_fmap in Hx as ([y i] & -> & Hx).
    apply elem_of_zip_l in Hx. done.
Qed.

(** ** [extend_unique_matrix] and the blocks of the expansion *)

Lemma bind_run {S A B} (m : M S A) (f : A -> M S B) (s : S) :
  (m ≫= f) s =
  match m s with
  | (Ok a, s') => f a s'
  | (Raise e, s') => (Raise e, s')
  end.
Proof. reflexivity. Qed.

Lemma bind_ok_inv {S A B} (m : M S A) (f : A -> M S B) (s : S) (b : B) :
  ((m ≫= f) s).1 = Ok b ->
  exists a, (m s).1 = Ok a /\ (f a (m s).2).1 = Ok b
            /\ ((m ≫= f) s).2 = (f a (m s).2).2.
Proof.
  rewrite bind_run. destruct (m s) as [[a | e] s']; simpl; [| done].
  intros Hb. by exists a.
Qed.

Section ExpandFrame.
Context {T : Type} (keep : DataInfo -> T).

Lemma unchanged_extend_unique_matrix mode diff_num :
  ignores keep rebind_user_sparse_unique -> ignores keep rebind_user_dense_unique ->
  ignores keep rebind_item_sparse_unique -> ignores keep rebind_item_dense_unique ->
  unchanged keep (extend_unique_matrix mode diff_num).
Proof.
  intros H1 H2 H3 H4. unfold extend_unique_matrix.
  frame; by apply unchanged_put.
Qed.

Lemma unchanged_expand_users data :
  ignores keep put_user_unique_vals ->
  ignores keep rebind_user_sparse_unique -> ignores keep rebind_user_dense_unique ->
  unchanged keep (expand_users data).
Proof.
  intros H0 H1 H2. unfold expand_users, extend_unique_matrix.
  destruct (decide ("user" = "user")) as [_ | Hne]; [| done].
  frame; by apply unchanged_put.
Qed.

Lemma unchanged_expand_items data :
  ignores keep put_item_unique_vals ->
  ignores keep rebind_item_sparse_unique -> ignores keep rebind_item_dense_unique ->
  unchanged keep (expand_items data).
Proof.
  intros H0 H1 H2. unfold expand_items, extend_unique_matrix.
  destruct (decide ("item" = "user")) as [Heq | _]; [done |].
  destruct (decide ("item" = "item")) as [_ | Hne]; [| done].
  frame; by apply unchanged_put.
Qed.

Lemma unchanged_update_sparse_unique data k :
  ignores keep (put_unique_dicts k) -> ignores keep (put_unique_idxs k) ->
  unchanged keep (update_sparse_unique data k).
Proof.
  intros H1 H2. unfold update_sparse_unique, update_sparse_column.
  frame; by apply unchanged_put.
Qed.
End ExpandFrame.

Lemma extend_unique_matrix_ok mode diff_num st :
  (extend_unique_matrix mode diff_num st).1 = Ok tt.
Proof.
  unfold extend_unique_matrix.
  destruct (decide (mode = "user")); [| destruct (decide (mode = "item"))];
    run_step.
  - destruct (user_sparse_unique st); simpl; by destruct (user_dense_unique st).
  - destruct (item_sparse_unique st); simpl; by destruct (item_dense_unique st).
  - reflexivity.
Qed.

(** What [extend_unique_matrix "user"] does to the two user matrices. *)
Lemma extend_unique_matrix_user diff_num st :
  let st' := (extend_unique_matrix "user" diff_num st).2 in
  user_sparse_unique st' =
    (fun m => without_oov_plus_zeros 0 m diff_num) <$> user_sparse_unique st
  /\ user_dense_unique st' =
    (fun m => without_oov_plus_zeros 0%Qc m diff_num) <$> user_dense_unique st.
Proof.
  unfold extend_unique_matrix.
  destruct (decide ("user" = "user")) as [_ | Hne]; [| done]. run_step.
  destruct (user_sparse_unique st) eqn:Hs; destruct (user_dense_unique st) eqn:Hd;
    simpl; rewrite ?Hs, ?Hd; simpl; rewrite ?Hs, ?Hd; done.
Qed.

Lemma extend_unique_matrix_item diff_num st :
  let st' := (extend_unique_matrix "item" diff_num st).2 in
  item_sparse_unique st' =
    (fun m => without_oov_plus_zeros 0 m diff_num) <$> item_sparse_unique st
  /\ item_dense_unique st' =
    (fun m => without_oov_plus_zeros 0%Qc m diff_num) <$> item_dense_unique st.
Proof.
  unfold extend_unique_matrix.
  destruct (decide ("item" = "user")) as [Heq | _]; [done |].
  destruct (decide ("item" = "item")) as [_ | Hne]; [| done]. run_step.
  destruct (item_sparse_unique st) eqn:Hs; destruct (item_dense_unique st) eqn:Hd;
    simpl; rewrite ?Hs, ?Hd; simpl; rewrite ?Hs, ?Hd; done.
Qed.

Arguments extend_unique_matrix : simpl never.

Lemma expand_users_run data st :
  (expand_users data st).1 = Ok tt ->
  exists users known,
    frame_attr data "user" = Ok (IntCol users)
    /\ user_unique_vals st = Some known
    /\ let diff := setdiff1d users known in
       let st' := (expand_users data st).2 in
       user_unique_vals st' = Some (known ++ diff)
       /\ (diff = [] -> st' = st)
       /\ (diff <> [] ->
           user_sparse_unique st' =
             (fun m => without_oov_plus_zeros 0 m (length diff))
               <$> user_sparse_unique st
           /\ user_dense_unique st' =
             (fun m => without_oov_plus_zeros 0%Qc m (length diff))
               <$> user_dense_unique st).
Proof.
  unfold expand_users. unfold mbind, M_bind, lift, get, not_none, mret, M_ret, modify.
  destruct (frame_attr data "user") as [[users | xs] | e]; simpl; try done.
  destruct (user_unique_vals st) as [known |] eqn:Hknown; simpl; try done.
  intros Hok. exists users, known. split; [done |]. split; [done |].
  destruct (decide (0 < length (setdiff1d users known))%nat) as [Hpos | Hzero].
  - set (st1 := put_user_unique_vals _ st) in *.
    destruct (extend_unique_matrix "user" _ st1) as [[[] | e] st2] eqn:Hext;
      pose proof (extend_unique_matrix_ok "user"
                    (length (setdiff1d users known)) st1) as Hext_ok;
      rewrite Hext in Hext_ok; simpl in *; try done.
    assert (st2 = (extend_unique_matrix "user"
                     (length (setdiff1d users known)) st1).2) as ->
      by (by rewrite Hext).
    split; [| split].
    + by rewrite (unchanged_extend_unique_matrix user_unique_vals).
    + intros Hnil. rewrite Hnil in Hpos. simpl in Hpos. lia.
    + intros _.
      destruct (extend_unique_matrix_user (length (setdiff1d users known)) st1)
        as [Hs Hd].
      split; [exact Hs | exact Hd].
  - simpl. assert (setdiff1d users known = []) as ->
      by (destruct (setdiff1d users known); [done | simpl in Hzero; lia]).
    rewrite app_nil_r. done.
Qed.

Lemma expand_items_run data st :
  (expand_items data st).1 = Ok tt ->
  exists items known,
    frame_attr data "item" = Ok (IntCol items)
    /\ item_unique_vals st = Some known
    /\ let diff := setdiff1d items known in
       let st' := (expand_items data st).2 in
       item_unique_vals st' = Some (known ++ diff)
       /\ (diff = [] -> st' = st)
       /\ (diff <> [] ->
           item_sparse_unique st' =
             (fun m => without_oov_plus_zeros 0 m (length diff))
               <$> item_sparse_unique st
           /\ item_dense_unique st' =
             (fun m => without_oov_plus_zeros 0%Qc m (length diff))
               <$> item_dense_unique st).
Proof.
  unfold expand_items. unfold mbind, M_bind, lift, get, not_none, mret, M_ret, modify.
  destruct (frame_attr data "item") as [[items | xs] | e]; simpl; try done.
  destruct (item_unique_vals st) as [known |] eqn:Hknown; simpl; try done.
  intros Hok. exists items, known. split; [done |]. split; [done |].
  destruct (decide (0 < length (setdiff1d items known))%nat) as [Hpos | Hzero].
  - set (st1 := put_item_unique_vals _ st) in *.
    destruct (extend_unique_matrix "item" _ st1) as [[[] | e] st2] eqn:Hext;
      pose proof (extend_unique_matrix_ok "item"
                    (length (setdiff1d items known)) st1) as Hext_ok;
      rewrite Hext in Hext_ok; simpl in *; try done.
    assert (st2 = (extend_unique_matrix "item"
                     (length (setdiff1d items known)) st1).2) as ->
      by (by rewrite Hext).
    split; [| split].
    + by rewrite (unchanged_extend_unique_matrix item_unique_vals).
    + intros Hnil. rewrite Hnil in Hpos. simpl in Hpos. lia.
    + intros _.
      destruct (extend_unique_matrix_item (length (setdiff1d items known)) st1)
        as [Hs Hd].
      split; [exact Hs | exact Hd].
  - simpl. assert (setdiff1d items known = []) as ->
      by (destruct (setdiff1d items known); [done | simpl in Hzero; lia]).
    rewrite app_nil_r. done.
Qed.

(** ** [expand_sparse_unique_vals_and_matrix] *)

Lemma unchanged_update_if_present {T} (keep : DataInfo -> T) data k :
  ignores keep (put_unique_dicts k) -> ignores keep (put_unique_idxs k) ->
  unchanged keep (update_if_present data k).
Proof.
  intros H1 H2. unfold update_if_present.
  apply unchanged_bind; [apply unchanged_get | intros s].
  destruct (unique_dicts_of k s);
    [by apply unchanged_update_sparse_unique | apply unchanged_ret].
Qed.

(** The stages of a call that returns. *)
Lemma expand_run data st :
  (expand_sparse_unique_vals_and_matrix data st).1 = Ok tt ->
  let s1 := (store_old_info st).2 in
  let s2 := put_props no_cache s1 in
  let s3 := (expand_users data s2).2 in
  let s4 := (expand_items data s3).2 in
  let s5 := (update_if_present data Single s4).2 in
  let s6 := (update_if_present data Multi s5).2 in
  (store_old_info st).1 = Ok tt
  /\ (expand_users data s2).1 = Ok tt
  /\ (expand_items data s3).1 = Ok tt
  /\ (update_if_present data Single s4).1 = Ok tt
  /\ (update_if_present data Multi s5).1 = Ok tt
  /\ (expand_sparse_unique_vals_and_matrix data st).2 = s6.
Proof.
  unfold expand_sparse_unique_vals_and_matrix. intros Hok.
  apply bind_ok_inv in Hok as ([] & H1 & Hok & ->).
  apply bind_ok_inv in Hok as ([] & _ & Hok & ->).
  apply bind_ok_inv in Hok as ([] & H3 & Hok & ->).
  apply bind_ok_inv in Hok as ([] & H4 & Hok & ->).
  apply bind_ok_inv in Hok as ([] & H5 & Hok & ->).
  done.
Qed.

Lemma n_users_coherent st known :
  cache_coherent st -> user_unique_vals st = Some known ->
  value_of n_users st = Ok (length known).
Proof.
  intros (Hn & _) Hknown. unfold value_of, n_users. run_step.
  destruct (_n_users (props st)) as [n |] eqn:Hc; simpl.
  - destruct (Hn n eq_refl) as (vals & Hvals & ->). congruence.
  - by rewrite Hknown.
Qed.

Lemma n_items_coherent st known :
  cache_coherent st -> item_unique_vals st = Some known ->
  value_of n_items st = Ok (length known).
Proof.
  intros (_ & Hn & _) Hknown. unfold value_of, n_items. run_step.
  destruct (_n_items (props st)) as [n |] eqn:Hc; simpl.
  - destruct (Hn n eq_refl) as (vals & Hvals & ->). congruence.
  - by rewrite Hknown.
Qed.

Lemma user2id_coherent st known :
  cache_coherent st -> user_unique_vals st = Some known ->
  value_of user2id st = Ok (py_dict (zip known (py_range (length known)))).
Proof.
  intros Hcoh Hknown. pose proof (n_users_coherent st known Hcoh Hknown) as Hn.
  destruct Hcoh as (_ & _ & Hd & _).
  unfold value_of, user2id in *. rewrite bind_run. simpl.
  destruct (_user2id (props st)) as [d |] eqn:Hc; simpl.
  - destruct (Hd d eq_refl) as (vals & Hvals & ->). congruence.
  - rewrite bind_run. destruct (n_users st) as [[n | e] s1]; simpl in *; [| done].
    injection Hn as ->. by rewrite Hknown.
Qed.

Lemma item2id_coherent st known :
  cache_coherent st -> item_unique_vals st = Some known ->
  value_of item2id st = Ok (py_dict (zip known (py_range (length known)))).
Proof.
  intros Hcoh Hknown. pose proof (n_items_coherent st known Hcoh Hknown) as Hn.
  destruct Hcoh as (_ & _ & _ & Hd).
  unfold value_of, item2id in *. rewrite bind_run. simpl.
  destruct (_item2id (props st)) as [d |] eqn:Hc; simpl.
  - destruct (Hd d eq_refl) as (vals & Hvals & ->). congruence.
  - rewrite bind_run. destruct (n_items st) as [[n | e] s1]; simpl in *; [| done].
    injection Hn as ->. by rewrite Hknown.
Qed.

Lemma no_cache_coherent st : props st = no_cache -> cache_coherent st.
Proof. intros Hp. unfold cache_coherent. rewrite Hp. simpl. repeat split; done. Qed.

(** What a call that returns has done to the two unique-value arrays and to
    the caches. *)
Lemma expand_unique_vals data st :
  (expand_sparse_unique_vals_and_matrix data st).1 = Ok tt ->
  let st' := (expand_sparse_unique_vals_and_matrix data st).2 in
  exists users items known_users known_items,
    frame_attr data "user" = Ok (IntCol users)
    /\ frame_attr data "item" = Ok (IntCol items)
    /\ user_unique_vals st = Some known_users
    /\ item_unique_vals st = Some known_items
    /\ user_unique_vals st' = Some (known_users ++ setdiff1d users known_users)
    /\ item_unique_vals st' = Some (known_items ++ setdiff1d items known_items)
    /\ props st' = no_cache.
Proof.
  intros Hok. destruct (expand_run data st Hok) as (H1 & H3 & H4 & H5 & H6 & Hst).
  simpl. rewrite Hst. clear Hst Hok.
  set (s1 := (store_old_info st).2) in *.
  set (s2 := put_props no_cache s1) in *.
  set (s3 := (expand_users data s2).2) in *.
  set (s4 := (expand_items data s3).2) in *.
  set (s5 := (update_if_present data Single s4).2) in *.
  destruct (expand_users_run data s2 H3) as (users & ku & Hu & Hku & Hku' & _).
  destruct (expand_items_run data s3 H4) as (items & ki & Hi & Hki & Hki' & _).
  fold s3 in Hku'. fold s4 in Hki'.
  exists users, items, ku, ki.
  assert (user_unique_vals s2 = user_unique_vals st) as Hu2
    by (by unfold s2, s1; simpl; rewrite (unchanged_store_old_info user_unique_vals)).
  assert (item_unique_vals s3 = item_unique_vals st) as Hi3.
  { unfold s3. rewrite (unchanged_expand_users item_unique_vals) by done.
    by unfold s2, s1; simpl; rewrite (unchanged_store_old_info item_unique_vals). }
  repeat split; try congruence.
  - rewrite (unchanged_update_if_present user_unique_vals) by done.
    unfold s5. rewrite (unchanged_update_if_present user_unique_vals) by done.
    unfold s4. by rewrite (unchanged_expand_items user_unique_vals).
  - rewrite (unchanged_update_if_present item_unique_vals) by done.
    unfold s5. by rewrite (unchanged_update_if_present item_unique_vals).
  - rewrite (unchanged_update_if_present props) by done.
    unfold s5. rewrite (unchanged_update_if_present props) by done.
    unfold s4. rewrite (unchanged_expand_items props) by done.
    unfold s3. by rewrite (unchanged_expand_users props).
Qed.

(** C3, as written, fails on the order: the new users 5 and 3, met in this
    order, are appended as 3, 5. *)
Lemma novel_ids_not_in_encounter_order : ~ appends_in_encounter_order.
Proof.
  intros Hclaim.
  specialize (Hclaim example_data_info
                [("user", IntCol [5; 3]); ("item", IntCol [10])] [5; 3] [1; 2]).
  vm_compute in Hclaim. specialize (Hclaim eq_refl eq_refl eq_refl). discriminate.
Qed.

(** C3, amended.  A call of [expand_sparse_unique_vals_and_matrix] that
    returns appends to [user_unique_vals] and to [item_unique_vals] exactly
    the incoming ids that are not yet present, each once and in ascending
    order (the result of [np.setdiff1d]); every id that had an inner id keeps
    it. *)
Theorem expand_appends_novel_ids_sorted (st : DataInfo) (data : Frame) :
  cache_coherent st ->
  (expand_sparse_unique_vals_and_matrix data st).1 = Ok tt ->
  let st' := (expand_sparse_unique_vals_and_matrix data st).2 in
  exists users items known_users known_items novel_users novel_items,
    frame_attr data "user" = Ok (IntCol users)
    /\ frame_attr data "item" = Ok (IntCol items)
    /\ user_unique_vals st = Some known_users
    /\ item_unique_vals st = Some known_items
    /\ user_unique_vals st' = Some (known_users ++ novel_users)
    /\ item_unique_vals st' = Some (known_items ++ novel_items)
    /\ (forall x, x ∈ novel_users <-> x ∈ users /\ x ∉ known_users)
    /\ (forall x, x ∈ novel_items <-> x ∈ items /\ x ∉ known_items)
    /\ StronglySorted Z.lt novel_users
    /\ StronglySorted Z.lt novel_items
    /\ (exists before after,
          value_of user2id st = Ok before /\ value_of user2id st' = Ok after
          /\ forall x j, before !! x = Some j -> after !! x = Some j)
    /\ (exists before after,
          value_of item2id st = Ok before /\ value_of item2id st' = Ok after
          /\ forall x j, before !! x = Some j -> after !! x = Some j).
Proof.
  intros Hcoh Hok.
  destruct (expand_unique_vals data st Hok)
    as (users & items & ku & ki & Hu & Hi & Hku & Hki & Hku' & Hki' & Hprops).
  simpl in *. apply no_cache_coherent in Hprops.
  exists users, items, ku, ki, (setdiff1d users ku), (setdiff1d items ki).
  split_and!; try done; try apply setdiff1d_sorted.
  - intros x. apply setdiff1d_elem.
  - intros x. apply setdiff1d_elem.
  - eexists _, _. split; [by apply user2id_coherent |].
    split; [by apply user2id_coherent |].
    intros x j. apply id_mapping_grows. by intros y [_ ?]%setdiff1d_elem.
  - eexists _, _. split; [by apply item2id_coherent |].
    split; [by apply item2id_coherent |].
    intros x j. apply id_mapping_grows. by intros y [_ ?]%setdiff1d_elem.
Qed.

(** The users 5 and 3 join the example index as 3 and 5; users 1 and 2 keep
    the inner ids 0 and 1. *)
Lemma expand_appends_novel_ids_sorted_witness :
  let data := [("user", IntCol [5; 3]); ("item", IntCol [10])] in
  cache_coherent example_data_info
  /\ (expand_sparse_unique_vals_and_matrix data example_data_info).1 = Ok tt
  /\ exists novel_users,
      user_unique_vals (expand_sparse_unique_vals_and_matrix data example_data_info).2
        = Some ([1; 2] ++ novel_users)
      /\ StronglySorted Z.lt novel_users.
Proof.
  intros data.
  assert (cache_coherent example_data_info) as Hcoh by (by apply no_cache_coherent).
  assert ((expand_sparse_unique_vals_and_matrix data example_data_info).1 = Ok tt)
    as Hok by (vm_compute; reflexivity).
  split; [exact Hcoh |]. split; [exact Hok |].
  destruct (expand_appends_novel_ids_sorted example_data_info data Hcoh Hok)
    as (users & items & ku & ki & nu & ni & _ & _ & Hku & _ & Hku' & _ & _ & _
        & Hsorted & _).
  injection Hku as <-. by exists nu.
Defined.

Lemma example_feat_data_info_constructed :
  __init__ example_feat_args = Ok example_feat_data_info.
Proof. vm_compute. reflexivity. Qed.

(** ** [add_oov] *)

Lemma n_users_keeps_coherent st : cache_coherent st -> cache_coherent (n_users st).2.
Proof.
  intros Hcoh. unfold n_users. run_step.
  destruct (_n_users (props st)) eqn:Hc; simpl; [done |].
  destruct (user_unique_vals st) as [vals |] eqn:Hvals; simpl; [| done].
  destruct Hcoh as (H1 & H2 & H3 & H4). unfold cache_coherent. simpl.
  split_and!; try done. intros n [= <-]. by exists vals.
Qed.

Lemma n_items_keeps_coherent st : cache_coherent st -> cache_coherent (n_items st).2.
Proof.
  intros Hcoh. unfold n_items. run_step.
  destruct (_n_items (props st)) eqn:Hc; simpl; [done |].
  destruct (item_unique_vals st) as [vals |] eqn:Hvals; simpl; [| done].
  destruct Hcoh as (H1 & H2 & H3 & H4). unfold cache_coherent. simpl.
  split_and!; try done. intros n [= <-]. by exists vals.
Qed.

Lemma sparse_oov_row_state fam st :
  (sparse_oov_row (column_family fam) st).2 = st.
Proof.
  assert (unchanged (fun s : DataInfo => s) (sparse_oov_row (column_family fam)))
    as Hsame; [| apply Hsame].
  unfold sparse_oov_row, column_family. frame.
Qed.

Section AddOovBlock.
Context {A : Type} (unique : DataInfo -> option (Matrix A))
  (put_unique : option (Matrix A) -> DataInfo -> DataInfo)
  (n_entities : M DataInfo nat) (oov_row : Matrix A -> M DataInfo (list A)).

Lemma unchanged_add_oov_block {T} (keep : DataInfo -> T) :
  ignores keep put_unique ->
  unchanged keep n_entities ->
  (forall m, unchanged keep (oov_row m)) ->
  unchanged keep (add_oov_block unique put_unique n_entities oov_row).
Proof.
  intros Hput Hn Hrow. unfold add_oov_block.
  apply unchanged_bind; [apply unchanged_get | intros s].
  destruct (unique s) as [m |]; [| apply unchanged_ret].
  apply unchanged_bind; [apply Hn | intros n].
  destruct (decide (nrows m = n)); [| apply unchanged_ret].
  apply unchanged_bind; [apply Hrow | intros oov].
  apply unchanged_bind; [apply unchanged_lift | intros m'].
  by apply unchanged_put.
Qed.

Hypothesis unique_put : forall v s, unique (put_unique v s) = v.
Hypothesis unique_n_entities : unchanged unique n_entities.

(** A block that returns: one row more when the matrix has as many rows as
    there are entities, the same matrix otherwise. *)
Lemma add_oov_block_run st m n :
  (add_oov_block unique put_unique n_entities oov_row st).1 = Ok tt ->
  unique st = Some m ->
  (n_entities st).1 = Ok n ->
  let st' := (add_oov_block unique put_unique n_entities oov_row st).2 in
  (nrows m = n ->
   exists oov, length oov = ncols m
               /\ unique st' = Some (mkMatrix (ncols m) (mrows m ++ [oov])))
  /\ (nrows m <> n -> unique st' = Some m).
Proof.
  unfold add_oov_block. rewrite bind_run. simpl. intros Hok Hm Hn. rewrite Hm in *.
  rewrite bind_run in *.
  pose proof (unique_n_entities st) as Hkeep.
  destruct (n_entities st) as [[n' | e] s1]; simpl in *; [| done].
  injection Hn as ->. rewrite Hm in Hkeep.
  destruct (decide (nrows m = n)) as [Heq | Hne].
  - split; [intros _ | done]. rewrite bind_run in *.
    destruct (oov_row m s1) as [[oov | e] s2]; simpl in *; [| done].
    unfold vstack_row in *.
    destruct (decide (length oov = ncols m)) as [Hlen | Hlen]; simpl in *; [| done].
    exists oov. by rewrite unique_put.
  - split; [done | intros _]. done.
Qed.
End AddOovBlock.

Section AddOovCoherent.
Context {A : Type} (unique : DataInfo -> option (Matrix A))
  (put_unique : option (Matrix A) -> DataInfo -> DataInfo)
  (n_entities : M DataInfo nat) (oov_row : Matrix A -> M DataInfo (list A)).
Hypothesis coherent_put : forall v s, cache_coherent s -> cache_coherent (put_unique v s).
Hypothesis coherent_n : forall s, cache_coherent s -> cache_coherent (n_entities s).2.
Hypothesis coherent_row : forall m s, cache_coherent s -> cache_coherent (oov_row m s).2.

Lemma add_oov_block_keeps_coherent st :
  cache_coherent st ->
  cache_coherent (add_oov_block unique put_unique n_entities oov_row st).2.
Proof.
  intros Hcoh. unfold add_oov_block. rewrite bind_run. simpl.
  destruct (unique st) as [m |]; [| done]. rewrite bind_run.
  specialize (coherent_n st Hcoh).
  destruct (n_entities st) as [[n | e] s1]; simpl in *; [| done].
  destruct (decide (nrows m = n)) as [Heq | Hne]; [| done]. rewrite bind_run.
  specialize (coherent_row m s1 coherent_n).
  destruct (oov_row m s1) as [[oov | e] s2]; simpl in *; [| done].
  rewrite bind_run. unfold lift.
  destruct (vstack_row m oov); simpl; [| done]. by apply coherent_put.
Qed.
End AddOovCoherent.

Lemma oov_block_keeps_coherent w st :
  cache_coherent st -> cache_coherent (oov_block w st).2.
Proof.
  intros Hcoh. destruct w; simpl; apply add_oov_block_keeps_coherent;
    try done; intros; unfold user_sparse_col, item_sparse_col;
    first [ by apply n_users_keeps_coherent | by apply n_items_keeps_coherent
          | by rewrite sparse_oov_row_state ].
Qed.

Lemma unchanged_oov_block {T} (keep : DataInfo -> T) w :
  ignores keep put_props ->
  ignores keep rebind_user_sparse_unique -> ignores keep rebind_user_dense_unique ->
  ignores keep rebind_item_sparse_unique -> ignores keep rebind_item_dense_unique ->
  unchanged keep (oov_block w).
Proof.
  intros Hp H1 H2 H3 H4.
  destruct w; simpl; apply unchanged_add_oov_block; try done;
    try (by apply unchanged_n_users); try (by apply unchanged_n_items);
    intros m; try apply unchanged_ret;
    intros s; unfold user_sparse_col, item_sparse_col;
    by rewrite sparse_oov_row_state.
Qed.

(** The block of one matrix leaves the other three matrices alone. *)
Ltac other_block :=
  match goal with
  | |- ?f <$> ?proj (add_oov_block ?u ?p ?n ?r ?st).2 = _ =>
      apply (unchanged_add_oov_block u p n r (fun s => f <$> proj s))
  end; try done;
  try (by apply unchanged_n_users); try (by apply unchanged_n_items);
  intros m; try apply unchanged_ret;
  intros s; unfold user_sparse_col, item_sparse_col;
  by rewrite sparse_oov_row_state.

Lemma oov_block_other w w' st : w' <> w -> rows_of w' (oov_block w st).2 = rows_of w' st.
Proof. intros Hne. destruct w, w'; try done; simpl; other_block. Qed.

Lemma oov_block_other_width w w' st :
  w' <> w -> width_of w' (oov_block w st).2 = width_of w' st.
Proof. intros Hne. destruct w, w'; try done; simpl; other_block. Qed.

Lemma oov_block_own w st rows ents :
  cache_coherent st ->
  (oov_block w st).1 = Ok tt ->
  rows_of w st = Some rows -> entities_of w st = Some ents ->
  length rows = length ents ->
  exists oov, rows_of w (oov_block w st).2 = Some (rows ++ [oov])
              /\ width_of w st = Some (row_width oov).
Proof.
  intros Hcoh Hok Hrows Hents Hlen.
  destruct w; simpl in *;
    match goal with
    | H : _ <$> ?proj st = Some rows |- _ =>
        destruct (proj st) as [m |] eqn:Hm; simpl in H; [| done];
        injection H as <-
    end;
    rewrite length_fmap in Hlen;
    match goal with
    | H : (add_oov_block ?u ?p ?n ?r st).1 = Ok tt |- _ =>
        assert (unchanged u n) as Hkeep
          by first [ by apply unchanged_n_users | by apply unchanged_n_items ];
        destruct (add_oov_block_run u p n r (fun v s => eq_refl) Hkeep st m
                    (length ents))
          as [Hsame _]; try done
    end;
    try (by apply (n_users_coherent st ents));
    try (by apply (n_items_coherent st ents));
    destruct (Hsame Hlen) as (oov & Hwidth & ->); simpl;
    rewrite fmap_app; simpl;
    first [ exists (SparseRow oov) | exists (DenseRow oov) ]; simpl;
    by rewrite Hwidth.
Qed.

Lemma blocks_other ws : forall st w,
  w ∉ ws -> rows_of w (for_each ws oov_block st).2 = rows_of w st.
Proof.
  induction ws as [| w0 ws IH]; intros st w Hw; simpl; [done |].
  apply not_elem_of_cons in Hw as [Hne Hw]. rewrite bind_run.
  pose proof (oov_block_other w0 w st Hne) as H0.
  destruct (oov_block w0 st) as [[[] | e] s1]; simpl in *; [| done].
  by rewrite IH.
Qed.

Lemma blocks_restore ws : NoDup ws -> forall st w rows ents,
  cache_coherent st ->
  (for_each ws oov_block st).1 = Ok tt ->
  w ∈ ws ->
  rows_of w st = Some rows -> entities_of w st = Some ents ->
  length rows = length ents ->
  exists oov, rows_of w (for_each ws oov_block st).2 = Some (rows ++ [oov])
              /\ width_of w st = Some (row_width oov).
Proof.
  induction 1 as [| w0 ws Hnotin Hnodup IH];
    intros st w rows ents Hcoh Hok Hw Hrows Hents Hlen.
  - by apply elem_of_nil in Hw.
  - simpl in *. apply bind_ok_inv in Hok as ([] & H0 & Hrest & ->).
    apply elem_of_cons in Hw as [-> | Hw].
    + destruct (oov_block_own w0 st rows ents Hcoh H0 Hrows Hents Hlen)
        as (oov & Hown & Hwidth).
      exists oov. split; [| done]. by rewrite blocks_other.
    + assert (w <> w0) as Hne by (intros ->; done).
      destruct (IH (oov_block w0 st).2 w rows ents) as (oov & Hown & Hwidth);
        try done.
      * by apply oov_block_keeps_coherent.
      * by rewrite oov_block_other.
      * rewrite (unchanged_oov_block (entities_of w))
          by (intros v s; destruct w; reflexivity).
        done.
      * exists oov. split; [done |]. rewrite <- Hwidth.
        by rewrite oov_block_other_width.
Qed.

Lemma add_oov_as_blocks st :
  add_oov st = for_each [UserSparse; ItemSparse; UserDense; ItemDense] oov_block st.
Proof.
  unfold add_oov. simpl. rewrite !bind_run.
  destruct (oov_block UserSparse st) as [[[] | e1] s1] eqn:H1; simpl in *;
    rewrite H1; [| done]. rewrite !bind_run.
  destruct (oov_block ItemSparse s1) as [[[] | e2] s2] eqn:H2; simpl in *;
    rewrite H2; [| done]. rewrite !bind_run.
  destruct (oov_block UserDense s2) as [[[] | e3] s3] eqn:H3; simpl in *;
    rewrite H3; [| done]. rewrite !bind_run.
  by destruct (oov_block ItemDense s3) as [[[] | e4] s4] eqn:H4; simpl in *;
    rewrite H4.
Qed.

(** [add_oov] on a matrix that has one row per entity and no oov row. *)
Lemma add_oov_restores w st rows ents :
  cache_coherent st ->
  (add_oov st).1 = Ok tt ->
  rows_of w st = Some rows -> entities_of w st = Some ents ->
  length rows = length ents ->
  exists oov, rows_of w (add_oov st).2 = Some (rows ++ [oov])
              /\ width_of w st = Some (row_width oov).
Proof.
  rewrite add_oov_as_blocks. intros Hcoh Hok.
  apply blocks_restore; try done.
  - apply (bool_decide_unpack _). vm_compute. exact I.
  - destruct w; rewrite !elem_of_cons; tauto.
Qed.

(** ** The unique matrices through an expansion *)

Lemma without_oov_rows {A} (f : list A -> Row) (zero : A) (m : Matrix A) (n d : nat) :
  nrows m = S n ->
  f <$> mrows (without_oov_plus_zeros zero m d) =
  take n (f <$> mrows m) ++ replicate d (f (replicate (ncols m) zero)).
Proof.
  intros Hn. unfold without_oov_plus_zeros, drop_last_row, np_zeros. simpl.
  rewrite Hn, fmap_app, fmap_take, fmap_replicate. do 2 f_equal. lia.
Qed.

Lemma expand_users_rows data st w rows known :
  is_user_matrix w = true ->
  (expand_users data st).1 = Ok tt ->
  rows_of w st = Some rows -> entities_of w st = Some known ->
  length rows = S (length known) ->
  let st' := (expand_users data st).2 in
  exists novel k,
    entities_of w st' = Some (known ++ novel)
    /\ width_of w st = Some k
    /\ (novel = [] -> rows_of w st' = Some rows)
    /\ (novel <> [] ->
        rows_of w st' =
          Some (take (length known) rows
                ++ replicate (length novel) (zero_row w k))).
Proof.
  intros Hw Hok Hrows Hents Hlen.
  destruct (expand_users_run data st Hok)
    as (users & ku & _ & Hku & Hku' & Hnil & Hgrow). simpl in *.
  assert (ku = known) as -> by (destruct w; simpl in *; congruence).
  exists (setdiff1d users known).
  destruct w; try done; simpl in *;
    match goal with
    | H : _ <$> ?proj st = Some rows |- _ =>
        destruct (proj st) as [m |] eqn:Hm; simpl in H; [| done];
        injection H as <-
    end;
    rewrite length_fmap in Hlen;
    exists (ncols m); (split; [done |]); (split; [done |]); split.
  - intros Hno. by rewrite (Hnil Hno), Hm.
  - intros Hsome. destruct (Hgrow Hsome) as [-> _]. simpl.
    f_equal. by apply (without_oov_rows SparseRow 0 m).
  - intros Hno. by rewrite (Hnil Hno), Hm.
  - intros Hsome. destruct (Hgrow Hsome) as [_ ->]. simpl.
    f_equal. by apply (without_oov_rows DenseRow 0%Qc m).
Qed.

Lemma expand_items_rows data st w rows known :
  is_user_matrix w = false ->
  (expand_items data st).1 = Ok tt ->
  rows_of w st = Some rows -> entities_of w st = Some known ->
  length rows = S (length known) ->
  let st' := (expand_items data st).2 in
  exists novel k,
    entities_of w st' = Some (known ++ novel)
    /\ width_of w st = Some k
    /\ (novel = [] -> rows_of w st' = Some rows)
    /\ (novel <> [] ->
        rows_of w st' =
          Some (take (length known) rows
                ++ replicate (length novel) (zero_row w k))).
Proof.
  intros Hw Hok Hrows Hents Hlen.
  destruct (expand_items_run data st Hok)
    as (items & ki & _ & Hki & Hki' & Hnil & Hgrow). simpl in *.
  assert (ki = known) as -> by (destruct w; simpl in *; congruence).
  exists (setdiff1d items known).
  destruct w; try done; simpl in *;
    match goal with
    | H : _ <$> ?proj st = Some rows |- _ =>
        destruct (proj st) as [m |] eqn:Hm; simpl in H; [| done];
        injection H as <-
    end;
    rewrite length_fmap in Hlen;
    exists (ncols m); (split; [done |]); (split; [done |]); split.
  - intros Hno. by rewrite (Hnil Hno), Hm.
  - intros Hsome. destruct (Hgrow Hsome) as [-> _]. simpl.
    f_equal. by apply (without_oov_rows SparseRow 0 m).
  - intros Hno. by rewrite (Hnil Hno), Hm.
  - intros Hsome. destruct (Hgrow Hsome) as [_ ->]. simpl.
    f_equal. by apply (without_oov_rows DenseRow 0%Qc m).
Qed.

Ltac ignores_by_cases w := intros ? ?; destruct w; try done; reflexivity.

Lemma expand_rows data st w rows known :
  (expand_sparse_unique_vals_and_matrix data st).1 = Ok tt ->
  rows_of w st = Some rows -> entities_of w st = Some known ->
  length rows = S (length known) ->
  let st' := (expand_sparse_unique_vals_and_matrix data st).2 in
  exists novel k,
    entities_of w st' = Some (known ++ novel)
    /\ width_of w st = Some k
    /\ (novel = [] -> rows_of w st' = Some rows)
    /\ (novel <> [] ->
        rows_of w st' =
          Some (take (length known) rows
                ++ replicate (length novel) (zero_row w k))).
Proof.
  intros Hok Hrows Hents Hlen.
  destruct (expand_run data st Hok) as (H1 & H3 & H4 & H5 & H6 & Hst).
  simpl. rewrite Hst. clear Hst Hok.
  set (s2 := put_props no_cache (store_old_info st).2) in *.
  set (s3 := (expand_users data s2).2) in *.
  set (s4 := (expand_items data s3).2) in *.
  set (s5 := (update_if_present data Single s4).2) in *.
  assert (forall {T} (keep : DataInfo -> T),
             ignores keep put_props -> ignores keep put_old ->
             keep s2 = keep st) as Hpre.
  { intros T keep K1 K2. unfold s2. rewrite K1.
    by apply unchanged_store_old_info. }
  assert (rows_of w s2 = Some rows) as Hrows2
    by (rewrite Hpre by ignores_by_cases w; done).
  assert (entities_of w s2 = Some known) as Hents2
    by (rewrite Hpre by ignores_by_cases w; done).
  assert (width_of w s2 = width_of w st) as Hwidth2
    by (rewrite Hpre by ignores_by_cases w; done).
  assert (forall {T} (keep : DataInfo -> T),
             ignores keep write_sparse_unique_vals ->
             ignores keep put_sparse_unique_idxs ->
             ignores keep write_multi_sparse_unique_vals ->
             ignores keep put_multi_sparse_unique_idxs ->
             keep (update_if_present data Multi s5).2 = keep s4) as Hdicts.
  { intros T keep K1 K2 K3 K4.
    rewrite (unchanged_update_if_present keep)
      by (intros v s; first [apply K3 | apply K4]).
    unfold s5.
    by rewrite (unchanged_update_if_present keep)
      by (intros v s; first [apply K1 | apply K2]). }
  rewrite !Hdicts by ignores_by_cases w. rewrite <- Hwidth2.
  destruct (is_user_matrix w) eqn:Hw.
  - destruct (expand_users_rows data s2 w rows known Hw H3 Hrows2 Hents2 Hlen)
      as (novel & k & He & Hk & Hnil & Hgrow).
    exists novel, k. unfold s4.
    rewrite (unchanged_expand_items (entities_of w)) by ignores_by_cases w.
    rewrite (unchanged_expand_items (rows_of w)) by ignores_by_cases w.
    done.
  - assert (rows_of w s3 = Some rows) as Hrows3.
    { rewrite <- Hrows2. unfold s3.
      by rewrite (unchanged_expand_users (rows_of w)) by ignores_by_cases w. }
    assert (entities_of w s3 = Some known) as Hents3.
    { rewrite <- Hents2. unfold s3.
      by rewrite (unchanged_expand_users (entities_of w)) by ignores_by_cases w. }
    destruct (expand_items_rows data s3 w rows known Hw H4 Hrows3 Hents3 Hlen)
      as (novel & k & He & Hk & Hnil & Hgrow).
    exists novel, k. split; [done |]. split; [| done].
    rewrite <- Hk. unfold s3.
    by rewrite (unchanged_expand_users (width_of w)) by ignores_by_cases w.
Qed.

Lemma blocks_keep ws : forall st,
  cache_coherent st ->
  cache_coherent (for_each ws oov_block st).2
  /\ forall w, entities_of w (for_each ws oov_block st).2 = entities_of w st.
Proof.
  induction ws as [| w0 ws IH]; intros st Hcoh; simpl; [done |].
  rewrite bind_run.
  pose proof (oov_block_keeps_coherent w0 st Hcoh) as Hcoh0.
  assert (forall w, entities_of w (oov_block w0 st).2 = entities_of w st) as Hents0.
  { intros w. by rewrite (unchanged_oov_block (entities_of w))
      by ignores_by_cases w. }
  destruct (oov_block w0 st) as [[[] | e] s1]; simpl in *; [| done].
  destruct (IH s1 Hcoh0) as [Hcoh1 Hents1]. split; [done |].
  intros w. by rewrite Hents1.
Qed.

Lemma n_entities_coherent w st ents :
  cache_coherent st -> entities_of w st = Some ents ->
  value_of (n_entities_of w) st = Ok (length ents).
Proof.
  intros Hcoh Hents.
  destruct w; simpl in *;
    first [ by apply n_users_coherent | by apply n_items_coherent ].
Qed.

(** C2, as written, fails right after a growth: the example has two users
    and a sparse user matrix of three rows; once user 3 has joined, there are
    three users and still three rows. *)
Lemma growth_loses_oov_row : ~ growth_keeps_oov_row.
Proof.
  intros Hclaim.
  assert (oov_row_invariant example_feat_data_info) as Hbefore.
  { intros w rows n Hrows Hn. destruct w; vm_compute in Hrows; try done.
    vm_compute in Hn. by injection Hrows as <-; injection Hn as <-. }
  specialize (Hclaim example_feat_data_info example_new_user Hbefore).
  assert ((expand_sparse_unique_vals_and_matrix example_new_user
             example_feat_data_info).1 = Ok tt) as Hok by (vm_compute; reflexivity).
  specialize (Hclaim Hok UserSparse [SparseRow [0]; SparseRow [1]; SparseRow [0]]
                3%nat).
  vm_compute in Hclaim. specialize (Hclaim eq_refl eq_refl). discriminate.
Qed.

(** C2, amended.  Take a unique matrix with one row per entity and the oov
    row last, and a call of [expand_sparse_unique_vals_and_matrix] that
    returns.  Without new entities of its kind the matrix is as it was.
    With new entities, [extend_unique_matrix] has dropped the oov row and
    put one zero row per new entity after the old entity rows: the matrix has
    exactly [n_entities] rows and no oov row.  The next [add_oov] that
    returns appends an oov row after the new rows, which gives
    [n_entities + 1] rows again. *)
Theorem growth_drops_oov_row_until_add_oov (st : DataInfo) (data : Frame)
    (w : UniqueMatrix) (rows : list Row) (known : list Z) :
  (expand_sparse_unique_vals_and_matrix data st).1 = Ok tt ->
  rows_of w st = Some rows ->
  entities_of w st = Some known ->
  length rows = S (length known) ->
  let st' := (expand_sparse_unique_vals_and_matrix data st).2 in
  exists novel k,
    entities_of w st' = Some (known ++ novel)
    /\ value_of (n_entities_of w) st' = Ok (length (known ++ novel))
    /\ width_of w st = Some k
    /\ (novel = [] -> rows_of w st' = Some rows)
    /\ (novel <> [] ->
        let grown := take (length known) rows
                     ++ replicate (length novel) (zero_row w k) in
        rows_of w st' = Some grown
        /\ length grown = length (known ++ novel)
        /\ ((add_oov st').1 = Ok tt ->
            exists oov,
              rows_of w (add_oov st').2 = Some (grown ++ [oov])
              /\ value_of (n_entities_of w) (add_oov st').2
                 = Ok (length (known ++ novel)))).
Proof.
  intros Hok Hrows Hents Hlen.
  destruct (expand_rows data st w rows known Hok Hrows Hents Hlen)
    as (novel & k & Hents' & Hk & Hnil & Hgrow).
  destruct (expand_unique_vals data st Hok)
    as (_ & _ & _ & _ & _ & _ & _ & _ & _ & _ & Hprops%no_cache_coherent).
  simpl in *. exists novel, k.
  split; [done |]. split; [by apply n_entities_coherent |].
  split; [done |]. split; [done |].
  intros Hsome.
  assert (length (take (length known) rows
                  ++ replicate (length novel) (zero_row w k))
          = length (known ++ novel)) as Hgrown
    by (rewrite !length_app, length_take, length_replicate; lia).
  split; [by apply Hgrow |]. split; [done |].
  intros Hadd.
  destruct (add_oov_restores w _ _ _ Hprops Hadd (Hgrow Hsome) Hents' Hgrown)
    as (oov & Hrestored & _).
  exists oov. split; [done |].
  rewrite add_oov_as_blocks.
  destruct (blocks_keep [UserSparse; ItemSparse; UserDense; ItemDense] _ Hprops)
    as [Hcoh Hsame].
  apply n_entities_coherent; [done |]. by rewrite Hsame.
Qed.

(** User 3 joins the example with the sparse feature: the three rows that
    remain are those of users 1, 2 and 3, and [add_oov] adds the fourth. *)
Lemma growth_drops_oov_row_until_add_oov_witness :
  let st' := (expand_sparse_unique_vals_and_matrix example_new_user
                example_feat_data_info).2 in
  rows_of UserSparse st' = Some [SparseRow [0]; SparseRow [1]; SparseRow [0]]
  /\ value_of n_users st' = Ok 3%nat
  /\ rows_of UserSparse (add_oov st').2
     = Some [SparseRow [0]; SparseRow [1]; SparseRow [0]; SparseRow [2]].
Proof.
  assert ((expand_sparse_unique_vals_and_matrix example_new_user
             example_feat_data_info).1 = Ok tt) as Hok by (vm_compute; reflexivity).
  destruct (growth_drops_oov_row_until_add_oov example_feat_data_info
              example_new_user UserSparse
              [SparseRow [0]; SparseRow [1]; SparseRow [2]] [1; 2]
              Hok eq_refl eq_refl eq_refl)
    as (novel & k & _ & _ & _ & _ & _).
  vm_compute. done.
Defined.

(** ** A second expansion with the same data *)

Lemma dict_get_set_eq {V} k (v : V) d : dict_get k (dict_set k v d) = Some v.
Proof.
  induction d as [| [k' v'] d IH]; simpl.
  - by destruct (decide (k = k)).
  - destruct (decide (k = k')) as [-> | Hne]; simpl.
    + by destruct (decide (k' = k')).
    + by destruct (decide (k = k')).
Qed.

Lemma dict_get_set_ne {V} k k' (v : V) d :
  k' <> k -> dict_get k' (dict_set k v d) = dict_get k' d.
Proof.
  intros Hne. induction d as [| [k0 v0] d IH]; simpl.
  - by destruct (decide (k' = k)).
  - destruct (decide (k = k0)) as [-> | Hne0]; simpl.
    + by destruct (decide (k' = k0)).
    + destruct (decide (k' = k0)); [done | exact IH].
Qed.

Lemma dict_set_keys {V} k (v v0 : V) d :
  dict_get k d = Some v0 -> (dict_set k v d).*1 = d.*1.
Proof.
  induction d as [| [k' v'] d IH]; simpl; [done |].
  destruct (decide (k = k')) as [-> | Hne]; simpl; [done |].
  intros Hget. f_equal. by apply IH.
Qed.

Lemma dict_get_key {V} k (d : list (string * V)) :
  k ∈ d.*1 -> is_Some (dict_get k d).
Proof.
  induction d as [| [k' v'] d IH]; simpl.
  - by intros ?%elem_of_nil.
  - intros Hin%elem_of_cons. destruct (decide (k = k')); [by eauto |].
    destruct Hin as [? | Hin]; [done | by apply IH].
Qed.

Lemma setdiff1d_nil_covered ar1 ar2 :
  setdiff1d ar1 ar2 = [] -> forall x, x ∈ ar1 -> x ∈ ar2.
Proof.
  intros Hnil x Hx. destruct (decide (x ∈ ar2)) as [| Hnot]; [done |].
  assert (x ∈ setdiff1d ar1 ar2) as Hin by (by apply setdiff1d_elem).
  rewrite Hnil in Hin. by apply elem_of_nil in Hin.
Qed.

Arguments unique_dicts_of : simpl never.
Arguments unique_idxs_of : simpl never.
Arguments put_unique_dicts : simpl never.
Arguments put_unique_idxs : simpl never.

Lemma unique_dicts_put k d idxs st :
  unique_dicts_of k (put_unique_idxs k idxs (put_unique_dicts k d st)) = Some d.
Proof. by destruct k. Qed.

Lemma update_sparse_column_run data k col st :
  (update_sparse_column data k col st).1 = Ok tt ->
  let st' := (update_sparse_column data k col st).2 in
  covered data k col st'
  /\ (forall c, covered data k c st -> covered data k c st')
  /\ keys_of k st' = keys_of k st.
Proof.
  unfold update_sparse_column, keys_of.
  unfold mbind, M_bind, get, not_none, lift, modify, mret, M_ret, raise, dict_item.
  simpl.
  destruct (unique_dicts_of k st) as [d |] eqn:Hd; simpl; [| done].
  destruct (dict_get col d) as [vals |] eqn:Hvals; simpl; [| done].
  destruct (frame_get data col) as [c |] eqn:Hc; simpl; [| done].
  destruct (int_values c) as [values |] eqn:Hvs; simpl; [| done].
  assert (frame_get data col ≫= int_values = Ok values) as Hcol
    by (by rewrite Hc).
  destruct (decide (0 < length (setdiff1d values vals))%nat) as [Hpos | Hzero]; simpl.
  - destruct (unique_idxs_of k st) as [idxs |] eqn:Hidxs; simpl; [| done].
    intros _. rewrite unique_dicts_put. simpl. split; [| split].
    + eexists _, _, values. split; [apply unique_dicts_put |].
      split; [apply dict_get_set_eq |]. split; [done |].
      intros x Hx. apply elem_of_app.
      destruct (decide (x ∈ vals)); [by left | right]. by apply setdiff1d_elem.
    + intros c0 (d0 & vals0 & values0 & Hd0 & Hget0 & Hcol0 & Hsub0).
      rewrite Hd in Hd0. injection Hd0 as <-.
      destruct (decide (c0 = col)) as [-> | Hne].
      * eexists _, _, values0. split; [apply unique_dicts_put |].
        split; [apply dict_get_set_eq |]. split; [done |].
        intros x Hx. apply elem_of_app. left.
        rewrite Hvals in Hget0. injection Hget0 as <-. auto.
      * eexists _, vals0, values0. split; [apply unique_dicts_put |].
        split; [by rewrite dict_get_set_ne |]. done.
    + f_equal. by apply (dict_set_keys _ _ vals).
  - intros _. rewrite Hd. simpl. split; [| done].
    exists d, vals, values. repeat split; try done.
    apply setdiff1d_nil_covered.
    destruct (setdiff1d values vals); [done | simpl in Hzero; lia].
Qed.

Lemma update_sparse_column_noop data k col st :
  covered data k col st -> update_sparse_column data k col st = (Ok tt, st).
Proof.
  intros (d & vals & values & Hd & Hget & Hcol & Hsub).
  unfold update_sparse_column.
  unfold mbind, M_bind, get, not_none, lift, modify, mret, M_ret, raise, dict_item
    in *.
  simpl in *. rewrite Hd. simpl. rewrite Hget. simpl.
  destruct (frame_get data col) as [c |]; simpl in *; [| done].
  rewrite Hcol. simpl. by rewrite (setdiff1d_covered values vals Hsub).
Qed.

Lemma update_columns_run data k cols : forall st,
  (for_each cols (update_sparse_column data k) st).1 = Ok tt ->
  let st' := (for_each cols (update_sparse_column data k) st).2 in
  (forall c, c ∈ cols -> covered data k c st')
  /\ (forall c, covered data k c st -> covered data k c st')
  /\ keys_of k st' = keys_of k st.
Proof.
  induction cols as [| col cols IH]; intros st; simpl.
  - intros _. split; [| done]. by intros c ?%elem_of_nil.
  - intros Hok. apply bind_ok_inv in Hok as ([] & Hcol & Hrest & ->).
    destruct (update_sparse_column_run data k col st Hcol) as (Hown & Hmono & Hkeys).
    destruct (IH _ Hrest) as (Hall & Hmono' & Hkeys'). simpl in *.
    split; [| split].
    + intros c [-> | Hc]%elem_of_cons; auto.
    + auto.
    + congruence.
Qed.

Lemma update_columns_noop data k cols : forall st,
  (forall c, c ∈ cols -> covered data k c st) ->
  for_each cols (update_sparse_column data k) st = (Ok tt, st).
Proof.
  induction cols as [| col cols IH]; intros st Hall; simpl; [done |].
  rewrite bind_run, update_sparse_column_noop by (apply Hall, elem_of_cons; by left).
  apply IH. intros c Hc. apply Hall, elem_of_cons. by right.
Qed.

Lemma update_if_present_eq data k st :
  update_if_present data k st =
  match unique_dicts_of k st with
  | Some d => for_each d.*1 (update_sparse_column data k) st
  | None => (Ok tt, st)
  end.
Proof.
  unfold update_if_present, update_sparse_unique.
  unfold mbind, M_bind, get, not_none, mret, M_ret.
  destruct (unique_dicts_of k st) as [d |] eqn:Hd; [| done]. by rewrite Hd.
Qed.

Lemma update_if_present_run data k st :
  (update_if_present data k st).1 = Ok tt ->
  let st' := (update_if_present data k st).2 in
  all_covered data k st' /\ keys_of k st' = keys_of k st.
Proof.
  rewrite update_if_present_eq.
  destruct (unique_dicts_of k st) as [d |] eqn:Hd; simpl.
  - intros Hok. destruct (update_columns_run data k d.*1 st Hok)
      as (Hall & _ & Hkeys). simpl in *.
    split; [| done]. intros d' c Hd' Hc. apply Hall.
    unfold keys_of in Hkeys. rewrite Hd', Hd in Hkeys. simpl in Hkeys. congruence.
  - intros _. split; [| done]. intros d' c Hd'. congruence.
Qed.

Lemma update_if_present_noop data k st :
  all_covered data k st -> update_if_present data k st = (Ok tt, st).
Proof.
  intros Hall. rewrite update_if_present_eq.
  destruct (unique_dicts_of k st) as [d |] eqn:Hd; [| done].
  apply update_columns_noop. intros c Hc. by apply (Hall d).
Qed.

Lemma expand_users_noop data st users known :
  frame_attr data "user" = Ok (IntCol users) ->
  user_unique_vals st = Some known ->
  setdiff1d users known = [] ->
  expand_users data st = (Ok tt, st).
Proof.
  intros Hcol Hknown Hnil. unfold expand_users.
  unfold mbind, M_bind, lift, get, not_none, mret, M_ret.
  rewrite Hcol. simpl. rewrite Hknown, Hnil. done.
Qed.

Lemma expand_items_noop data st items known :
  frame_attr data "item" = Ok (IntCol items) ->
  item_unique_vals st = Some known ->
  setdiff1d items known = [] ->
  expand_items data st = (Ok tt, st).
Proof.
  intros Hcol Hknown Hnil. unfold expand_items.
  unfold mbind, M_bind, lift, get, not_none, mret, M_ret.
  rewrite Hcol. simpl. rewrite Hknown, Hnil. done.
Qed.

Lemma all_covered_same data k st st' :
  unique_dicts_of k st' = unique_dicts_of k st ->
  all_covered data k st -> all_covered data k st'.
Proof.
  intros Hsame Hall d c Hd Hc. rewrite Hsame in Hd.
  destruct (Hall d c Hd Hc) as (d0 & vals & values & Hd0 & Hrest).
  exists d0, vals, values. by rewrite Hsame.
Qed.

Lemma expand_absorbs data st :
  (expand_sparse_unique_vals_and_matrix data st).1 = Ok tt ->
  absorbed data (expand_sparse_unique_vals_and_matrix data st).2.
Proof.
  intros Hok.
  destruct (expand_unique_vals data st Hok)
    as (users & items & ku & ki & Hu & Hi & _ & _ & Hku & Hki & _).
  destruct (expand_run data st Hok) as (_ & _ & _ & H5 & H6 & Hst).
  simpl in *. split; [| split; [| split]].
  - exists users, (ku ++ setdiff1d users ku).
    split; [done |]. split; [done |]. apply setdiff1d_absorbed.
  - exists items, (ki ++ setdiff1d items ki).
    split; [done |]. split; [done |]. apply setdiff1d_absorbed.
  - rewrite Hst. destruct (update_if_present_run data Single _ H5) as [Hall _].
    eapply all_covered_same; [| exact Hall].
    by apply (unchanged_update_if_present (unique_dicts_of Single)).
  - rewrite Hst. by destruct (update_if_present_run data Multi _ H6) as [Hall _].
Qed.

(** On such a state a call stores the old info, resets the caches and does
    nothing else. *)
Lemma expand_absorbed data st :
  absorbed data st ->
  expand_sparse_unique_vals_and_matrix data st =
  match store_old_info st with
  | (Ok _, s) => (Ok tt, put_props no_cache s)
  | (Raise e, s) => (Raise e, s)
  end.
Proof.
  intros ((users & ku & Hu & Hku & Hunil) & (items & ki & Hi & Hki & Hinil)
          & Hsingle & Hmulti).
  unfold expand_sparse_unique_vals_and_matrix. rewrite bind_run.
  pose proof (fun T (keep : DataInfo -> T) (K1 : ignores keep put_props)
                (K2 : ignores keep put_old) =>
                unchanged_store_old_info keep K1 K2 st) as Hkeep.
  destruct (store_old_info st) as [[[] | e] s1]; simpl in Hkeep; [| done].
  rewrite bind_run. unfold reset_property at 1, modify at 1. simpl.
  rewrite bind_run, (expand_users_noop data _ users ku); try done;
    [| by rewrite <- Hku, <- (Hkeep _ user_unique_vals)].
  rewrite bind_run, (expand_items_noop data _ items ki); try done;
    [| by rewrite <- Hki, <- (Hkeep _ item_unique_vals)].
  rewrite bind_run, update_if_present_noop.
  - apply update_if_present_noop. eapply all_covered_same; [| exact Hmulti].
    by apply (Hkeep _ (unique_dicts_of Multi)).
  - eapply all_covered_same; [| exact Hsingle].
    by apply (Hkeep _ (unique_dicts_of Single)).
Qed.

(** C8.  After a call of [expand_sparse_unique_vals_and_matrix] that
    returns, a second call with the same data frame leaves the unique-value
    arrays, the sparse-category dictionaries (with their index maps) and the
    unique feature matrices as the first call left them; it only stores the
    old info again and resets the caches, and it returns exactly when
    [store_old_info] does. *)
Theorem expand_idempotent (st : DataInfo) (data : Frame) :
  (expand_sparse_unique_vals_and_matrix data st).1 = Ok tt ->
  let st1 := (expand_sparse_unique_vals_and_matrix data st).2 in
  let second := expand_sparse_unique_vals_and_matrix data st1 in
  expand_fields second.2 = expand_fields st1
  /\ second.1 = (store_old_info st1).1.
Proof.
  intros Hok. simpl. rewrite (expand_absorbed data _ (expand_absorbs data st Hok)).
  set (st1 := (expand_sparse_unique_vals_and_matrix data st).2).
  pose proof (unchanged_store_old_info expand_fields
                (fun v s => eq_refl) (fun v s => eq_refl) st1) as Hkeep.
  destruct (store_old_info st1) as [[[] | e] s]; simpl in *; split; done.
Qed.

(** User 3 joins the example twice: the second call changes none of the
    fields, and returns. *)
Lemma expand_idempotent_witness :
  let st1 := (expand_sparse_unique_vals_and_matrix example_new_user
                example_feat_data_info).2 in
  let second := expand_sparse_unique_vals_and_matrix example_new_user st1 in
  (expand_sparse_unique_vals_and_matrix example_new_user
     example_feat_data_info).1 = Ok tt
  /\ expand_fields second.2 = expand_fields st1
  /\ second.1 = Ok tt.
Proof.
  assert ((expand_sparse_unique_vals_and_matrix example_new_user
             example_feat_data_info).1 = Ok tt) as Hok by (vm_compute; reflexivity).
  destruct (expand_idempotent example_feat_data_info example_new_user Hok)
    as [Hfields Hreturns].
  split; [exact Hok |]. split; [exact Hfields |].
  etrans; [exact Hreturns | vm_compute; reflexivity].
Defined.

(** ** Feature assignment *)

Section AssignModes.
Context `{FeatureHelpers}.

(** C10.  For a mode other than "user" and "item" (and provided [check_oov],
    which both methods call first, returns for that mode)
    [assign_sparse_features] raises [ValueError], while
    [assign_dense_features] returns without raising; neither has modified
    the state. *)
Theorem assign_features_invalid_mode (st : DataInfo) (data data' : Frame)
    (mode : string) :
  mode <> "user" -> mode <> "item" ->
  check_oov st data mode = Ok data' ->
  assign_sparse_features data mode st =
    (Raise (ValueError "mode must be user or item."), st)
  /\ assign_dense_features data mode st = (Ok tt, st).
Proof.
  intros Hu Hi Hcheck. unfold assign_sparse_features, assign_dense_features.
  unfold mbind, M_bind, get, lift, raise, mret, M_ret. simpl. rewrite Hcheck.
  destruct (decide (mode = "user")) as [| _]; [done |].
  destruct (decide (mode = "item")) as [| _]; [done |].
  done.
Qed.
End AssignModes.

(** Mode "users" on the example with the helpers modelled from the spec. *)
Lemma assign_features_invalid_mode_witness :
  assign_sparse_features example_new_user "users" example_feat_data_info =
    (Raise (ValueError "mode must be user or item."), example_feat_data_info)
  /\ assign_dense_features example_new_user "users" example_feat_data_info =
      (Ok tt, example_feat_data_info).
Proof.
  apply (assign_features_invalid_mode example_feat_data_info example_new_user
           example_new_user "users"); [done | done |].
  reflexivity.
Defined.

(** ** [np_assign_col] *)

Lemma set_entry_length {A} (rows : list (list A)) r0 c0 v :
  length (set_entry rows r0 c0 v) = length rows.
Proof.
  unfold set_entry. destruct (rows !! r0); [| done]. by rewrite length_insert.
Qed.

Lemma set_entry_other {A} (rows : list (list A)) r0 c0 v r c :
  r <> r0 \/ c <> c0 ->
  (set_entry rows r0 c0 v !! r ≫= fun row => row !! c)
  = (rows !! r ≫= fun row => row !! c).
Proof.
  intros Hother. unfold set_entry.
  destruct (rows !! r0) as [row |] eqn:Hrow; [| done].
  destruct (decide (r = r0)) as [-> | Hne].
  - rewrite list_lookup_insert_eq by (by apply lookup_lt_Some in Hrow).
    rewrite Hrow. simpl. destruct Hother as [? | Hc]; [done |].
    by rewrite list_lookup_insert_ne.
  - by rewrite list_lookup_insert_ne.
Qed.

Lemma foldl_set_entry {A} (rvs : list (nat * A)) c0 : forall rows : list (list A),
  let rows' := foldl (fun rows rv => set_entry rows rv.1 c0 rv.2) rows rvs in
  length rows' = length rows
  /\ forall r c, c <> c0 \/ r ∉ rvs.*1 ->
                 (rows' !! r ≫= fun row => row !! c) = (rows !! r ≫= fun row => row !! c).
Proof.
  induction rvs as [| [r0 v] rvs IH]; intros rows; simpl; [done |].
  destruct (IH (set_entry rows r0 c0 v)) as [Hlen Hother]. simpl in *.
  split; [by rewrite Hlen, set_entry_length |].
  intros r c Hrc. rewrite Hother.
  - apply set_entry_other. destruct Hrc as [? | Hr]; [by right | left].
    intros ->. apply Hr, elem_of_cons. by left.
  - destruct Hrc as [? | Hr]; [by left | right].
    intros Hin. apply Hr, elem_of_cons. by right.
Qed.

Lemma mapO_elem {A B} (f : A -> outcome B) (l : list A) (l' : list B) :
  mapO f l = Ok l' -> forall y, y ∈ l' -> exists x, x ∈ l /\ f x = Ok y.
Proof.
  revert l'. induction l as [| x l IH]; intros l'; simpl.
  - intros [= <-] y Hy. by apply elem_of_nil in Hy.
  - destruct (f x) as [y0 | e] eqn:Hx; simpl; [| done].
    destruct (mapO f l) as [ys | e]; simpl; [| done].
    intros [= <-] y [-> | Hy]%elem_of_cons.
    + exists x. split; [apply elem_of_cons; by left | done].
    + destruct (IH ys eq_refl y Hy) as (x' & Hx' & Hfx').
      exists x'. split; [apply elem_of_cons; by right | done].
Qed.

(** A fancy assignment to column [c0] keeps the shape, every other column,
    and every row that no index addresses. *)
Lemma np_assign_col_other {A} (m m' : Matrix A) row_idx c0 vals :
  np_assign_col m row_idx c0 vals = Ok m' ->
  ncols m' = ncols m /\ nrows m' = nrows m
  /\ forall r c,
      c <> c0 \/ (forall i, i ∈ row_idx -> wrap_index (nrows m) i <> Ok r) ->
      entry m' r c = entry m r c.
Proof.
  unfold np_assign_col.
  destruct (mapO (wrap_index (nrows m)) row_idx) as [rs | e] eqn:Hrs; simpl; [| done].
  destruct (decide (c0 < ncols m)%nat); [| done].
  match goal with
  | |- context [if ?d then Ok vals else ?other] =>
      destruct (if d then Ok vals else other) as [vs | e]; simpl; [| done]
  end.
  intros [= <-]. simpl.
  destruct (foldl_set_entry (zip rs vs) c0 (mrows m)) as [Hlen Hother].
  split; [done |]. split; [done |].
  intros r c Hrc. unfold entry. simpl. apply Hother.
  destruct Hrc as [? | Hr]; [by left | right].
  intros Hin. apply list_elem_of_fmap in Hin as ([r' v] & -> & Hin).
  apply elem_of_zip_l in Hin. simpl in Hin.
  destruct (mapO_elem _ _ _ Hrs _ Hin) as (i & Hi & Hwrap).
  by apply (Hr i).
Qed.

(** ** The assignment loop *)

Lemma for_each_maintains {S A} (I : S -> Prop) (l : list A) (body : A -> M S unit) :
  (forall x, x ∈ l -> forall s, I s -> I (body x s).2) ->
  forall s, I s -> I (for_each l body s).2.
Proof.
  induction l as [| x l IH]; intros Hbody s Hs; simpl; [done |].
  unfold mbind, M_bind.
  assert (I (body x s).2) as Hx by (apply Hbody; [apply elem_of_cons; by left | done]).
  destruct (body x s) as [[[] | e] s']; simpl in *; [| done].
  apply IH; [| done]. intros y Hy. apply Hbody, elem_of_cons. by right.
Qed.

Lemma column_family_pure fam s : (column_family fam s).2 = s.
Proof.
  assert (unchanged id (column_family fam)) as Hpure
    by (unfold column_family; frame).
  apply Hpure.
Qed.

Lemma kept_outside_refl {A} P (m : option (Matrix A)) : kept_outside P m m.
Proof. by destruct m. Qed.

Lemma kept_outside_weaken {A} (P Q : nat -> nat -> nat -> Prop)
    (before after : option (Matrix A)) :
  (forall n r c, P n r c -> Q n r c) ->
  kept_outside P before after -> kept_outside Q before after.
Proof.
  intros HPQ. destruct before as [m |], after as [m' |]; simpl; try done.
  intros (Hc & Hr & Hkept). split_and!; [done .. |].
  intros r c HQ. apply Hkept. intros HP. by apply HQ, HPQ.
Qed.

Section AssignColumns.
Context {A : Type} (data : Frame) (id_col : string).
Context (family : M DataInfo Feature).
Context (unique : DataInfo -> option (Matrix A)).
Context (put_unique : option (Matrix A) -> DataInfo -> DataInfo).
Context (values : DataInfo -> Feature -> nat -> string -> outcome (list A)).
Hypothesis family_pure : forall s, (family s).2 = s.
Hypothesis unique_put : forall v s, unique (put_unique v s) = v.

Lemma unchanged_assign_columns {T} (keep : DataInfo -> T) :
  ignores keep put_unique -> unchanged keep family ->
  unchanged keep (assign_columns data id_col family unique put_unique values).
Proof.
  intros Hput Hfamily. unfold assign_columns.
  frame; first [ apply Hfamily | by apply unchanged_put ].
Qed.

Lemma assign_columns_kept st :
  kept_outside
    (may_write data id_col
       (match value_of family st with Ok f => name f | Raise _ => [] end))
    (unique st)
    (unique (assign_columns data id_col family unique put_unique values st).2).
Proof.
  unfold assign_columns, value_of, may_write.
  rewrite bind_run. unfold lift at 1.
  destruct (frame_get data id_col) as [column | e] eqn:Hcolumn;
    cbv beta iota; [| apply kept_outside_refl].
  rewrite bind_run. unfold lift at 1.
  destruct (int_values column) as [row_idx | e] eqn:Hrow_idx;
    cbv beta iota; [| apply kept_outside_refl].
  rewrite bind_run.
  pose proof (family_pure st) as Hpure.
  destruct (family st) as [[col_info | e] s]; simpl in Hpure; subst s;
    cbv beta iota; [| apply kept_outside_refl].
  rewrite bind_run. unfold get at 1. cbv beta iota.
  destruct (unique st) as [m |] eqn:Hm; [| simpl; by rewrite Hm].
  destruct (name col_info) as [| nm0 names0] eqn:Hnames;
    [simpl; rewrite Hm; by split_and! |].
  rewrite <- Hnames. clear Hnames nm0 names0.
  set (P := fun n r c : nat => _ /\ _).
  apply (for_each_maintains (fun s => kept_outside P (Some m) (unique s)));
    [| rewrite Hm; apply kept_outside_refl].
  intros [feat_idx col] Hfc s Hs. simpl.
  apply list_elem_of_lookup in Hfc as [k Hfc].
  apply enumerate_lookup in Hfc as [Hk Hcol]. simpl in Hk, Hcol. subst k.
  destruct (bool_decide_reflect (col ∈ frame_columns data)) as [Hpresent |];
    [| done].
  rewrite bind_run. unfold get at 1. cbv beta iota.
  rewrite bind_run. unfold lift at 1.
  destruct (values s col_info feat_idx col) as [vals | e]; cbv beta iota; [| done].
  rewrite bind_run.
  destruct (unique s) as [m_cur |] eqn:Hcur; [| done].
  unfold not_none, mret at 1, M_ret at 1. cbv beta iota.
  rewrite bind_run. unfold lift at 1.
  destruct (np_assign_col m_cur row_idx feat_idx vals) as [m' | e] eqn:Hassign;
    cbv beta iota; [| simpl; by rewrite Hcur].
  unfold modify. simpl. rewrite unique_put.
  apply np_assign_col_other in Hassign as (Hc & Hr & Hother).
  destruct Hs as (Hc_cur & Hr_cur & Hkept). simpl.
  split_and!; [congruence .. |].
  intros r c HP. rewrite Hother; [by apply Hkept |].
  destruct (decide (c = feat_idx)) as [-> | Hne]; [right | by left].
  intros i Hi Hwrap. apply HP. split.
  - exists col. by split.
  - exists row_idx, i. split_and!; [done .. |]. by rewrite <- Hr_cur.
Qed.
End AssignColumns.

Lemma unchanged_column_family_any {T} (keep : DataInfo -> T) fam :
  unchanged keep (column_family fam).
Proof. intros s. by rewrite column_family_pure. Qed.

Lemma column_names_mapping fam s s' :
  col_name_mapping s' = col_name_mapping s ->
  column_names (column_family fam) s' = column_names (column_family fam) s.
Proof.
  intros Hmapping. unfold column_names, value_of, column_family.
  rewrite !bind_run. unfold get. cbv beta iota. rewrite Hmapping.
  destruct (col_name_mapping s) as [[| fam_cols cnm] |]; [done | | done].
  rewrite !bind_run. unfold lift.
  by destruct (dict_item fam (fam_cols :: cnm)) as [[| col cols] | e].
Qed.

Section AssignFeatures.
Context `{FeatureHelpers}.

Lemma unchanged_assign_sparse_features {T} (keep : DataInfo -> T) data mode :
  (mode = "user" -> ignores keep write_user_sparse_unique) ->
  (mode = "item" -> ignores keep write_item_sparse_unique) ->
  unchanged keep (assign_sparse_features data mode).
Proof.
  intros Huser Hitem. unfold assign_sparse_features.
  apply unchanged_bind; [apply unchanged_get | intros st].
  apply unchanged_bind; [apply unchanged_lift | intros data'].
  destruct (decide (mode = "user"));
    [apply unchanged_assign_columns;
       [by auto | apply unchanged_column_family_any] |].
  destruct (decide (mode = "item"));
    [apply unchanged_assign_columns;
       [by auto | apply unchanged_column_family_any] |].
  frame.
Qed.

Lemma unchanged_assign_dense_features {T} (keep : DataInfo -> T) data mode :
  (mode = "user" -> ignores keep write_user_dense_unique) ->
  (mode = "item" -> ignores keep write_item_dense_unique) ->
  unchanged keep (assign_dense_features data mode).
Proof.
  intros Huser Hitem. unfold assign_dense_features.
  apply unchanged_bind; [apply unchanged_get | intros st].
  apply unchanged_bind; [apply unchanged_lift | intros data'].
  destruct (decide (mode = "user"));
    [apply unchanged_assign_columns;
       [by auto | apply unchanged_column_family_any] |].
  destruct (decide (mode = "item"));
    [apply unchanged_assign_columns;
       [by auto | apply unchanged_column_family_any] |].
  frame.
Qed.

Lemma may_write_overwritten st data data' mode names n r c :
  check_oov st data mode = Ok data' ->
  may_write data' mode names n r c -> overwritten st names data mode n r c.
Proof.
  intros Hoov [(nm & Hnm & Hpresent) (ids & i & Hids & Hi & Hwrap)]. split.
  - exists nm. split; [done |]. by rewrite <- (check_oov_columns _ _ _ _ Hoov).
  - by exists data', ids, i.
Qed.

Ltac assign_kept :=
  unfold assign_sparse_features, assign_dense_features; rewrite bind_run; unfold get at 1; cbv beta iota;
  rewrite bind_run; unfold lift at 1;
  match goal with
  | |- context [check_oov ?st ?data ?mode] =>
      let Hoov := fresh "Hoov" in
      destruct (check_oov st data mode) as [data' | e] eqn:Hoov;
      cbv beta iota; [| apply kept_outside_refl];
      repeat (destruct (decide _); try done; []);
      eapply kept_outside_weaken; [| apply assign_columns_kept];
      [ intros ? ? ?; by apply may_write_overwritten
      | apply column_family_pure
      | setter_cases ]
  end.

Lemma assign_sparse_user_kept st data :
  kept_outside (overwritten st (column_names user_sparse_col st) data "user")
    (user_sparse_unique st)
    (user_sparse_unique (assign_sparse_features data "user" st).2).
Proof. assign_kept. Qed.

Lemma assign_sparse_item_kept st data :
  kept_outside (overwritten st (column_names item_sparse_col st) data "item")
    (item_sparse_unique st)
    (item_sparse_unique (assign_sparse_features data "item" st).2).
Proof. assign_kept. Qed.

Lemma assign_dense_user_kept st data :
  kept_outside (overwritten st (column_names user_dense_col st) data "user")
    (user_dense_unique st)
    (user_dense_unique (assign_dense_features data "user" st).2).
Proof. assign_kept. Qed.

Lemma assign_dense_item_kept st data :
  kept_outside (overwritten st (column_names item_dense_col st) data "item")
    (item_dense_unique st)
    (item_dense_unique (assign_dense_features data "item" st).2).
Proof. assign_kept. Qed.

Ltac other_matrix := first [ done | intros _; setter_cases ].

Lemma assign_user_features_kept st data :
  let mid := (assign_sparse_features data "user" st).2 in
  let st' := (assign_user_features data st).2 in
  kept_outside (overwritten st (column_names user_sparse_col st) data "user")
    (user_sparse_unique st) (user_sparse_unique st')
  /\ kept_outside (overwritten mid (column_names user_dense_col st) data "user")
       (user_dense_unique st) (user_dense_unique st')
  /\ item_sparse_unique st' = item_sparse_unique st
  /\ item_dense_unique st' = item_dense_unique st.
Proof.
  intros mid st'.
  pose proof (assign_sparse_user_kept st data) as Hsparse. fold mid in Hsparse.
  pose proof (assign_dense_user_kept mid data) as Hdense.
  assert (forall T (keep : DataInfo -> T),
             ignores keep write_user_sparse_unique -> keep mid = keep st) as Hmid.
  { intros T keep Hkeep. apply unchanged_assign_sparse_features; other_matrix. }
  assert (forall T (keep : DataInfo -> T),
             ignores keep write_user_dense_unique ->
             keep (assign_dense_features data "user" mid).2 = keep mid) as Hlast.
  { intros T keep Hkeep. apply unchanged_assign_dense_features; other_matrix. }
  assert (column_names user_dense_col mid = column_names user_dense_col st)
    as Hnames
    by (apply column_names_mapping, (Hmid _ col_name_mapping); setter_cases).
  rewrite Hnames in Hdense.
  rewrite (Hmid _ user_dense_unique) in Hdense by (setter_cases).
  assert (st' = mid \/ st' = (assign_dense_features data "user" mid).2) as [-> | ->].
  { unfold st', assign_user_features. rewrite bind_run. unfold mid.
    destruct (assign_sparse_features data "user" st) as [[[] | e] s1]; simpl; auto. }
  - split_and!; [done | | |].
    + rewrite (Hmid _ user_dense_unique) by (setter_cases).
      apply kept_outside_refl.
    + apply (Hmid _ item_sparse_unique). setter_cases.
    + apply (Hmid _ item_dense_unique). setter_cases.
  - split_and!; [| done | |].
    + by rewrite (Hlast _ user_sparse_unique) by (setter_cases).
    + rewrite (Hlast _ item_sparse_unique) by (setter_cases).
      apply (Hmid _ item_sparse_unique). setter_cases.
    + rewrite (Hlast _ item_dense_unique) by (setter_cases).
      apply (Hmid _ item_dense_unique). setter_cases.
Qed.

Lemma assign_item_features_kept st data :
  let mid := (assign_sparse_features data "item" st).2 in
  let st' := (assign_item_features data st).2 in
  kept_outside (overwritten st (column_names item_sparse_col st) data "item")
    (item_sparse_unique st) (item_sparse_unique st')
  /\ kept_outside (overwritten mid (column_names item_dense_col st) data "item")
       (item_dense_unique st) (item_dense_unique st')
  /\ user_sparse_unique st' = user_sparse_unique st
  /\ user_dense_unique st' = user_dense_unique st.
Proof.
  intros mid st'.
  pose proof (assign_sparse_item_kept st data) as Hsparse. fold mid in Hsparse.
  pose proof (assign_dense_item_kept mid data) as Hdense.
  assert (forall T (keep : DataInfo -> T),
             ignores keep write_item_sparse_unique -> keep mid = keep st) as Hmid.
  { intros T keep Hkeep. apply unchanged_assign_sparse_features; other_matrix. }
  assert (forall T (keep : DataInfo -> T),
             ignores keep write_item_dense_unique ->
             keep (assign_dense_features data "item" mid).2 = keep mid) as Hlast.
  { intros T keep Hkeep. apply unchanged_assign_dense_features; other_matrix. }
  assert (column_names item_dense_col mid = column_names item_dense_col st)
    as Hnames
    by (apply column_names_mapping, (Hmid _ col_name_mapping); setter_cases).
  rewrite Hnames in Hdense.
  rewrite (Hmid _ item_dense_unique) in Hdense by (setter_cases).
  assert (st' = mid \/ st' = (assign_dense_features data "item" mid).2) as [-> | ->].
  { unfold st', assign_item_features. rewrite bind_run. unfold mid.
    destruct (assign_sparse_features data "item" st) as [[[] | e] s1]; simpl; auto. }
  - split_and!; [done | | |].
    + rewrite (Hmid _ item_dense_unique) by (setter_cases).
      apply kept_outside_refl.
    + apply (Hmid _ user_sparse_unique). setter_cases.
    + apply (Hmid _ user_dense_unique). setter_cases.
  - split_and!; [| done | |].
    + by rewrite (Hlast _ item_sparse_unique) by (setter_cases).
    + rewrite (Hlast _ user_sparse_unique) by (setter_cases).
      apply (Hmid _ user_sparse_unique). setter_cases.
    + rewrite (Hlast _ user_dense_unique) by (setter_cases).
      apply (Hmid _ user_dense_unique). setter_cases.
Qed.

(** C9.  Whatever [assign_user_features] or [assign_item_features] returns
    or raises, each unique feature matrix of the mode keeps its shape and
    every entry that is not both in a column whose name is a column of the
    incoming frame and in a row addressed by an incoming id as [check_oov]
    resolved it; in particular a column whose name is absent from the frame
    keeps all its values.  The matrices of the other mode are untouched.
    ([check_oov] runs once for the sparse and once for the dense matrix; the
    second run starts in the state [mid] that the sparse assignment left.) *)
Theorem assign_features_keep_unaddressed (st : DataInfo) (data : Frame) :
  (let mid := (assign_sparse_features data "user" st).2 in
   let st' := (assign_user_features data st).2 in
   kept_outside (overwritten st (column_names user_sparse_col st) data "user")
     (user_sparse_unique st) (user_sparse_unique st')
   /\ kept_outside (overwritten mid (column_names user_dense_col st) data "user")
        (user_dense_unique st) (user_dense_unique st')
   /\ item_sparse_unique st' = item_sparse_unique st
   /\ item_dense_unique st' = item_dense_unique st)
  /\ (let mid := (assign_sparse_features data "item" st).2 in
      let st' := (assign_item_features data st).2 in
      kept_outside (overwritten st (column_names item_sparse_col st) data "item")
        (item_sparse_unique st) (item_sparse_unique st')
      /\ kept_outside (overwritten mid (column_names item_dense_col st) data "item")
           (item_dense_unique st) (item_dense_unique st')
      /\ user_sparse_unique st' = user_sparse_unique st
      /\ user_dense_unique st' = user_dense_unique st).
Proof.
  split; [apply assign_user_features_kept | apply assign_item_features_kept].
Qed.
End AssignFeatures.

(** What [kept_outside] says of a column that the frame does not have. *)
Lemma kept_outside_absent_column `{FeatureHelpers} {A} st names data mode
    (m m' : Matrix A) c nm :
  kept_outside (overwritten st names data mode) (Some m) (Some m') ->
  names !! c = Some nm -> nm ∉ frame_columns data ->
  forall r, entry m' r c = entry m r c.
Proof.
  intros (_ & _ & Hkept) Hnm Habsent r. apply Hkept.
  intros [(nm' & Hnm' & Hpresent) _]. congruence.
Qed.

Lemma example_profile_data_info_constructed :
  __init__ example_profile_args = Ok example_profile_data_info.
Proof. vm_compute. reflexivity. Qed.

(** A partial update with the helpers modelled from the spec: the sex of
    user 2 (row 1) is overwritten, the "age" column and the other rows keep
    their values, and the unknown user 7 addresses no row. *)
Example assign_user_features_partial_update :
  let st' := (assign_user_features example_partial_update example_profile_data_info).2 in
  user_sparse_unique example_profile_data_info
    = Some (mkMatrix 2 [[0; 3]; [1; 4]; [2; 5]])
  /\ user_sparse_unique st' = Some (mkMatrix 2 [[0; 3]; [0; 4]; [2; 5]]).
Proof. vm_compute. done. Qed.

(** ** Persistence *)

(** C4, as written, fails for an object that has grown since its arguments
    were stored: [save] writes [all_args], and
    [expand_sparse_unique_vals_and_matrix] binds [user_unique_vals] to a new
    array ([np.append]) while [all_args] keeps the old one, so the loaded
    object does not know user 3. *)
Lemma round_trip_loses_growth : ~ round_trip_from_every_state.
Proof.
  intros Hclaim.
  destruct (Hclaim example_grown_data_info "models" "cf" empty_world)
    as (st' & Hload & Hobserved).
  vm_compute in Hload. injection Hload as <-.
  vm_compute in Hobserved. discriminate.
Qed.

Lemma append_assoc (s1 s2 s3 : string) : (s1 +:+ s2) +:+ s3 = s1 +:+ (s2 +:+ s3).
Proof.
  induction s1 as [| c s1 IH]; [done |].
  change (String c ((s1 +:+ s2) +:+ s3) = String c (s1 +:+ (s2 +:+ s3))).
  by rewrite IH.
Qed.

Lemma archive_path path model_name :
  path_join path (model_name +:+ "_data_info") +:+ ".npz"
  = path_join path (model_name +:+ "_data_info.npz").
Proof. unfold path_join. by rewrite !append_assoc. Qed.

Lemma archive_path_ne path model_name :
  path_join path (model_name +:+ "_data_info.npz")
  <> path_join path (model_name +:+ "_data_info_name_mapping.json").
Proof.
  unfold path_join. intros Heq.
  do 3 apply (inj (String.append _)) in Heq. discriminate.
Qed.

(** What [save] leaves in the world. *)
Lemma save_world st path model_name w :
  let w' := (save st path model_name w).2 in
  let json := path_join path (model_name +:+ "_data_info_name_mapping.json") in
  path_exists w' path = true
  /\ files w' !! path_join path (model_name +:+ "_data_info.npz")
     = Some (NpzFile (foldl save_arg [] (signature (all_args st))))
  /\ files w' !! json
     = match col_name_mapping st with
       | Some _ => Some (JsonFile (arg_col_name_mapping (all_args st)))
       | None => files w !! json
       end.
Proof.
  intros w' json. subst w'. unfold save. rewrite archive_path.
  pose proof (archive_path_ne path model_name) as Hne.
  set (npz := path_join path (model_name +:+ "_data_info.npz")) in *.
  fold json in Hne |- *.
  set (hparams := foldl save_arg [] _).
  unfold path_exists, write_file, makedirs, print,
    mbind, M_bind, mret, M_ret, modify, get.
  destruct (bool_decide_reflect (path ∈ folders w)) as [Hin | Hout];
    destruct (col_name_mapping st); simpl.
  all: split_and!;
    [ apply orb_true_iff; left; apply bool_decide_eq_true; set_solver
    | by rewrite lookup_insert_eq
    | rewrite lookup_insert_ne by done; by rewrite ?lookup_insert_eq ].
Qed.

(** ** The archive that [save] writes *)

Lemma prefix_cons a s1 b s2 :
  String.prefix (String a s1) (String b s2)
  = if Ascii.ascii_dec a b then String.prefix s1 s2 else false.
Proof. reflexivity. Qed.

Lemma prefix_append (pre c : string) : String.prefix pre (pre +:+ c) = true.
Proof.
  induction pre as [| a pre IH]; [by destruct c |].
  change (String.prefix (String a pre) (String a (pre +:+ c)) = true).
  rewrite prefix_cons. by destruct (Ascii.ascii_dec a a).
Qed.

Lemma munique_not_unique k :
  String.prefix "munique_" k = true -> String.prefix "unique_" k = false.
Proof.
  destruct k as [| c k]; [done |]. rewrite !prefix_cons.
  match goal with
  | |- context [Ascii.ascii_dec ?a c] => by destruct (Ascii.ascii_dec a c) as [<- |]
  end.
Qed.

Lemma parameter_no_prefix k :
  k ∈ parameters ->
  String.prefix "unique_" k = false /\ String.prefix "munique_" k = false.
Proof.
  unfold parameters. intros Hk.
  repeat (apply elem_of_cons in Hk as [-> | Hk]; [done |]).
  by apply elem_of_nil in Hk.
Qed.

Lemma dict_get_None {V} k (d : list (string * V)) :
  dict_get k d = None <-> k ∉ d.*1.
Proof.
  split.
  - intros Hget Hin. apply (dict_get_key k d) in Hin as [v Hv]. congruence.
  - induction d as [| [k' v'] d IH]; simpl; [done |].
    intros Hout. destruct (decide (k = k')) as [-> | Hne].
    + exfalso. apply Hout, elem_of_cons. by left.
    + apply IH. intros Hin. apply Hout, elem_of_cons. by right.
Qed.

Lemma dict_set_new_key {V} k (v : V) d :
  dict_get k d = None -> (dict_set k v d).*1 = d.*1 ++ [k].
Proof.
  induction d as [| [k' v'] d IH]; simpl; [done |].
  destruct (decide (k = k')) as [-> | Hne]; simpl; [done |].
  intros Hget. f_equal. by apply IH.
Qed.

Lemma dict_set_NoDup {V} k (v : V) d : NoDup d.*1 -> NoDup (dict_set k v d).*1.
Proof.
  intros Hd. destruct (dict_get k d) as [v0 |] eqn:Hget.
  - by rewrite (dict_set_keys k v v0).
  - rewrite dict_set_new_key by done. apply NoDup_app. split; [done |].
    split; [| apply NoDup_singleton].
    intros k' Hk' ->%list_elem_of_singleton. by apply dict_get_None in Hget.
Qed.

Lemma Forall_dict_set {V} (P : string * V -> Prop) k v d :
  P (k, v) -> Forall P d -> Forall P (dict_set k v d).
Proof.
  intros Hkv. induction 1 as [| [k' v'] d Hk' Hd IH]; simpl.
  - by repeat constructor.
  - destruct (decide (k = k')); constructor; done.
Qed.

(** The columns of a dictionary of unique values, stored one key each. *)
Section SaveColumns.
Context (pre : string) (k : string) (P : string * Value -> Prop).

Lemma save_columns_NoDup (d : list (string * list Z)) h :
  NoDup h.*1 ->
  NoDup (foldl (fun h cv => dict_set (pre +:+ cv.1) (VIntArray cv.2) h) h d).*1.
Proof.
  revert h. induction d as [| cv d IH]; intros h Hh; simpl; [done |].
  by apply IH, dict_set_NoDup.
Qed.

Lemma save_columns_Forall (d : list (string * list Z)) h :
  (forall c a, P (pre +:+ c, VIntArray a)) ->
  Forall P h ->
  Forall P (foldl (fun h cv => dict_set (pre +:+ cv.1) (VIntArray cv.2) h) h d).
Proof.
  intros HP. revert h. induction d as [| cv d IH]; intros h Hh; simpl; [done |].
  by apply IH, Forall_dict_set.
Qed.

Lemma save_columns_get (d : list (string * list Z)) h :
  String.prefix pre k = false ->
  dict_get k (foldl (fun h cv => dict_set (pre +:+ cv.1) (VIntArray cv.2) h) h d)
  = dict_get k h.
Proof.
  intros Hk. revert h. induction d as [| cv d IH]; intros h; simpl; [done |].
  rewrite IH. apply dict_get_set_ne. intros ->.
  by rewrite prefix_append in Hk.
Qed.
End SaveColumns.

Lemma save_arg_NoDup h av : NoDup h.*1 -> NoDup (save_arg h av).*1.
Proof.
  intros Hh. unfold save_arg. destruct av.2 as [v |]; [| done].
  repeat (destruct (decide _); [try done; destruct v; try done;
                                  by apply save_columns_NoDup |]).
  by apply dict_set_NoDup.
Qed.

Lemma save_arg_archived h av :
  (forall v, av.2 = Some v -> av.1 = "col_name_mapping"
             \/ av.1 = "sparse_unique_vals" \/ av.1 = "multi_sparse_unique_vals"
             \/ archived (av.1, v)) ->
  Forall archived h -> Forall archived (save_arg h av).
Proof.
  intros Hav Hh. unfold save_arg. destruct av.2 as [v |]; [| done].
  destruct (decide _); [done |].
  destruct (decide _).
  { destruct v; try done. apply save_columns_Forall; [| done].
    intros c a. left. split; [apply prefix_append | by exists a]. }
  destruct (decide _).
  { destruct v; try done. apply save_columns_Forall; [| done].
    intros c a. right. left. split; [apply prefix_append | by exists a]. }
  apply Forall_dict_set; [| done].
  by destruct (Hav v eq_refl) as [? | [? | [? | ?]]].
Qed.

Lemma save_arg_get k h av :
  plain k -> k <> "col_name_mapping" ->
  dict_get k (save_arg h av)
  = match av.2 with
    | Some v => if decide (k = av.1) then Some v else dict_get k h
    | None => dict_get k h
    end.
Proof.
  intros (Hk & Hsparse & Hmulti) Hmapping.
  destruct (parameter_no_prefix k Hk) as [Hunique Hmunique].
  unfold save_arg. destruct av.2 as [v |]; [| done].
  destruct (decide (av.1 = _)) as [-> |]; [by destruct (decide _) |].
  destruct (decide (av.1 = _)) as [-> |].
  { destruct (decide _); [done |].
    destruct v; try done. by apply save_columns_get. }
  destruct (decide (av.1 = _)) as [-> |].
  { destruct (decide _); [done |].
    destruct v; try done. by apply save_columns_get. }
  destruct (decide (k = av.1)) as [-> | Hne].
  - apply dict_get_set_eq.
  - by apply dict_get_set_ne.
Qed.

Lemma foldl_save_arg_NoDup sig h : NoDup h.*1 -> NoDup (foldl save_arg h sig).*1.
Proof.
  revert h. induction sig as [| av sig IH]; intros h Hh; simpl; [done |].
  by apply IH, save_arg_NoDup.
Qed.

Lemma foldl_save_arg_get k sig h :
  plain k -> k <> "col_name_mapping" -> NoDup sig.*1 ->
  dict_get k (foldl save_arg h sig)
  = match dict_get k sig with
    | Some (Some v) => Some v
    | _ => dict_get k h
    end.
Proof.
  intros Hk Hmapping. revert h.
  induction sig as [| [k' v'] sig IH]; intros h Hsig; simpl; [done |].
  apply NoDup_cons in Hsig as [Hk' Hsig]. simpl in Hk'.
  rewrite IH, save_arg_get by done. simpl.
  destruct (decide (k = k')) as [-> | Hne].
  - apply dict_get_None in Hk'. rewrite Hk'. by destruct v'.
  - by destruct v'.
Qed.

Lemma signature_NoDup a : NoDup (signature a).*1.
Proof. apply (bool_decide_unpack _). vm_compute. exact I. Qed.

Lemma saved_NoDup a : NoDup (foldl save_arg [] (signature a)).*1.
Proof. apply foldl_save_arg_NoDup, NoDup_nil_2. Qed.

Lemma saved_get a k :
  plain k -> k <> "col_name_mapping" ->
  dict_get k (foldl save_arg [] (signature a)) = mjoin (dict_get k (signature a)).
Proof.
  intros Hk Hmapping.
  rewrite foldl_save_arg_get by (done || apply signature_NoDup).
  by destruct (dict_get k (signature a)) as [[v |] |].
Qed.

Lemma foldl_save_arg_archived sig h :
  Forall (fun av => forall v, av.2 = Some v ->
            av.1 = "col_name_mapping" \/ av.1 = "sparse_unique_vals"
            \/ av.1 = "multi_sparse_unique_vals" \/ archived (av.1, v)) sig ->
  Forall archived h -> Forall archived (foldl save_arg h sig).
Proof.
  intros Hsig. revert h.
  induction Hsig as [| av sig Hav Hsig IH]; intros h Hh; simpl; [done |].
  by apply IH, save_arg_archived.
Qed.

Lemma saved_archived a : Forall archived (foldl save_arg [] (signature a)).
Proof.
  apply foldl_save_arg_archived; [| done].
  unfold signature. repeat apply Forall_cons_2; try apply Forall_nil_2.
  all: intros v Hv; simpl in *.
  all: first [ by left | by right; left | by right; right; left | idtac ].
  all: do 3 right; right; right; simpl.
  all: split_and!;
    [ split_and!; [apply (bool_decide_unpack _); vm_compute; exact I | done ..]
    | done
    | try done
    | try done ].
  - intros _. destruct (arg_interaction_data a); simplify_eq/=. eauto.
  - intros _. destruct (arg_multi_sparse_combine_info a); simplify_eq/=. eauto.
Qed.

(** ** The keyword dictionary that [load] rebuilds *)

Lemma set_in_dict_loading key col a h :
  key ∈ parameters ->
  (forall v, dict_get key h = Some v -> exists d, v = VDict d) ->
  exists d, set_in_dict key col (VIntArray a) h
            = Ok (dict_set key (VDict d) (match dict_get key h with
                                          | None => dict_set key (VDict []) h
                                          | Some _ => h
                                          end)).
Proof.
  intros Hkey Hdict. unfold set_in_dict.
  destruct (dict_get key h) as [v |] eqn:Hget.
  - destruct (Hdict v eq_refl) as [d ->]. rewrite Hget. eauto.
  - rewrite dict_get_set_eq. eauto.
Qed.

Lemma load_arg_ok h av :
  loading h -> archived av ->
  exists h', load_arg h av = Ok h' /\ loading h'
             /\ forall k, plain k ->
                  dict_get k h' = if decide (k = av.1) then Some av.2
                                  else dict_get k h.
Proof.
  intros (Hkeys & Hsparse & Hmulti) Hav. unfold load_arg.
  destruct Hav as [[Hpre [a Ha]] | [[Hpre [a Ha]] | (Hplain & Hne & Hrows & Hinfo)]].
  - (* a column of [sparse_unique_vals] *)
    destruct (decide (av.1 = _)) as [Heq |];
      [rewrite Heq in Hpre; discriminate |].
    destruct (decide (av.1 = _)) as [Heq |];
      [rewrite Heq in Hpre; discriminate |].
    rewrite Hpre, Ha.
    destruct (set_in_dict_loading "sparse_unique_vals" (str_drop 7 av.1) a h)
      as [d ->]; [apply (bool_decide_unpack _); vm_compute; exact I | done |].
    eexists. split; [done |]. unfold loading. split_and!.
    + apply Forall_dict_set; [apply (bool_decide_unpack _); vm_compute; exact I |].
      destruct (dict_get "sparse_unique_vals" h); [done |].
      apply Forall_dict_set; [apply (bool_decide_unpack _); vm_compute; exact I | done].
    + intros v. rewrite dict_get_set_eq. intros [= <-]. eauto.
    + intros v. rewrite dict_get_set_ne by done.
      destruct (dict_get "sparse_unique_vals" h); [apply Hmulti |].
      rewrite dict_get_set_ne by done. apply Hmulti.
    + intros k (Hk & Hk1 & Hk2).
      destruct (decide (k = av.1)) as [-> | _];
        [apply parameter_no_prefix in Hk as [Hk _]; congruence |].
      rewrite dict_get_set_ne by done.
      destruct (dict_get "sparse_unique_vals" h); [done |].
      by rewrite dict_get_set_ne.
  - (* a column of [multi_sparse_unique_vals] *)
    destruct (decide (av.1 = _)) as [Heq |];
      [rewrite Heq in Hpre; discriminate |].
    destruct (decide (av.1 = _)) as [Heq |];
      [rewrite Heq in Hpre; discriminate |].
    rewrite (munique_not_unique _ Hpre), Hpre, Ha.
    destruct (set_in_dict_loading "multi_sparse_unique_vals" (str_drop 8 av.1) a h)
      as [d ->]; [apply (bool_decide_unpack _); vm_compute; exact I | done |].
    eexists. split; [done |]. unfold loading. split_and!.
    + apply Forall_dict_set; [apply (bool_decide_unpack _); vm_compute; exact I |].
      destruct (dict_get "multi_sparse_unique_vals" h); [done |].
      apply Forall_dict_set; [apply (bool_decide_unpack _); vm_compute; exact I | done].
    + intros v. rewrite dict_get_set_ne by done.
      destruct (dict_get "multi_sparse_unique_vals" h); [apply Hsparse |].
      rewrite dict_get_set_ne by done. apply Hsparse.
    + intros v. rewrite dict_get_set_eq. intros [= <-]. eauto.
    + intros k (Hk & Hk1 & Hk2).
      destruct (decide (k = av.1)) as [-> | _];
        [apply parameter_no_prefix in Hk as [_ Hk]; congruence |].
      rewrite dict_get_set_ne by done.
      destruct (dict_get "multi_sparse_unique_vals" h); [done |].
      by rewrite dict_get_set_ne.
  - (* a parameter stored under its own name *)
    destruct Hplain as (Hparam & Hne1 & Hne2).
    destruct (parameter_no_prefix _ Hparam) as [Hunique Hmunique].
    assert (exists h', Ok (dict_set av.1 av.2 h) = Ok h' /\ loading h'
              /\ forall k, plain k ->
                   dict_get k h' = if decide (k = av.1) then Some av.2
                                   else dict_get k h) as Hset.
    { eexists. split; [done |]. unfold loading. split_and!.
      - by apply Forall_dict_set.
      - intros v. rewrite dict_get_set_ne by done. apply Hsparse.
      - intros v. rewrite dict_get_set_ne by done. apply Hmulti.
      - intros k _. destruct (decide (k = av.1)) as [-> | ?].
        + apply dict_get_set_eq.
        + by apply dict_get_set_ne. }
    destruct (decide (av.1 = _)) as [Heq |].
    { destruct (Hrows Heq) as [rows Hv]. rewrite Hv in *. exact Hset. }
    destruct (decide (av.1 = _)) as [Heq |].
    { destruct (Hinfo Heq) as [i Hv]. rewrite Hv in *. exact Hset. }
    rewrite Hunique, Hmunique. exact Hset.
Qed.

Lemma load_args_ok info : forall h,
  loading h -> Forall archived info -> NoDup info.*1 ->
  exists h', load_args h info = Ok h' /\ loading h'
             /\ forall k, plain k ->
                  dict_get k h' = match dict_get k info with
                                  | Some v => Some v
                                  | None => dict_get k h
                                  end.
Proof.
  induction info as [| [k0 v0] info IH]; intros h Hh Hinfo Hkeys; simpl.
  - by exists h.
  - apply Forall_cons in Hinfo as [Hav Hinfo].
    apply NoDup_cons in Hkeys as [Hk0 Hkeys]. simpl in Hk0.
    destruct (load_arg_ok h (k0, v0) Hh Hav) as (h1 & -> & Hh1 & Hget1). simpl.
    destruct (IH h1 Hh1 Hinfo Hkeys) as (h' & -> & Hh' & Hget').
    exists h'. split; [done |]. split; [done |].
    intros k Hk. rewrite Hget', Hget1 by done. simpl.
    destruct (decide (k = k0)) as [-> | Hne]; [| done].
    apply dict_get_None in Hk0. by rewrite Hk0.
Qed.

Lemma saved_no_mapping a :
  dict_get "col_name_mapping" (foldl save_arg [] (signature a)) = None.
Proof.
  apply dict_get_None. intros Hin.
  apply list_elem_of_fmap in Hin as (av & Hkey & Hin).
  pose proof (saved_archived a) as Harchived.
  rewrite Forall_forall in Harchived. apply Harchived in Hin.
  destruct Hin as [[Hpre _] | [[Hpre _] | (_ & Hne & _)]];
    [rewrite <- Hkey in Hpre; discriminate .. | done].
Qed.

Lemma keyword_stored {A} key (proj : Value -> option A) (inj : A -> Value)
    (x : option A) h :
  (forall y, proj (inj y) = Some y) ->
  dict_get key h = inj <$> x -> keyword key proj h = Ok x.
Proof.
  intros Hproj Hget. unfold keyword. rewrite Hget.
  destruct x as [y |]; simpl; [by rewrite Hproj | done].
Qed.

Lemma keyword_dict key h :
  (forall v, dict_get key h = Some v -> exists d, v = VDict d) ->
  exists d, keyword key as_dict h = Ok d.
Proof.
  intros Hdict. unfold keyword. destruct (dict_get key h) as [v |]; [| by eauto].
  destruct (Hdict v eq_refl) as [d ->]. simpl. eauto.
Qed.

Lemma plain_parameter k :
  k ∈ parameters -> k <> "sparse_unique_vals" -> k <> "multi_sparse_unique_vals" ->
  plain k.
Proof. done. Qed.

(** The keyword arguments that [load] passes to the constructor are the
    stored ones, up to the two dictionaries. *)
Lemma bind_kwargs_loaded a h0 h :
  loading h ->
  (forall k, plain k ->
     dict_get k h = match dict_get k (foldl save_arg [] (signature a)) with
                    | Some v => Some v
                    | None => dict_get k h0
                    end) ->
  (forall k, k <> "col_name_mapping" -> dict_get k h0 = None) ->
  dict_get "col_name_mapping" h0 = VMapping <$> (Some (arg_col_name_mapping a))
  \/ (dict_get "col_name_mapping" h0 = None /\ arg_col_name_mapping a = None) ->
  exists a', bind_kwargs h = Ok a' /\ plain_args a' = plain_args a.
Proof.
  intros (Hkeys & Hsparse & Hmulti) Hget Hother Hmapping.
  assert (forall k, plain k -> k <> "col_name_mapping" ->
            dict_get k h = mjoin (dict_get k (signature a))) as Hstored.
  { intros k Hk Hne. rewrite Hget, saved_get by done.
    destruct (mjoin _); [done | by apply Hother]. }
  unfold bind_kwargs.
  assert (forallb (fun k => bool_decide (k ∈ parameters)) h.*1 = true) as ->.
  { apply forallb_forall. intros k Hk. apply bool_decide_eq_true.
    apply list_elem_of_In, list_elem_of_fmap in Hk as (kv & -> & Hkv).
    rewrite Forall_forall in Hkeys. by apply Hkeys. }
  assert (exists cnm, keyword "col_name_mapping" as_mapping h = Ok cnm
                      /\ mjoin cnm = arg_col_name_mapping a) as (cnm & -> & Hcnm).
  { unfold keyword. rewrite Hget, saved_no_mapping
      by (apply plain_parameter; [apply (bool_decide_unpack _); vm_compute; exact I | done ..]).
    destruct Hmapping as [-> | [-> ->]]; simpl; eauto. }
  destruct (keyword_dict "sparse_unique_vals" h Hsparse) as [d1 Hd1].
  destruct (keyword_dict "multi_sparse_unique_vals" h Hmulti) as [d2 Hd2].
  rewrite Hd1, Hd2.
  rewrite (keyword_stored "interaction_data" _ VInteractions (arg_interaction_data a)),
    (keyword_stored "user_sparse_unique" _ VIntMatrix (arg_user_sparse_unique a)),
    (keyword_stored "user_dense_unique" _ VFloatMatrix (arg_user_dense_unique a)),
    (keyword_stored "item_sparse_unique" _ VIntMatrix (arg_item_sparse_unique a)),
    (keyword_stored "item_dense_unique" _ VFloatMatrix (arg_item_dense_unique a)),
    (keyword_stored "user_indices" _ VIntArray (arg_user_indices a)),
    (keyword_stored "item_indices" _ VIntArray (arg_item_indices a)),
    (keyword_stored "user_unique_vals" _ VIntArray (arg_user_unique_vals a)),
    (keyword_stored "item_unique_vals" _ VIntArray (arg_item_unique_vals a)),
    (keyword_stored "sparse_offset" _ VIntArray (arg_sparse_offset a)),
    (keyword_stored "sparse_oov" _ VIntArray (arg_sparse_oov a)),
    (keyword_stored "multi_sparse_combine_info" _ VInfo (arg_multi_sparse_combine_info a)).
  all: try done.
  all: try (rewrite Hstored;
            [ reflexivity
            | apply plain_parameter;
                [apply (bool_decide_unpack _); vm_compute; exact I | done ..]
            | done ]).
  simpl. eexists. split; [done |]. unfold plain_args. simpl. by rewrite Hcnm.
Qed.

(** ** The constructor does not read the dictionaries *)

Section Commutes.
Context {S V : Type} (put : V -> S -> S).

Lemma commutes_ret {A} (a : A) : commutes put (mret a).
Proof. done. Qed.

Lemma commutes_raise {A} (e : exn) : commutes put (raise e : M S A).
Proof. done. Qed.

Lemma commutes_lift {A} (o : outcome A) : commutes put (lift o).
Proof. done. Qed.

Lemma commutes_not_none {A} (x : option A) : commutes put (not_none x).
Proof. by destruct x. Qed.

Lemma commutes_modify (f : S -> S) :
  (forall v s, f (put v s) = put v (f s)) -> commutes put (modify f).
Proof. intros Hf v s. unfold modify. simpl. by rewrite Hf. Qed.

Lemma commutes_bind {A B} (m : M S A) (f : A -> M S B) :
  commutes put m -> (forall a, commutes put (f a)) -> commutes put (m ≫= f).
Proof.
  intros Hm Hf v s. rewrite !bind_run, Hm.
  destruct (m s) as [[a | e] s']; simpl; [apply Hf | done].
Qed.

(** A computation that starts by reading the state commutes when what it
    goes on to do does not depend on what [put] sets. *)
Lemma commutes_get {B} (f : S -> M S B) :
  (forall v s t, f (put v s) t = f s t) ->
  (forall s, commutes put (f s)) -> commutes put (get ≫= f).
Proof.
  intros Hread Hf v s. rewrite !bind_run. unfold get. cbv beta iota.
  rewrite Hread. apply Hf.
Qed.

Lemma commutes_for_each {A} (l : list A) (body : A -> M S unit) :
  (forall x, commutes put (body x)) -> commutes put (for_each l body).
Proof.
  intros Hbody. induction l as [| x l IH]; simpl; [done |].
  apply commutes_bind; [apply Hbody | intros _; apply IH].
Qed.
End Commutes.

Ltac commute_step :=
  lazymatch goal with
  | |- commutes _ (mret _) => apply commutes_ret
  | |- commutes _ (raise _) => apply commutes_raise
  | |- commutes _ (lift _) => apply commutes_lift
  | |- commutes _ (not_none _) => apply commutes_not_none
  | |- commutes _ (modify _) => apply commutes_modify; by intros ? ?
  | |- commutes _ (get ≫= _) => apply commutes_get; [by intros ? ? ? | intros ?]
  | |- commutes _ (_ ≫= _) => apply commutes_bind; [| intros ?]
  | |- commutes _ (match ?x with _ => _ end) => destruct x
  end.

Lemma commutes_column_family fam : commutes with_dicts (column_family fam).
Proof. unfold column_family. repeat commute_step. Qed.

Lemma commutes_n_users : commutes with_dicts n_users.
Proof. unfold n_users, set_cache. repeat commute_step. Qed.

Lemma commutes_n_items : commutes with_dicts n_items.
Proof. unfold n_items, set_cache. repeat commute_step. Qed.

Ltac commute :=
  repeat
    lazymatch goal with
    | |- commutes _ n_users => apply commutes_n_users
    | |- commutes _ n_items => apply commutes_n_items
    | |- commutes _ (column_family _) => apply commutes_column_family
    | |- _ => commute_step
    end.

Lemma commutes_user2id : commutes with_dicts user2id.
Proof. unfold user2id, set_cache. commute. Qed.

Lemma commutes_item2id : commutes with_dicts item2id.
Proof. unfold item2id, set_cache. commute. Qed.

Lemma commutes_set_popular_items num : commutes with_dicts (set_popular_items num).
Proof. unfold set_popular_items. commute. Qed.

Lemma commutes_sparse_oov_row fam :
  commutes with_dicts (sparse_oov_row (column_family fam)).
Proof. unfold sparse_oov_row. commute. Qed.

Lemma commutes_add_oov_block {A} (unique : DataInfo -> option (Matrix A))
    put_unique n_entities oov_row :
  (forall v s, unique (with_dicts v s) = unique s) ->
  (forall x v s, put_unique x (with_dicts v s) = with_dicts v (put_unique x s)) ->
  commutes with_dicts n_entities ->
  (forall m, commutes with_dicts (oov_row m)) ->
  commutes with_dicts (add_oov_block unique put_unique n_entities oov_row).
Proof.
  intros Hunique Hput Hn Hrow. unfold add_oov_block.
  apply commutes_get; [intros v s t; by rewrite Hunique | intros s].
  destruct (unique s) as [m |]; [| apply commutes_ret].
  apply commutes_bind; [done | intros n].
  destruct (decide _); [| apply commutes_ret].
  apply commutes_bind; [apply Hrow | intros oov].
  apply commutes_bind; [apply commutes_lift | intros m'].
  apply commutes_modify. intros v t. apply Hput.
Qed.

Lemma commutes_add_oov : commutes with_dicts add_oov.
Proof.
  unfold add_oov.
  repeat (apply commutes_bind; [| intros _]).
  all: apply commutes_add_oov_block; try done.
  all: first [ apply commutes_n_users | apply commutes_n_items
             | intros m; apply commutes_sparse_oov_row
             | intros m; apply commutes_ret ].
Qed.

Lemma observed_with_dicts d st : observed (with_dicts d st) = observed st.
Proof.
  unfold observed, value_of.
  pose proof (commutes_user2id d st) as Huser.
  pose proof (commutes_item2id d st) as Hitem.
  rewrite Huser, Hitem. reflexivity.
Qed.

(** What the constructor makes observable depends on the plain arguments
    only. *)
Lemma init_observed a a' :
  plain_args a' = plain_args a ->
  outcome_map observed (__init__ a') = outcome_map observed (__init__ a).
Proof.
  intros Hplain. unfold __init__.
  assert (arg_user_indices a' = arg_user_indices a) as ->
    by (unfold plain_args in Hplain; congruence).
  assert (arg_item_indices a' = arg_item_indices a) as ->
    by (unfold plain_args in Hplain; congruence).
  destruct (arg_user_indices a) as [user_indices |]; [| done].
  destruct (arg_item_indices a) as [item_indices |]; [| done].
  set (consumed := interaction_consumed user_indices item_indices).
  set (construct := add_oov ≫= _).
  assert (commutes with_dicts construct) as Hconstruct.
  { apply commutes_bind; [apply commutes_add_oov | intros _].
    apply commutes_get; [by intros ? ? ? | intros st].
    destruct (popular_items st);
      [apply commutes_ret | apply commutes_set_popular_items]. }
  assert (initial_state a' consumed
          = with_dicts
              (mkDicts (arg_sparse_unique_vals a')
                 (map_unique_vals (arg_sparse_unique_vals a'))
                 (arg_multi_sparse_unique_vals a')
                 (map_unique_vals (arg_multi_sparse_unique_vals a')) a')
              (initial_state a consumed)) as ->.
  { unfold plain_args in Hplain. destruct a, a'. simpl in Hplain.
    by simplify_eq. }
  rewrite Hconstruct.
  destruct (construct (initial_state a consumed)) as [[[] | e] st]; simpl; [| done].
  by rewrite observed_with_dicts.
Qed.

(** ** [save] followed by [load] *)

Lemma bind_Ok {A B} (a : A) (f : A -> outcome B) : Ok a ≫= f = f a.
Proof. reflexivity. Qed.

(** [load] after [save] returns what the constructor makes of the stored
    arguments, as far as it is observed. *)
Lemma load_after_save st path model_name w :
  (col_name_mapping st = None ->
   arg_col_name_mapping (all_args st) = None
   /\ files w !! path_join path (model_name +:+ "_data_info_name_mapping.json")
      = None) ->
  outcome_map observed (load path model_name (save st path model_name w).2)
  = outcome_map observed (__init__ (all_args st)).
Proof.
  intros Hmapping.
  destruct (save_world st path model_name w) as (Hexists & Hnpz & Hjson).
  unfold load. rewrite Hexists, Hjson, Hnpz. cbn [negb].
  set (saved := foldl save_arg [] (signature (all_args st))).
  set (h0 := match col_name_mapping st with
             | Some _ => [("col_name_mapping",
                           VMapping (arg_col_name_mapping (all_args st)))]
             | None => []
             end).
  assert (match col_name_mapping st with
          | Some _ => Some (JsonFile (arg_col_name_mapping (all_args st)))
          | None => files w !! path_join path
                      (model_name +:+ "_data_info_name_mapping.json")
          end = (fun _ => JsonFile (arg_col_name_mapping (all_args st)))
                  <$> col_name_mapping st) as ->.
  { destruct (col_name_mapping st); [done |]. by apply Hmapping. }
  assert (loading h0) as Hh0.
  { unfold h0, loading. destruct (col_name_mapping st); split_and!; try done.
    apply Forall_singleton. apply (bool_decide_unpack _). vm_compute. exact I. }
  destruct (load_args_ok saved h0 Hh0 (saved_archived _) (saved_NoDup _))
    as (h & Hload & Hh & Hget).
  destruct (bind_kwargs_loaded (all_args st) h0 h Hh Hget) as (a' & Hbind & Hplain).
  { intros k Hk. unfold h0. destruct (col_name_mapping st); simpl; [| done].
    by destruct (decide _). }
  { unfold h0. destruct (col_name_mapping st); simpl; [by left | right].
    split; [done |]. by apply Hmapping. }
  assert ((match (fun _ => JsonFile (arg_col_name_mapping (all_args st)))
                   <$> col_name_mapping st with
           | Some (JsonFile m) => Ok [("col_name_mapping", VMapping m)]
           | Some (NpzFile _) => Raise (ValueError "Expecting value")
           | None => Ok []
           end) = Ok h0) as ->
    by (unfold h0; by destruct (col_name_mapping st)).
  rewrite !bind_Ok, Hload, bind_Ok, Hbind, bind_Ok. by apply init_observed.
Qed.

(** C4, amended.  [save] writes the constructor arguments kept in
    [all_args], and [load] constructs an object from them.  So when these
    arguments still describe the object (the constructor, run on them,
    returns an object with the same observed part, as right after
    construction) and, for an object without [col_name_mapping], [all_args]
    holds none either and no name-mapping file of an earlier save is picked
    up, [load] after [save] returns an object with the same [user2id],
    [item2id], unique feature matrices and consumption indices. *)
Theorem save_load_round_trip (st st0 : DataInfo) (path model_name : string)
    (w : World) :
  __init__ (all_args st) = Ok st0 ->
  observed st0 = observed st ->
  (col_name_mapping st = None ->
   arg_col_name_mapping (all_args st) = None
   /\ files w !! path_join path (model_name +:+ "_data_info_name_mapping.json")
      = None) ->
  save_load_reproduces st path model_name w.
Proof.
  intros Hinit Hobserved Hmapping.
  pose proof (load_after_save st path model_name w Hmapping) as Hload.
  rewrite Hinit in Hload. unfold save_load_reproduces.
  destruct (load path model_name (save st path model_name w).2) as [st' | e];
    simpl in Hload; [| done].
  exists st'. split; [done |]. congruence.
Qed.

(** The freshly constructed example, saved into an empty world. *)
Lemma save_load_round_trip_witness :
  save_load_reproduces example_feat_data_info "models" "cf" empty_world.
Proof.
  apply (save_load_round_trip example_feat_data_info example_feat_data_info).
  - vm_compute. reflexivity.
  - reflexivity.
  - intros Hnone. vm_compute in Hnone. discriminate.
Defined.

(** The constructor keeps the arguments it was given. *)
Lemma init_keeps_args a st :
  __init__ a = Ok st ->
  all_args st = a /\ col_name_mapping st = arg_col_name_mapping a.
Proof.
  unfold __init__.
  destruct (arg_user_indices a) as [user_indices |]; [| done].
  destruct (arg_item_indices a) as [item_indices |]; [| done].
  set (st0 := initial_state a _).
  set (construct := add_oov ≫= _).
  assert (unchanged (fun s => (all_args s, col_name_mapping s)) construct)
    as Hkeep.
  { apply unchanged_bind.
    - intros s. rewrite add_oov_as_blocks.
      apply (unchanged_for_each (fun s => (all_args s, col_name_mapping s))).
      intros w. apply unchanged_oov_block; by intros ? [].
    - intros _. apply unchanged_bind; [apply unchanged_get | intros s].
      destruct (popular_items s); [apply unchanged_ret |].
      unfold set_popular_items.
      apply unchanged_bind; [apply unchanged_get | intros s'].
      destruct (interaction_data s'); [| apply unchanged_raise].
      apply unchanged_put. by intros ? []. }
  specialize (Hkeep st0).
  destruct (construct st0) as [[[] | e] st1]; [| done].
  intros [= <-]. simpl in Hkeep. by injection Hkeep as -> ->.
Qed.

(** X1.  An object round-trips as the constructor left it: when [__init__]
    returns [st], [save] followed by [load] with the same path and model name
    returns an object with the same [user2id], [item2id], unique feature
    matrices and consumption indices, provided that no name-mapping file of
    an earlier save is picked up for arguments without [col_name_mapping]. *)
Lemma constructed_round_trip a st path model_name w :
  __init__ a = Ok st ->
  (arg_col_name_mapping a = None ->
   files w !! path_join path (model_name +:+ "_data_info_name_mapping.json")
   = None) ->
  save_load_reproduces st path model_name w.
Proof.
  intros Hinit Hfile.
  destruct (init_keeps_args a st Hinit) as [Hargs Hmapping].
  pose proof (load_after_save st path model_name w) as Hload.
  rewrite Hargs, Hmapping, Hinit in Hload.
  specialize (Hload (fun Hnone => conj Hnone (Hfile Hnone))).
  unfold save_load_reproduces.
  destruct (load path model_name (save st path model_name w).2) as [st' | e];
    simpl in Hload; [| done].
  exists st'. split; [done |]. congruence.
Qed.

(** * Further properties of the code *)

(** ** A constructed object round-trips *)

(** The example index, saved to an empty file system and loaded. *)
Lemma constructed_round_trip_witness :
  save_load_reproduces example_data_info "models" "cf" empty_world.
Proof.
  apply (constructed_round_trip example_args).
  - vm_compute. reflexivity.
  - intros _. apply lookup_empty.
Defined.

(** ** The diagnostics of a model are bounded *)

Lemma run_call_diagnostics c self :
  let self' := (run_call c self).2 in
  (length (stdout self') + (10 - print_count self')
   <= length (stdout self) + (10 - print_count self))%nat.
Proof.
  simpl. rewrite run_call_state.
  destruct c as [u i size sims labels | u ids preds n_rec consumed fc rr].
  - destruct (no_neighbor size sims) eqn:Hno.
    + rewrite compute_pred_no_neighbor by done. simpl.
      destruct (decide _); simpl; rewrite ?length_app; simpl; lia.
    + by rewrite compute_pred_neighbors.
  - unfold rank_recommendations.
    destruct (decide (length _ = 0%nat)) as [Hempty | Hsome].
    + unfold incr_print_count, print_event. run_step.
      destruct (decide (print_count self + 1 < 11)%nat); simpl;
        rewrite ?length_app; simpl; lia.
    + destruct (rr && _); unfold put_random_state; run_step; [lia |].
      destruct (np_take _ _); simpl; lia.
Qed.

(** X2.  Over any sequence of calls of [compute_pred] and
    [rank_recommendations] on a model, at most [10 - print_count] lines are
    printed: the counter that the two methods share bounds the diagnostics of
    both together. *)
Theorem diagnostics_bounded (calls : list Call) (self : CfBase) :
  let self' := (run_calls calls self).2 in
  (length (stdout self') <= length (stdout self) + (10 - print_count self))%nat.
Proof.
  simpl.
  enough (length (stdout (run_calls calls self).2)
          + (10 - print_count (run_calls calls self).2)
          <= length (stdout self) + (10 - print_count self))%nat by lia.
  revert self. induction calls as [| c calls IH]; intros self; simpl; [lia |].
  pose proof (run_call_diagnostics c self) as Hc. simpl in Hc.
  specialize (IH (run_call c self).2). lia.
Qed.

(** ** [compute_pred] with neighbours *)

Lemma insert_desc_sorted x l :
  StronglySorted (fun a b : Qc * Qc => (b.2 <= a.2)%Qc) l ->
  StronglySorted (fun a b : Qc * Qc => (b.2 <= a.2)%Qc) (insert_desc x l).
Proof.
  induction 1 as [| y l Hl IH Hy]; simpl; [by repeat constructor |].
  destruct (decide (y.2 < x.2)%Qc) as [Hlt | Hge].
  - constructor; [by constructor |]. constructor; [by apply Qclt_le_weak |].
    eapply Forall_impl; [exact Hy |]. intros z Hz. simpl in Hz.
    apply Qclt_le_weak. by eapply Qcle_lt_trans.
  - constructor; [done |].
    assert (forall z, z ∈ insert_desc x l -> z = x \/ z ∈ l) as Hin.
    { clear. induction l as [| w l IH]; simpl; intros z.
      - intros ->%list_elem_of_singleton. by left.
      - destruct (decide _); rewrite !elem_of_cons; [tauto |].
        intros [-> | Hz]; [tauto |]. destruct (IH z Hz); tauto. }
    apply Forall_forall. intros z [-> | Hz]%Hin.
    + by apply Qcnot_lt_le.
    + rewrite Forall_forall in Hy. by apply Hy.
Qed.

Lemma foldl_insert_desc_sorted l : forall acc,
  StronglySorted (fun a b : Qc * Qc => (b.2 <= a.2)%Qc) acc ->
  StronglySorted (fun a b : Qc * Qc => (b.2 <= a.2)%Qc)
    (foldl (fun acc x => insert_desc x acc) acc l).
Proof.
  induction l as [| x l IH]; intros acc Hacc; simpl; [done |].
  by apply IH, insert_desc_sorted.
Qed.

Lemma insert_desc_below x l :
  Forall (fun z : Qc * Qc => (z.2 < x.2)%Qc) l -> insert_desc x l = x :: l.
Proof.
  destruct l as [| y l]; simpl; [done |].
  intros [Hy _]%Forall_cons. by destruct (decide _).
Qed.

Lemma filter_insert_desc (x : Qc * Qc) l :
  StronglySorted (fun a b : Qc * Qc => (b.2 <= a.2)%Qc) l ->
  filter (fun z : Qc * Qc => (0 < z.2)%Qc) (insert_desc x l)
  = if decide (0 < x.2)%Qc
    then insert_desc x (filter (fun z : Qc * Qc => (0 < z.2)%Qc) l)
    else filter (fun z : Qc * Qc => (0 < z.2)%Qc) l.
Proof.
  induction 1 as [| y l Hl IH Hy]; simpl.
  - rewrite filter_cons, filter_nil. by destruct (decide _).
  - destruct (decide (y.2 < x.2)%Qc) as [Hlt | Hge].
    + rewrite (filter_cons _ x). destruct (decide (0 < x.2)%Qc) as [Hx | Hx]; [| done].
      symmetry. apply insert_desc_below.
      apply Forall_forall. intros z [_ Hz]%list_elem_of_filter.
      apply elem_of_cons in Hz as [-> | Hz]; [done |].
      rewrite Forall_forall in Hy. eapply Qcle_lt_trans; [by apply Hy | done].
    + rewrite (filter_cons _ y), IH.
      destruct (decide (0 < x.2)%Qc) as [Hx | Hx].
      * assert (0 < y.2)%Qc as Hpos
          by (eapply Qclt_le_trans; [exact Hx | by apply Qcnot_lt_le]).
        rewrite decide_True by done. rewrite (filter_cons _ y), decide_True by done.
        simpl. by rewrite decide_False.
      * by rewrite (filter_cons _ y).
Qed.

Lemma filter_foldl_insert_desc l : forall acc,
  StronglySorted (fun a b : Qc * Qc => (b.2 <= a.2)%Qc) acc ->
  filter (fun z : Qc * Qc => (0 < z.2)%Qc)
    (foldl (fun acc x => insert_desc x acc) acc l)
  = foldl (fun acc x => insert_desc x acc)
      (filter (fun z : Qc * Qc => (0 < z.2)%Qc) acc)
      (filter (fun z : Qc * Qc => (0 < z.2)%Qc) l).
Proof.
  induction l as [| x l IH]; intros acc Hacc; simpl; [done |].
  rewrite IH by (by apply insert_desc_sorted).
  rewrite filter_insert_desc by done. rewrite (filter_cons _ x).
  by destruct (decide (0 < x.2)%Qc).
Qed.

Lemma filter_none {A} (P : A -> Prop) `{forall x, Decision (P x)} (l : list A) :
  Forall (fun z => ~ P z) l -> filter P l = [].
Proof.
  induction 1 as [| z l Hz Hl IH]; [done |].
  by rewrite filter_cons, decide_False.
Qed.

Lemma takewhile_sorted l :
  StronglySorted (fun a b : Qc * Qc => (b.2 <= a.2)%Qc) l ->
  takewhile (fun x : Qc * Qc => bool_decide (0 < x.2)%Qc) l
  = filter (fun z : Qc * Qc => (0 < z.2)%Qc) l.
Proof.
  induction 1 as [| y l Hl IH Hy]; simpl; [done |].
  rewrite filter_cons. destruct (decide (0 < y.2)%Qc) as [Hpos | Hneg].
  - rewrite bool_decide_eq_true_2 by done. by rewrite IH.
  - rewrite bool_decide_eq_false_2 by done. symmetry. apply filter_none.
    eapply Forall_impl; [exact Hy |]. intros z Hz Hposz. simpl in Hz.
    apply Hneg. by eapply Qclt_le_trans.
Qed.

(** The neighbours that [compute_pred] keeps are those of positive
    similarity, in descending order of similarity. *)
Lemma positive_neighbors pairs :
  takewhile (fun x : Qc * Qc => bool_decide (0 < x.2)%Qc) (sorted_desc pairs)
  = sorted_desc (filter (fun z : Qc * Qc => (0 < z.2)%Qc) pairs).
Proof.
  unfold sorted_desc.
  rewrite takewhile_sorted by (apply foldl_insert_desc_sorted; constructor).
  by rewrite filter_foldl_insert_desc by constructor.
Qed.

Lemma no_neighbor_false size sims (x : Qc) :
  size <> 0%nat -> x ∈ sims -> (0 < x)%Qc -> no_neighbor size sims = false.
Proof.
  intros Hsize Hx Hpos. apply not_true_is_false. intros Hno.
  apply no_neighbor_spec in Hno as [? | Hall]; [done |].
  rewrite Forall_forall in Hall. apply Hall in Hx.
  by apply Qcle_not_lt in Hx.
Qed.

(** X3.  The prediction of [compute_pred] depends on the neighbours of
    positive similarity only: when at least one common neighbour has positive
    similarity, the call returns what it returns on the positive neighbours
    alone, whatever the other neighbours and their labels are, and whatever
    non-zero [common_size] is passed. *)
Theorem compute_pred_ignores_nonpositive (user item : Z) (size size' : nat)
    (sims labels : list Qc) (self : CfBase) :
  let kept := filter (fun z : Qc * Qc => (0 < z.2)%Qc) (zip labels sims) in
  size <> 0%nat -> size' <> 0%nat -> kept <> [] ->
  compute_pred user item size sims labels self
  = compute_pred user item size' kept.*2 kept.*1 self.
Proof.
  intros kept Hsize Hsize' Hkept.
  destruct kept as [| x kept'] eqn:Hx; [done |]. rewrite <- Hx in *. clear Hkept.
  assert (x ∈ kept) as Hin by (rewrite Hx; apply elem_of_cons; by left).
  pose proof Hin as Hin'. unfold kept in Hin'.
  apply list_elem_of_filter in Hin' as [Hpos Hzip].
  unfold compute_pred.
  rewrite (no_neighbor_false size sims x.2), (no_neighbor_false size' kept.*2 x.2);
    try done.
  - rewrite zip_fst_snd, !positive_neighbors. unfold kept.
    by rewrite (list_filter_filter_r _ _ (zip labels sims)).
  - apply list_elem_of_fmap. by exists x.
  - destruct x as [l s]. by apply elem_of_zip_r in Hzip.
Qed.

(** Three neighbours, the second of similarity -1: it does not count. *)
Lemma compute_pred_ignores_nonpositive_witness :
  let sims := [Qc_of_Z 1; Qc_of_Z (-1); Qc_of_Z 2] in
  let labels := [Qc_of_Z 3; Qc_of_Z 4; Qc_of_Z 5] in
  let kept := filter (fun z : Qc * Qc => (0 < z.2)%Qc) (zip labels sims) in
  compute_pred 0 1 3 sims labels example_model
  = compute_pred 0 1 2 kept.*2 kept.*1 example_model.
Proof.
  intros sims labels kept.
  apply (compute_pred_ignores_nonpositive 0 1 3 2 sims labels example_model).
  - discriminate.
  - discriminate.
  - vm_compute. discriminate.
Defined.

Lemma np_clip_bounds x lo hi :
  (lo <= hi)%Qc -> (lo <= np_clip x lo hi)%Qc /\ (np_clip x lo hi <= hi)%Qc.
Proof.
  intros Hle. unfold np_clip.
  destruct (decide (x < lo)%Qc) as [Hlt | Hge].
  - destruct (decide (hi < lo)%Qc) as [Hlt' | _]; [by apply Qclt_not_le in Hlt' |].
    split; [apply Qcle_refl | done].
  - apply Qcnot_lt_le in Hge.
    destruct (decide (hi < x)%Qc) as [_ | Hge'];
      [split; [done | apply Qcle_refl] |].
    split; [done | by apply Qcnot_lt_le].
Qed.

(** X4.  For the rating task with [lower_bound <= upper_bound], a prediction
    that [compute_pred] computes from neighbours lies within the two bounds,
    and the call leaves the model as it was: nothing is printed or counted. *)
Theorem compute_pred_rating_within_bounds (user item : Z) (size : nat)
    (sims labels : list Qc) (self : CfBase) (p : option Qc) :
  task self = "rating" ->
  (lower_bound self <= upper_bound self)%Qc ->
  no_neighbor size sims = false ->
  (compute_pred user item size sims labels self).1 = Ok p ->
  (compute_pred user item size sims labels self).2 = self
  /\ exists r, p = Some r /\ (lower_bound self <= r)%Qc /\ (r <= upper_bound self)%Qc.
Proof.
  intros Htask Hbounds Hno Hp. split; [by apply compute_pred_neighbors |].
  revert Hp. unfold compute_pred. rewrite Hno. run_step.
  destruct (take _ _); [done |]. simpl.
  rewrite decide_True by done. simpl. intros [= <-].
  eexists. split; [done |]. by apply np_clip_bounds.
Qed.

(** One neighbour with the label 9, outside the bounds 1 and 5. *)
Lemma compute_pred_rating_within_bounds_witness :
  (compute_pred 0 1 1 [Qc_of_Z 1] [Qc_of_Z 9] example_model).2 = example_model.
Proof.
  destruct (compute_pred 0 1 1 [Qc_of_Z 1] [Qc_of_Z 9] example_model).1
    as [p | e] eqn:Hp.
  - apply (compute_pred_rating_within_bounds 0 1 1 [Qc_of_Z 1] [Qc_of_Z 9]
             example_model p).
    + reflexivity.
    + by vm_compute.
    + vm_compute. reflexivity.
    + exact Hp.
  - vm_compute in Hp. discriminate.
Defined.

(** ** [rank_recommendations]: the ranked branch *)

Lemma np_take_exact {A} (a : list A) (idx : list nat) :
  Forall (fun i => (i < length a)%nat) idx ->
  np_take a (Z.of_nat <$> idx) = Ok (omap (fun i => a !! i) idx).
Proof.
  unfold np_take. induction 1 as [| i idx Hi _ IH]; [done |].
  destruct (lookup_lt_is_Some_2 a i Hi) as [x Hx].
  rewrite fmap_cons. cbn [mapO]. rewrite (np_index_nat _ _ _ Hx), IH. simpl.
  by rewrite Hx.
Qed.

Lemma insert_asc_perm x l : insert_asc x l ≡ₚ x :: l.
Proof.
  induction l as [| y l IH]; simpl; [done |].
  destruct (decide _); [done |]. rewrite IH. apply Permutation_swap.
Qed.

Lemma foldl_insert_asc_perm l : forall acc,
  foldl (fun acc x => insert_asc x acc) acc l ≡ₚ acc ++ l.
Proof.
  induction l as [| x l IH]; intros acc; simpl; [by rewrite app_nil_r |].
  rewrite IH, insert_asc_perm. simpl. apply Permutation_middle.
Qed.

Lemma insert_asc_sorted x l :
  StronglySorted (fun a b : nat * Qc => (a.2 <= b.2)%Qc) l ->
  StronglySorted (fun a b : nat * Qc => (a.2 <= b.2)%Qc) (insert_asc x l).
Proof.
  induction 1 as [| y l Hl IH Hy]; simpl; [by repeat constructor |].
  destruct (decide (x.2 < y.2)%Qc) as [Hlt | Hge].
  - constructor; [by constructor |]. constructor; [by apply Qclt_le_weak |].
    eapply Forall_impl; [exact Hy |]. intros z Hz. simpl in Hz.
    apply Qclt_le_weak. by eapply Qclt_le_trans.
  - constructor; [done |]. apply Forall_forall. intros z Hz.
    apply insert_asc_elem in Hz as [-> | Hz].
    + by apply Qcnot_lt_le.
    + rewrite Forall_forall in Hy. by apply Hy.
Qed.

Lemma foldl_insert_asc_sorted l : forall acc,
  StronglySorted (fun a b : nat * Qc => (a.2 <= b.2)%Qc) acc ->
  StronglySorted (fun a b : nat * Qc => (a.2 <= b.2)%Qc)
    (foldl (fun acc x => insert_asc x acc) acc l).
Proof.
  induction l as [| x l IH]; intros acc Hacc; simpl; [done |].
  by apply IH, insert_asc_sorted.
Qed.

Lemma enumerate_fst {A} (l : list A) : (enumerate l).*1 = seq 0 (length l).
Proof. unfold enumerate. apply fst_zip. by rewrite length_seq. Qed.

Lemma StronglySorted_reverse {A} (R : A -> A -> Prop) l :
  StronglySorted R l -> StronglySorted (flip R) (reverse l).
Proof.
  induction 1 as [| x l Hl IH Hx]; [constructor |].
  rewrite reverse_cons. apply StronglySorted_app_2; [| done | by repeat constructor].
  intros a b Ha Hb%list_elem_of_singleton. subst b.
  rewrite elem_of_reverse in Ha.
  rewrite Forall_forall in Hx. unfold flip. by apply Hx.
Qed.

Lemma StronglySorted_impl_elem {A} (R R' : A -> A -> Prop) l :
  (forall a b, a ∈ l -> b ∈ l -> R a b -> R' a b) ->
  StronglySorted R l -> StronglySorted R' l.
Proof.
  intros Himpl Hl. induction Hl as [| x l Hl IH Hx]; constructor.
  - apply IH. intros a b Ha Hb. apply Himpl; apply elem_of_cons; by right.
  - rewrite Forall_forall in Hx |- *. intros y Hy.
    apply Himpl; [apply elem_of_cons; by left | apply elem_of_cons; by right |].
    by apply Hx.
Qed.

(** [np.argsort(preds)[::-1]] lists every position once, by non-increasing
    score. *)
Lemma argsort_reversed preds :
  let order := reverse (argsort preds) in
  order ≡ₚ seq 0 (length preds)
  /\ StronglySorted
       (fun i j => (default 0 (preds !! j) <= default 0 (preds !! i))%Qc) order.
Proof.
  unfold argsort.
  set (sorted := foldl (fun acc x => insert_asc x acc) [] (enumerate preds)).
  assert (sorted ≡ₚ enumerate preds) as Hperm by apply foldl_insert_asc_perm.
  assert (forall ip, ip ∈ sorted -> preds !! ip.1 = Some ip.2) as Hscore.
  { intros ip Hip. rewrite Hperm in Hip.
    apply list_elem_of_lookup in Hip as [k Hk].
    apply enumerate_lookup in Hk as [<- Hk]. done. }
  split.
  - rewrite reverse_Permutation, Hperm. by rewrite enumerate_fst.
  - rewrite <- fmap_reverse.
    apply (StronglySorted_fmap fst
             (fun a b : nat * Qc =>
                (default 0 (preds !! b.1) <= default 0 (preds !! a.1))%Qc));
      [done |].
    apply (StronglySorted_impl_elem (flip (fun a b : nat * Qc => (a.2 <= b.2)%Qc))).
    + intros a b Ha Hb Hab. rewrite elem_of_reverse in Ha, Hb.
      by rewrite (Hscore a Ha), (Hscore b Hb).
    + apply StronglySorted_reverse, foldl_insert_asc_sorted. constructor.
Qed.

(** X5.  When [rank_recommendations] does not sample (no [random_rec], or no
    more candidates than [n_rec]) and candidates remain after the optional
    filter, it returns the first [n_rec] candidates of an ordering that lists
    every candidate once, by non-increasing score, and it leaves the model as
    it was. *)
Theorem rank_recommendations_best_first (self : CfBase) (user : Z) (ids : list Z)
    (preds : list Qc) (n_rec : nat) (consumed : list Z)
    (filter_consumed random_rec : bool) :
  let cand :=
    if filter_consumed then filter_items ids preds consumed else (ids, preds) in
  length cand.1 = length cand.2 -> cand.1 <> [] ->
  random_rec = false \/ (length cand.1 <= n_rec)%nat ->
  exists order : list nat,
    order ≡ₚ seq 0 (length cand.1)
    /\ StronglySorted
         (fun i j => (default 0 (cand.2 !! j) <= default 0 (cand.2 !! i))%Qc) order
    /\ rank_recommendations user ids preds n_rec consumed filter_consumed
         random_rec self
       = (Ok (take n_rec (omap (fun i => cand.1 !! i) order)), self).
Proof.
  intros cand Hlen Hsome Hranked.
  destruct (argsort_reversed cand.2) as [Hperm Hsorted].
  exists (reverse (argsort cand.2)). rewrite Hlen. split; [done |]. split; [done |].
  unfold rank_recommendations. fold cand.
  destruct (decide (length cand.1 = 0%nat)) as [Hnil | _];
    [by apply nil_length_inv in Hnil |].
  assert (random_rec && bool_decide (n_rec < length cand.1)%nat = false) as ->.
  { destruct Hranked as [-> | Hle]; [done |].
    rewrite bool_decide_eq_false_2 by lia. by destruct random_rec. }
  rewrite bind_run. unfold lift.
  rewrite np_take_exact; [done |].
  apply Forall_forall. intros i Hi. rewrite Hperm in Hi.
  apply elem_of_seq in Hi. lia.
Qed.

(** Two candidates, the better one asked for. *)
Lemma rank_recommendations_best_first_witness :
  exists order : list nat,
    order ≡ₚ seq 0 2
    /\ StronglySorted
         (fun i j => (default 0 ([Qc_of_Z 1; Qc_of_Z 2] !! j)
                      <= default 0 ([Qc_of_Z 1; Qc_of_Z 2] !! i))%Qc) order
    /\ rank_recommendations 0 [0; 1] [Qc_of_Z 1; Qc_of_Z 2] 1 [] false false
         example_model
       = (Ok (take 1 (omap (fun i => [0; 1] !! i) order)), example_model).
Proof.
  apply (rank_recommendations_best_first example_model 0 [0; 1]
           [Qc_of_Z 1; Qc_of_Z 2] 1 [] false false); [done | done | by left].
Defined.

(** ** [save]: repeated saves, several models in one folder *)






Lemma save_run st path model_name w :
  save st path model_name w
  = (Ok tt,
     mkWorld
       (if bool_decide (path ∈ folders w) then folders w
        else {[path]} ∪ folders w)
       (<[path_join path (model_name +:+ "_data_info.npz") :=
            NpzFile (foldl save_arg [] (signature (all_args st)))]>
          (match col_name_mapping st with
           | Some _ =>
               <[path_join path (model_name +:+ "_data_info_name_mapping.json") :=
                   JsonFile (arg_col_name_mapping (all_args st))]> (files w)
           | None => files w
           end))
       (if bool_decide (path ∈ folders w) then console w
        else console w ++ ["file folder " +:+ path
                           +:+ " doesn't exists, creating a new one..."])).
Proof.
  unfold save. rewrite archive_path.
  set (hparams := foldl save_arg [] _).
  unfold write_file, makedirs, print, mbind, M_bind, mret, M_ret, modify, get.
  destruct (bool_decide (path ∈ folders w)); by destruct (col_name_mapping st).
Qed.

(** X6.  Saving twice is saving once: a second [save] of the same object
    under the same path and model name leaves the folders, the files and the
    console as the first call left them (the message about the new folder is
    printed once). *)
Theorem save_twice (st : DataInfo) (path model_name : string) (w : World) :
  let w' := (save st path model_name w).2 in
  save st path model_name w' = (Ok tt, w').
Proof.
  intros w'. subst w'. rewrite !save_run. cbn [snd folders files console].
  pose proof (archive_path_ne path model_name) as Hne.
  set (npz := path_join path (model_name +:+ "_data_info.npz")) in *.
  set (json := path_join path (model_name +:+ "_data_info_name_mapping.json")) in *.
  set (saved := NpzFile _).
  assert (bool_decide
            (path ∈ (if bool_decide (path ∈ folders w) then folders w
                     else {[path]} ∪ folders w)) = true) as ->.
  { apply bool_decide_eq_true.
    destruct (bool_decide_reflect (path ∈ folders w)); set_solver. }
  f_equal. f_equal.
  destruct (col_name_mapping st).
  - rewrite (insert_insert_ne _ json npz) by (intros Heq; by apply Hne).
    by rewrite !insert_insert_eq.
  - by rewrite insert_insert_eq.
Qed.



(** ** The constructor needs the interaction data *)

(** X8.  The constructor needs the interaction data: with
    [interaction_data=None], its default, [__init__] raises whatever the other
    arguments are, since [set_popular_items] reads the data. *)
Theorem init_requires_interaction_data (a : Args) :
  arg_interaction_data a = None -> exists e, __init__ a = Raise e.
Proof.
  intros Hnone. unfold __init__.
  destruct (arg_user_indices a) as [user_indices |]; [| by eauto].
  destruct (arg_item_indices a) as [item_indices |]; [| by eauto].
  set (st0 := initial_state a _).
  rewrite bind_run.
  assert (unchanged (fun s => (popular_items s, interaction_data s)) add_oov)
    as Hkeep.
  { intros s. rewrite add_oov_as_blocks.
    apply (unchanged_for_each (fun s => (popular_items s, interaction_data s))).
    intros w. apply unchanged_oov_block; by intros ? []. }
  specialize (Hkeep st0).
  destruct (add_oov st0) as [[[] | e] st1]; [| by eauto].
  simpl in Hkeep. injection Hkeep as Hpopular Hdata.
  rewrite bind_run. unfold get. cbv beta iota.
  rewrite Hpopular. cbn [popular_items st0 initial_state].
  unfold set_popular_items. rewrite bind_run. unfold get. cbv beta iota.
  rewrite Hdata. cbn [interaction_data st0 initial_state]. rewrite Hnone.
  by eauto.
Qed.

(** Empty index arrays and no data. *)
Lemma init_requires_interaction_data_witness :
  exists e, __init__ (mkArgs None None None None None None (Some []) (Some [])
                        (Some []) (Some []) None None None None None) = Raise e.
Proof. by apply init_requires_interaction_data. Defined.

(** ** [add_oov] twice *)

Lemma n_users_cache st :
  (forall n, _n_users (props st) = Some n -> n_users st = (Ok n, st))
  /\ (forall n, (n_users st).1 = Ok n -> _n_users (props (n_users st).2) = Some n)
  /\ _n_items (props (n_users st).2) = _n_items (props st).
Proof.
  unfold n_users, set_cache. rewrite bind_run. unfold get. cbv beta iota.
  destruct (_n_users (props st)) as [n |] eqn:Hcache.
  - split_and!; [by intros ? [= ->] | | done].
    intros n' [= <-]. done.
  - split_and!; [done | |]; destruct (user_unique_vals st); simpl; try done.
    by intros n [= <-].
Qed.

Lemma n_items_cache st :
  (forall n, _n_items (props st) = Some n -> n_items st = (Ok n, st))
  /\ (forall n, (n_items st).1 = Ok n -> _n_items (props (n_items st).2) = Some n)
  /\ _n_users (props (n_items st).2) = _n_users (props st).
Proof.
  unfold n_items, set_cache. rewrite bind_run. unfold get. cbv beta iota.
  destruct (_n_items (props st)) as [n |] eqn:Hcache.
  - split_and!; [by intros ? [= ->] | | done].
    intros n' [= <-]. done.
  - split_and!; [done | |]; destruct (item_unique_vals st); simpl; try done.
    by intros n [= <-].
Qed.

Lemma n_entities_cache w st :
  (forall n, cached_entities w st = Some n -> n_entities_of w st = (Ok n, st))
  /\ (forall n, (n_entities_of w st).1 = Ok n ->
                cached_entities w (n_entities_of w st).2 = Some n)
  /\ (forall w' n, cached_entities w' st = Some n ->
                   cached_entities w' (n_entities_of w st).2 = Some n).
Proof.
  destruct (n_users_cache st) as (Hu1 & Hu2 & Hu3).
  destruct (n_items_cache st) as (Hi1 & Hi2 & Hi3).
  split_and!.
  - destruct w; simpl; auto.
  - destruct w; simpl; auto.
  - intros w' n. unfold cached_entities.
    destruct w, w'; simpl; intros Hn; rewrite ?Hu3, ?Hi3; try done.
    all: first [ by rewrite (Hu1 n Hn) | by rewrite (Hi1 n Hn) ].
Qed.

Lemma rows_of_n_entities w w' st :
  rows_of w' (n_entities_of w st).2 = rows_of w' st.
Proof.
  destruct w, w'; simpl;
    first [ by rewrite (unchanged_n_users (fun s => _ <$> _ s)) by (by intros ? [])
          | by rewrite (unchanged_n_items (fun s => _ <$> _ s)) by (by intros ? []) ].
Qed.

(** What one block of [add_oov] does. *)
Lemma oov_block_cases w st :
  match rows_of w st with
  | None => oov_block w st = (Ok tt, st)
  | Some rows =>
      match (n_entities_of w st).1 with
      | Raise e => (oov_block w st).1 = Raise e
      | Ok n =>
          if decide (length rows = n)
          then props (oov_block w st).2 = props (n_entities_of w st).2
               /\ ((oov_block w st).1 = Ok tt ->
                   exists oov, rows_of w (oov_block w st).2 = Some (rows ++ [oov]))
          else oov_block w st = (Ok tt, (n_entities_of w st).2)
      end
  end.
Proof.
  pose proof (rows_of_n_entities w w st) as Hrows.
  destruct w; simpl in *; unfold add_oov_block;
    rewrite bind_run; unfold get; cbv beta iota;
    match goal with
    | |- context [match ?u st with Some _ => _ | None => _ end] =>
        destruct (u st) as [m |] eqn:Hm; simpl in *; [| done]
    end;
    rewrite bind_run;
    match goal with
    | |- context [?n st] =>
        first [ constr_eq n n_users | constr_eq n n_items ];
        destruct (n st) as [[k | e] s1]; simpl in *; [| done]
    end;
    rewrite length_fmap; fold (nrows m);
    (destruct (decide (nrows m = k)) as [Heq | Hne]; [| done]);
    rewrite bind_run;
    unfold user_sparse_col, item_sparse_col;
    match goal with
    | |- context [sparse_oov_row (column_family ?f) ?s] =>
        let Hrow := fresh "Hrow" in
        pose proof (sparse_oov_row_state f s) as Hrow;
        destruct (sparse_oov_row (column_family f) s) as [[oov | e] s2];
        simpl in Hrow; subst s2
    | |- _ => unfold mret at 1, M_ret at 1; cbv beta iota;
              set (oov := column_means m)
    end;
    simpl; try done;
    unfold vstack_row, lift; rewrite bind_run;
    (destruct (decide (length oov = ncols m)); simpl; [| done]);
    (split; [done |]); intros _; eexists; by rewrite fmap_app.
Qed.

Lemma cached_entities_props w s s' :
  props s = props s' -> cached_entities w s = cached_entities w s'.
Proof. unfold cached_entities. by intros ->. Qed.

Lemma settled_noop w st : settled w st -> oov_block w st = (Ok tt, st).
Proof.
  intros Hsettled. pose proof (oov_block_cases w st) as Hcases.
  destruct (rows_of w st) as [rows |] eqn:Hw; [| done].
  destruct (Hsettled rows Hw) as (n & Hn & Hne).
  destruct (n_entities_cache w st) as (Hhit & _ & _).
  rewrite (Hhit n Hn) in Hcases. simpl in Hcases.
  by rewrite decide_False in Hcases.
Qed.

Lemma oov_block_settles w st :
  (oov_block w st).1 = Ok tt -> settled w (oov_block w st).2.
Proof.
  intros Hok. pose proof (oov_block_cases w st) as Hcases.
  destruct (n_entities_cache w st) as (_ & Hfill & _).
  pose proof (rows_of_n_entities w w st) as Hrows.
  destruct (rows_of w st) as [rows |] eqn:Hw.
  - destruct (n_entities_of w st).1 as [n | e] eqn:Hn; [| congruence].
    specialize (Hfill n eq_refl).
    destruct (decide (length rows = n)) as [Heq | Hne].
    + destruct Hcases as [Hprops Hgrown]. destruct (Hgrown Hok) as [oov Hoov].
      intros rows' Hrows'. exists n.
      rewrite (cached_entities_props w _ _ Hprops). split; [done |].
      rewrite Hoov in Hrows'. injection Hrows' as <-. rewrite length_app. simpl. lia.
    + rewrite Hcases. simpl. intros rows' Hrows'. exists n. split; [done |].
      rewrite Hrows in Hrows'. by injection Hrows' as <-.
  - rewrite Hcases. simpl. intros rows. by rewrite Hw.
Qed.

Lemma oov_block_keeps_settled w w' st :
  w' <> w -> (oov_block w' st).1 = Ok tt ->
  settled w st -> settled w (oov_block w' st).2.
Proof.
  intros Hne Hok Hsettled rows Hrows.
  rewrite oov_block_other in Hrows by done.
  destruct (Hsettled rows Hrows) as (n & Hn & Hlen).
  exists n. split; [| done].
  destruct (n_entities_cache w' st) as (_ & _ & Hkeep).
  pose proof (oov_block_cases w' st) as Hcases.
  destruct (rows_of w' st) as [rows' |]; [| by rewrite Hcases].
  destruct (n_entities_of w' st).1 as [k | e] eqn:Hk; [| congruence].
  destruct (decide (length rows' = k)).
  - destruct Hcases as [Hprops _].
    rewrite (cached_entities_props w _ _ Hprops). by apply Hkeep.
  - rewrite Hcases. simpl. by apply Hkeep.
Qed.

Lemma blocks_keep_settled ws : forall st w,
  w ∉ ws -> (for_each ws oov_block st).1 = Ok tt ->
  settled w st -> settled w (for_each ws oov_block st).2.
Proof.
  induction ws as [| w0 ws IH]; intros st w Hw Hok Hsettled; simpl in *; [done |].
  apply not_elem_of_cons in Hw as [Hne Hw].
  rewrite bind_run in *.
  pose proof (oov_block_keeps_settled w w0 st) as Hstep.
  destruct (oov_block w0 st) as [[[] | e] s1]; simpl in *; [| done].
  apply IH; [done | done |]. by apply Hstep.
Qed.

Lemma blocks_settle ws : NoDup ws -> forall st,
  (for_each ws oov_block st).1 = Ok tt ->
  forall w, w ∈ ws -> settled w (for_each ws oov_block st).2.
Proof.
  induction 1 as [| w0 ws Hw0 Hws IH]; intros st Hok w Hw; simpl in *.
  - by apply elem_of_nil in Hw.
  - rewrite bind_run in *.
    pose proof (oov_block_settles w0 st) as Hstep.
    destruct (oov_block w0 st) as [[[] | e] s1]; simpl in *; [| done].
    apply elem_of_cons in Hw as [-> | Hw].
    + apply blocks_keep_settled; auto.
    + by apply IH.
Qed.

Lemma settled_blocks_noop ws st :
  (forall w, w ∈ ws -> settled w st) -> for_each ws oov_block st = (Ok tt, st).
Proof.
  induction ws as [| w0 ws IH]; intros Hall; simpl; [done |].
  rewrite bind_run, settled_noop by (apply Hall, elem_of_cons; by left).
  apply IH. intros w Hw. apply Hall, elem_of_cons. by right.
Qed.

(** X9.  [add_oov] is idempotent: on the object that a call of [add_oov]
    leaves, a second call returns and changes nothing; no second oov row is
    appended. *)
Theorem add_oov_twice (st : DataInfo) :
  (add_oov st).1 = Ok tt ->
  add_oov (add_oov st).2 = (Ok tt, (add_oov st).2).
Proof.
  rewrite !add_oov_as_blocks. intros Hok.
  apply settled_blocks_noop. apply blocks_settle; [| done].
  apply (bool_decide_unpack _). vm_compute. exact I.
Qed.

(** The "sex" matrix of the example gets its oov row once. *)
Lemma add_oov_twice_witness :
  let st := initial_state example_feat_args (∅, ∅) in
  user_sparse_unique (add_oov st).2 = Some (mkMatrix 1 [[0]; [1]; [2]])
  /\ add_oov (add_oov st).2 = (Ok tt, (add_oov st).2).
Proof.
  intros st. split; [vm_compute; reflexivity |].
  apply add_oov_twice. vm_compute. reflexivity.
Defined.

(** ** [set_popular_items] *)

Lemma insert_by_count_perm x l : insert_by_count x l ≡ₚ x :: l.
Proof.
  induction l as [| y l IH]; simpl; [done |].
  destruct (decide _); [| done]. rewrite IH. apply Permutation_swap.
Qed.

Lemma sort_values_desc_perm l : sort_values_desc l ≡ₚ l.
Proof.
  induction l as [| x l IH]; simpl; [done |].
  by rewrite insert_by_count_perm, IH.
Qed.

Lemma insert_by_count_sorted x l :
  StronglySorted (fun a b : Z * nat => (b.2 <= a.2)%nat) l ->
  StronglySorted (fun a b : Z * nat => (b.2 <= a.2)%nat) (insert_by_count x l).
Proof.
  induction 1 as [| y l Hl IH Hy]; simpl; [by repeat constructor |].
  destruct (decide (x.2 < y.2)%nat) as [Hlt | Hge].
  - constructor; [done |]. apply Forall_forall. intros z Hz.
    rewrite insert_by_count_perm in Hz. apply elem_of_cons in Hz as [-> | Hz]; [lia |].
    rewrite Forall_forall in Hy. by apply Hy.
  - constructor; [by constructor |]. constructor; [lia |].
    eapply Forall_impl; [exact Hy |]. intros z Hz. simpl in Hz. lia.
Qed.

Lemma sort_values_desc_sorted l :
  StronglySorted (fun a b : Z * nat => (b.2 <= a.2)%nat) (sort_values_desc l).
Proof.
  induction l as [| x l IH]; simpl; [constructor | by apply insert_by_count_sorted].
Qed.

Lemma sorted_lt_NoDup (l : list Z) : StronglySorted Z.lt l -> NoDup l.
Proof.
  induction 1 as [| x l Hl IH Hx]; constructor; [| done].
  intros Hin. rewrite Forall_forall in Hx. apply Hx in Hin. lia.
Qed.

(** X10.  [set_popular_items num] ranks the distinct items of the interaction
    data by the number of distinct users that interacted with them, the most
    consumed first, and keeps the first [num] of them; when there are fewer
    than [num] items, the previous popular items fill the remaining
    places. *)
Theorem set_popular_items_ranks (num : nat) (st : DataInfo) (data : list Interaction) :
  interaction_data st = Some data ->
  exists ranked,
    NoDup ranked
    /\ (forall i, i ∈ ranked <-> i ∈ item <$> data)
    /\ StronglySorted
         (fun i j => (n_consumers data j <= n_consumers data i)%nat) ranked
    /\ set_popular_items num st
       = (Ok tt,
          put_popular_items
            (Some (take num (ranked ++ default [] (popular_items st)))) st).
Proof.
  intros Hdata.
  set (counted := sort_values_desc (count_items data)).
  assert (forall ic, ic ∈ counted -> ic.2 = n_consumers data ic.1) as Hcount.
  { intros ic Hic. unfold counted in Hic. rewrite sort_values_desc_perm in Hic.
    unfold count_items in Hic. apply list_elem_of_fmap in Hic as (i & -> & _). done. }
  assert (counted.*1 ≡ₚ
          np_unique (remove_dups ((fun r => (user r, item r)) <$> data)).*2)
    as Hperm.
  { unfold counted. rewrite sort_values_desc_perm. unfold count_items.
    rewrite <- list_fmap_compose. by rewrite list_fmap_id. }
  exists counted.*1. split_and!.
  - rewrite Hperm. apply sorted_lt_NoDup, np_unique_sorted.
  - intros i. rewrite Hperm, np_unique_elem. rewrite !list_elem_of_fmap. split.
    + intros ([u i'] & -> & Hin). rewrite elem_of_remove_dups in Hin.
      apply list_elem_of_fmap in Hin as (r & [= -> ->] & Hr). by exists r.
    + intros (r & -> & Hr). exists (user r, item r). split; [done |].
      rewrite elem_of_remove_dups. apply list_elem_of_fmap. by exists r.
  - apply (StronglySorted_fmap fst
             (fun a b : Z * nat =>
                (n_consumers data b.1 <= n_consumers data a.1)%nat)); [done |].
    apply (StronglySorted_impl_elem (fun a b : Z * nat => (b.2 <= a.2)%nat)).
    + intros a b Ha Hb. by rewrite (Hcount a Ha), (Hcount b Hb).
    + apply sort_values_desc_sorted.
  - unfold set_popular_items. rewrite bind_run. unfold get. cbv beta iota.
    rewrite Hdata. fold counted. unfold modify. do 3 f_equal.
    destruct (popular_items st) as [old |]; simpl.
    + rewrite take_app. destruct (decide _) as [Hlt | Hge].
      * rewrite length_take in Hlt |- *.
        rewrite take_ge by lia. do 2 f_equal. lia.
      * rewrite length_take in Hge.
        assert (num - length counted.*1 = 0)%nat as -> by lia.
        by rewrite take_0, app_nil_r.
    + by rewrite app_nil_r.
Qed.

(** The most popular item of the example. *)
Lemma set_popular_items_ranks_witness :
  let data := [mkInteraction 1 10 1%Qc; mkInteraction 2 10 1%Qc;
               mkInteraction 2 20 1%Qc] in
  exists ranked,
    NoDup ranked
    /\ (forall i, i ∈ ranked <-> i ∈ item <$> data)
    /\ StronglySorted
         (fun i j => (n_consumers data j <= n_consumers data i)%nat) ranked
    /\ set_popular_items 1 example_data_info
       = (Ok tt,
          put_popular_items
            (Some (take 1 (ranked ++ default [] (popular_items example_data_info))))
            example_data_info).
Proof.
  intros data. apply (set_popular_items_ranks 1 example_data_info data).
  reflexivity.
Defined.

(** ** The id mappings *)

Lemma foldl_insert_elem `{Countable K} {V} (l : list (K * V)) :
  forall (m : gmap K V) k v,
  foldl (fun m kv => <[kv.1 := kv.2]> m) m l !! k = Some v ->
  (k, v) ∈ l \/ m !! k = Some v.
Proof.
  induction l as [| [k' v'] l IH]; intros m k v Hk; simpl in *; [by right |].
  apply IH in Hk as [Hin | Hk]; [left; apply elem_of_cons; by right |].
  destruct (decide (k = k')) as [-> | Hne].
  - rewrite lookup_insert_eq in Hk. injection Hk as ->.
    left. apply elem_of_cons. by left.
  - rewrite lookup_insert_ne in Hk by done. by right.
Qed.

Lemma py_dict_elem `{Countable K} {V} (l : list (K * V)) k v :
  py_dict l !! k = Some v -> (k, v) ∈ l.
Proof.
  intros Hk. apply foldl_insert_elem in Hk as [? | Hk]; [done |].
  by rewrite lookup_empty in Hk.
Qed.

Lemma py_dict_NoDup `{Countable K} {V} (l : list (K * V)) k v :
  NoDup l.*1 -> (k, v) ∈ l -> py_dict l !! k = Some v.
Proof.
  unfold py_dict. generalize (∅ : gmap K V).
  induction l as [| [k' v'] l IH]; intros m Hl Hin; simpl in *.
  - by apply elem_of_nil in Hin.
  - apply NoDup_cons in Hl as [Hk' Hl].
    apply elem_of_cons in Hin as [[= -> ->] | Hin]; [| by apply IH].
    rewrite foldl_insert_lookup_ne by done. apply lookup_insert_eq.
Qed.

Lemma elem_of_zip_range (vals : list Z) u i :
  (u, i) ∈ zip vals (py_range (length vals))
  <-> exists k : nat, i = Z.of_nat k /\ vals !! k = Some u.
Proof.
  unfold py_range. rewrite list_elem_of_lookup. split.
  - intros [k Hk]. apply lookup_zip_with_Some in Hk as (u' & i' & [= <- <-] & Hu & Hi).
    rewrite list_lookup_fmap in Hi.
    destruct (seq 0 (length vals) !! k) as [j |] eqn:Hj; [| done].
    apply lookup_seq in Hj as [-> _]. simpl in Hi. injection Hi as <-.
    by exists k.
  - intros (k & -> & Hk). exists k. apply lookup_zip_with_Some.
    exists u, (Z.of_nat k). split; [done |]. split; [done |].
    rewrite list_lookup_fmap, lookup_seq_lt; [done |].
    by apply lookup_lt_Some in Hk.
Qed.

(** [dict(zip(vals, range(len(vals))))] sends a value to a position that
    holds it, and to its only position when the values are distinct. *)
Lemma id_mapping_lookup (vals : list Z) :
  let d := py_dict (zip vals (py_range (length vals))) in
  (forall u i, d !! u = Some i -> exists k : nat, i = Z.of_nat k /\ vals !! k = Some u)
  /\ (NoDup vals -> forall k u, vals !! k = Some u -> d !! u = Some (Z.of_nat k)).
Proof.
  split.
  - intros u i Hu. by apply py_dict_elem, elem_of_zip_range in Hu.
  - intros Hvals k u Hk. apply py_dict_NoDup.
    + rewrite fst_zip; [done |]. unfold py_range. by rewrite length_fmap, length_seq.
    + apply elem_of_zip_range. by exists k.
Qed.

Lemma invert_dict_lookup (d : gmap Z Z) :
  (forall u u' i, d !! u = Some i -> d !! u' = Some i -> u = u') ->
  forall u i, invert_dict d !! i = Some u <-> d !! u = Some i.
Proof.
  intros Hinj u i. unfold invert_dict. split.
  - intros Hi. apply py_dict_elem, list_elem_of_fmap in Hi as ([u' i'] & [= -> ->] & Hin).
    by apply elem_of_map_to_list in Hin.
  - intros Hu. apply py_dict_NoDup.
    + rewrite <- list_fmap_compose.
      apply NoDup_fmap_2_strong; [| apply NoDup_map_to_list].
      intros [u1 i1] [u2 i2] H1%elem_of_map_to_list H2%elem_of_map_to_list Heq.
      simpl in Heq. subst i2. f_equal. by apply (Hinj u1 u2 i1).
    + apply list_elem_of_fmap. exists (u, i). split; [done |].
      by apply elem_of_map_to_list.
Qed.

(** X11.  [id2user] is the inverse of [user2id]: an inner id maps to a user
    exactly when [user2id] maps that user to it.  [user2id] sends a user to a
    position of [user_unique_vals] that holds it, which is its only position
    when the values are distinct. *)
Theorem id2user_inverts_user2id (st : DataInfo) (vals : list Z) :
  cache_coherent st -> _id2user (props st) = None ->
  user_unique_vals st = Some vals ->
  exists u2i i2u,
    value_of user2id st = Ok u2i /\ value_of id2user st = Ok i2u
    /\ (forall u i, i2u !! i = Some u <-> u2i !! u = Some i)
    /\ (forall u i, u2i !! u = Some i ->
          exists k : nat, i = Z.of_nat k /\ vals !! k = Some u)
    /\ (NoDup vals -> forall k u, vals !! k = Some u -> u2i !! u = Some (Z.of_nat k)).
Proof.
  intros Hcoh Hcache Hvals.
  pose proof (user2id_coherent st vals Hcoh Hvals) as Hu2i.
  destruct (id_mapping_lookup vals) as [Hpos Hdistinct].
  set (u2i := py_dict (zip vals (py_range (length vals)))) in *.
  exists u2i, (invert_dict u2i). split; [done |]. split_and!; [| | done | done].
  - unfold value_of, id2user in *. rewrite bind_run. unfold get. cbv beta iota.
    rewrite Hcache, bind_run.
    destruct (user2id st) as [[d | e] s1]; simpl in *; [| done].
    by injection Hu2i as ->.
  - apply invert_dict_lookup. intros u u' i Hu Hu'.
    destruct (Hpos u i Hu) as (k & -> & Hk).
    destruct (Hpos u' _ Hu') as (k' & Heq & Hk').
    apply Nat2Z.inj in Heq as <-. congruence.
Qed.

(** The users of the example. *)
Lemma id2user_inverts_user2id_witness :
  exists u2i i2u,
    value_of user2id example_data_info = Ok u2i
    /\ value_of id2user example_data_info = Ok i2u
    /\ (forall u i, i2u !! i = Some u <-> u2i !! u = Some i)
    /\ (forall u i, u2i !! u = Some i ->
          exists k : nat, i = Z.of_nat k /\ [1; 2] !! k = Some u)
    /\ (NoDup [1; 2] -> forall k u, [1; 2] !! k = Some u -> u2i !! u = Some (Z.of_nat k)).
Proof.
  apply (id2user_inverts_user2id example_data_info [1; 2]).
  - apply no_cache_coherent. reflexivity.
  - reflexivity.
  - reflexivity.
Defined.

(** ** [store_old_info] within the expansion *)

Section OldCounts.
Context {T : Type} (keep : DataInfo -> T).
Hypothesis keep_props : ignores keep put_props.
Hypothesis keep_sparse_len : forall v s,
  keep (put_old (put_old_sparse_len v (old s)) s) = keep s.
Hypothesis keep_sparse_oov : forall v s,
  keep (put_old (put_old_sparse_oov v (old s)) s) = keep s.
Hypothesis keep_sparse_offset : forall v s,
  keep (put_old (put_old_sparse_offset v (old s)) s) = keep s.

Lemma unchanged_old_sparse_len_append x : unchanged keep (old_sparse_len_append x).
Proof. intros s. apply keep_sparse_len. Qed.

Lemma unchanged_old_sparse_oov_append x : unchanged keep (old_sparse_oov_append x).
Proof. intros s. apply keep_sparse_oov. Qed.

Lemma unchanged_old_sparse_offset_append x :
  unchanged keep (old_sparse_offset_append x).
Proof. intros s. apply keep_sparse_offset. Qed.

Lemma unchanged_store_old_known_counts unique_vals i col :
  unchanged keep (store_old_known unique_vals i col).
Proof.
  unfold store_old_known.
  repeat first
    [ apply unchanged_old_sparse_len_append
    | apply unchanged_old_sparse_oov_append
    | apply unchanged_old_sparse_offset_append
    | frame_step ].
Qed.
End OldCounts.

Lemma store_old_info_counts st nu ni :
  value_of n_users st = Ok nu -> value_of n_items st = Ok ni ->
  old_n_users (old (store_old_info st).2) = Some nu
  /\ old_n_items (old (store_old_info st).2) = Some ni.
Proof.
  unfold value_of. intros Hnu Hni.
  set (counts := fun s : DataInfo => (old_n_users (old s), old_n_items (old s))).
  enough (counts (store_old_info st).2 = (Some nu, Some ni)) as [= -> ->] by done.
  unfold store_old_info. rewrite bind_run.
  destruct (n_users_cache st) as (_ & _ & Hitems).
  pose proof (unchanged_n_users item_unique_vals (fun _ _ => eq_refl) st) as Hvals.
  destruct (n_users st) as [[n | e] sa]; simpl in Hnu, Hitems, Hvals; [| done].
  injection Hnu as ->.
  rewrite bind_run. unfold set_old_info at 1, modify at 1. cbv beta iota.
  set (sb := put_old _ sa). rewrite bind_run.
  assert (n_items sb = (Ok ni, (n_items sb).2)) as Hsb.
  { assert ((n_items sb).1 = (n_items st).1) as Hsame.
    { unfold n_items, set_cache. rewrite !bind_run. unfold get. cbv beta iota.
      change (props sb) with (props sa). change (item_unique_vals sb)
        with (item_unique_vals sa). rewrite Hitems, Hvals.
      destruct (_n_items (props st)); [done |].
      by destruct (item_unique_vals st). }
    rewrite Hni in Hsame. by destruct (n_items sb) as [o s]; simpl in *; subst o. }
  pose proof (unchanged_n_items counts (fun _ _ => eq_refl) sb) as Hsc.
  rewrite Hsb. simpl in Hsc. set (sc := (n_items sb).2) in *.
  rewrite bind_run. unfold set_old_info at 1, modify at 1. cbv beta iota.
  set (sd := put_old _ sc).
  assert (counts sd = (Some nu, Some ni)) as Hsd.
  { unfold counts, sd. simpl. f_equal.
    change (old_n_users (old sc)) with (counts sc).1. by rewrite Hsc. }
  match goal with
  | |- counts (?rest sd).2 = _ =>
      enough (unchanged counts rest) as Hrest by (by rewrite Hrest)
  end.
  apply unchanged_bind; [apply unchanged_get | intros s].
  destruct (bool_decide _); [| apply unchanged_ret].
  repeat (apply unchanged_bind; [by intros ? | intros _]).
  apply unchanged_bind; [by apply unchanged_column_family | intros cols].
  apply unchanged_for_each. intros ic.
  repeat first
    [ apply unchanged_store_old_known_counts; by intros ? ?
    | apply unchanged_old_sparse_len_append; by intros ? ?
    | apply unchanged_old_sparse_offset_append; by intros ? ?
    | by apply unchanged_column_family
    | frame_step ].
Qed.

(** X12.  A call of [expand_sparse_unique_vals_and_matrix] that returns
    records in [old_n_users] and [old_n_items] the numbers of users and items
    before the call; [n_users] and [n_items] afterwards are these numbers plus
    the numbers of novel ids. *)
Theorem expand_records_old_counts (st : DataInfo) (data : Frame) :
  cache_coherent st ->
  (expand_sparse_unique_vals_and_matrix data st).1 = Ok tt ->
  let st' := (expand_sparse_unique_vals_and_matrix data st).2 in
  exists users items known_users known_items,
    frame_attr data "user" = Ok (IntCol users)
    /\ frame_attr data "item" = Ok (IntCol items)
    /\ user_unique_vals st = Some known_users
    /\ item_unique_vals st = Some known_items
    /\ old_n_users (old st') = Some (length known_users)
    /\ old_n_items (old st') = Some (length known_items)
    /\ value_of n_users st'
       = Ok (length known_users + length (setdiff1d users known_users))%nat
    /\ value_of n_items st'
       = Ok (length known_items + length (setdiff1d items known_items))%nat.
Proof.
  intros Hcoh Hok st'.
  destruct (expand_unique_vals data st Hok)
    as (users & items & ku & ki & Hu & Hi & Hku & Hki & Hku' & Hki' & Hprops).
  simpl in Hku', Hki', Hprops. fold st' in Hku', Hki', Hprops.
  exists users, items, ku, ki. split_and!; try done.
  - destruct (store_old_info_counts st (length ku) (length ki)) as [Hold _];
      [by apply n_users_coherent | by apply n_items_coherent |].
    rewrite <- Hold. clear Hold. unfold st'.
    destruct (expand_run data st Hok) as (_ & _ & _ & _ & _ & ->).
    rewrite (unchanged_update_if_present old) by (by intros ? []).
    rewrite (unchanged_update_if_present old) by (by intros ? []).
    rewrite (unchanged_expand_items old) by (by intros ? []).
    by rewrite (unchanged_expand_users old) by (by intros ? []).
  - destruct (store_old_info_counts st (length ku) (length ki)) as [_ Hold];
      [by apply n_users_coherent | by apply n_items_coherent |].
    rewrite <- Hold. clear Hold. unfold st'.
    destruct (expand_run data st Hok) as (_ & _ & _ & _ & _ & ->).
    rewrite (unchanged_update_if_present old) by (by intros ? []).
    rewrite (unchanged_update_if_present old) by (by intros ? []).
    rewrite (unchanged_expand_items old) by (by intros ? []).
    by rewrite (unchanged_expand_users old) by (by intros ? []).
  - rewrite (n_users_coherent st' _ (no_cache_coherent _ Hprops) Hku').
    by rewrite length_app.
  - rewrite (n_items_coherent st' _ (no_cache_coherent _ Hprops) Hki').
    by rewrite length_app.
Qed.

(** User 3 joins the two users of the example. *)
Lemma expand_records_old_counts_witness :
  let st' := (expand_sparse_unique_vals_and_matrix example_new_user
                example_feat_data_info).2 in
  old_n_users (old st') = Some 2%nat /\ value_of n_users st' = Ok 3%nat.
Proof.
  destruct (expand_records_old_counts example_feat_data_info example_new_user)
    as (users & items & ku & ki & Hu & Hi & Hku & Hki & Hold & _ & Hnew & _).
  - split_and!; intros ? H; vm_compute in H; simplify_eq; eauto.
  - vm_compute. reflexivity.
  - vm_compute in Hu, Hku. simplify_eq. split; [exact Hold | exact Hnew].
Defined.

(** ** [map_unique_vals] *)

Lemma map_unique_vals_get (d : list (string * list Z)) col (cols : list string) :
  forall res,
  dict_get col
    (foldl (fun res col =>
              match dict_get col d with
              | Some vals =>
                  let size := length vals in
                  dict_set col (py_dict (zip vals (py_range size))) res
              | None => res
              end) res cols)
  = if decide (col ∈ cols)
    then match dict_get col d with
         | Some vals => Some (py_dict (zip vals (py_range (length vals))))
         | None => dict_get col res
         end
    else dict_get col res.
Proof.
  induction cols as [| c cols IH]; intros res; simpl.
  - destruct (decide (col ∈ [])) as [Hin | _]; [by apply elem_of_nil in Hin | done].
  - rewrite IH. destruct (decide (col = c)) as [-> | Hne].
    + destruct (decide (c ∈ c :: cols)) as [_ | Hout];
        [| exfalso; apply Hout, elem_of_cons; by left].
      destruct (dict_get c d) as [vals |] eqn:Hc.
      * simpl. by destruct (decide (c ∈ cols)); [| apply dict_get_set_eq].
      * by destruct (decide (c ∈ cols)).
    + assert (dict_get col
                match dict_get c d with
                | Some vals =>
                    dict_set c (py_dict (zip vals (py_range (length vals)))) res
                | None => res
                end = dict_get col res) as ->.
      { destruct (dict_get c d); simpl; [by apply dict_get_set_ne | done]. }
      destruct (decide (col ∈ cols)) as [Hin | Hout];
        destruct (decide (col ∈ c :: cols)) as [Hin' | Hout']; try done.
      * exfalso. apply Hout', elem_of_cons. by right.
      * by apply elem_of_cons in Hin' as [? | ?].
Qed.

(** X13.  [map_unique_vals] gives every column of [sparse_unique_vals] the
    map from its values to their positions: a value is sent to a position
    that holds it, which is its only position when the values are
    distinct. *)
Theorem map_unique_vals_positions (d : list (string * list Z))
    (idxs : list (string * gmap Z Z)) (col : string) (vals : list Z) :
  map_unique_vals (Some d) = Some idxs ->
  dict_get col d = Some vals ->
  exists m,
    dict_get col idxs = Some m
    /\ (forall v i, m !! v = Some i ->
          exists k : nat, i = Z.of_nat k /\ vals !! k = Some v)
    /\ (NoDup vals -> forall k v, vals !! k = Some v -> m !! v = Some (Z.of_nat k)).
Proof.
  unfold map_unique_vals. intros [= <-] Hvals.
  rewrite map_unique_vals_get, Hvals.
  destruct (decide (col ∈ d.*1)) as [_ | Hout].
  - eexists. split; [done |]. apply id_mapping_lookup.
  - apply dict_get_None in Hout. congruence.
Qed.

(** The two categories of "sex". *)
Lemma map_unique_vals_positions_witness :
  exists m,
    dict_get "sex" [("sex", py_dict [(0, 0); (1, 1)])] = Some m
    /\ (forall v i, m !! v = Some i ->
          exists k : nat, i = Z.of_nat k /\ [0; 1] !! k = Some v)
    /\ (NoDup [0; 1] -> forall k v, [0; 1] !! k = Some v -> m !! v = Some (Z.of_nat k)).
Proof.
  apply (map_unique_vals_positions [("sex", [0; 1])]); reflexivity.
Defined.

(** ** [get_indexed_interaction] *)

Lemma all_present_Some xs l :
  all_present xs = Some l -> xs = Some <$> l.
Proof.
  revert l. induction xs as [| [x |] xs IH]; intros l; simpl.
  - by intros [= <-].
  - destruct (all_present xs) as [l' |]; simpl; [| done].
    intros [= <-]. simpl. f_equal. by apply IH.
  - done.
Qed.

(** Reading a cached property changes the cache only. *)
Lemma n_users_run st vals :
  cache_coherent st -> user_unique_vals st = Some vals ->
  exists s1, n_users st = (Ok (length vals), s1)
             /\ cache_coherent s1 /\ put_props no_cache s1 = put_props no_cache st.
Proof.
  intros Hcoh Hvals. exists (n_users st).2.
  pose proof (n_users_coherent st vals Hcoh Hvals) as Hn. unfold value_of in Hn.
  split_and!.
  - by destruct (n_users st) as [o s]; simpl in *; subst o.
  - by apply n_users_keeps_coherent.
  - by apply (unchanged_n_users (put_props no_cache)).
Qed.

Lemma n_items_run st vals :
  cache_coherent st -> item_unique_vals st = Some vals ->
  exists s1, n_items st = (Ok (length vals), s1)
             /\ cache_coherent s1 /\ put_props no_cache s1 = put_props no_cache st.
Proof.
  intros Hcoh Hvals. exists (n_items st).2.
  pose proof (n_items_coherent st vals Hcoh Hvals) as Hn. unfold value_of in Hn.
  split_and!.
  - by destruct (n_items st) as [o s]; simpl in *; subst o.
  - by apply n_items_keeps_coherent.
  - by apply (unchanged_n_items (put_props no_cache)).
Qed.

Lemma user2id_run st vals :
  cache_coherent st -> user_unique_vals st = Some vals ->
  exists s1, user2id st = (Ok (py_dict (zip vals (py_range (length vals)))), s1)
             /\ cache_coherent s1 /\ put_props no_cache s1 = put_props no_cache st.
Proof.
  intros Hcoh Hvals. unfold user2id, set_cache.
  rewrite bind_run. unfold get. cbv beta iota.
  destruct (_user2id (props st)) as [d |] eqn:Hd.
  - exists st. destruct Hcoh as (H1 & H2 & H3 & H4).
    destruct (H3 d Hd) as (vals' & Hvals' & ->).
    assert (vals' = vals) as -> by congruence.
    split; [reflexivity |]. by split.
  - destruct (n_users_run st vals Hcoh Hvals) as (s1 & Hn & Hcoh1 & Hsame).
    rewrite bind_run, Hn. cbv beta iota. rewrite Hvals. simpl.
    eexists. split; [done |]. split.
    + destruct Hcoh1 as (H1 & H2 & H3 & H4). unfold cache_coherent. simpl.
      assert (user_unique_vals s1 = Some vals) as Hvals1
        by (apply (f_equal user_unique_vals) in Hsame; simpl in Hsame; congruence).
      split_and!; try done. intros d' [= <-]. by exists vals.
    + apply (f_equal (put_props no_cache)) in Hsame. exact Hsame.
Qed.

Lemma item2id_run st vals :
  cache_coherent st -> item_unique_vals st = Some vals ->
  exists s1, item2id st = (Ok (py_dict (zip vals (py_range (length vals)))), s1)
             /\ cache_coherent s1 /\ put_props no_cache s1 = put_props no_cache st.
Proof.
  intros Hcoh Hvals. unfold item2id, set_cache.
  rewrite bind_run. unfold get. cbv beta iota.
  destruct (_item2id (props st)) as [d |] eqn:Hd.
  - exists st. destruct Hcoh as (H1 & H2 & H3 & H4).
    destruct (H4 d Hd) as (vals' & Hvals' & ->).
    assert (vals' = vals) as -> by congruence.
    split; [reflexivity |]. by split.
  - destruct (n_items_run st vals Hcoh Hvals) as (s1 & Hn & Hcoh1 & Hsame).
    rewrite bind_run, Hn. cbv beta iota. rewrite Hvals. simpl.
    eexists. split; [done |]. split.
    + destruct Hcoh1 as (H1 & H2 & H3 & H4). unfold cache_coherent. simpl.
      assert (item_unique_vals s1 = Some vals) as Hvals1
        by (apply (f_equal item_unique_vals) in Hsame; simpl in Hsame; congruence).
      split_and!; try done. intros d' [= <-]. by exists vals.
    + apply (f_equal (put_props no_cache)) in Hsame. exact Hsame.
Qed.

Lemma fill_missing_value xs n_entities st n s1 :
  n_entities st = (Ok n, s1) ->
  exists s2, fill_missing xs n_entities st = (Ok (default (Z.of_nat n) <$> xs), s2)
             /\ (s2 = st \/ s2 = s1).
Proof.
  intros Hn. unfold fill_missing.
  destruct (all_present xs) as [l |] eqn:Hl.
  - apply all_present_Some in Hl as ->. exists st. split; [| by left].
    rewrite <- list_fmap_compose. simpl. by rewrite list_fmap_id.
  - rewrite bind_run, Hn. eexists. split; [done | by right].
Qed.

Lemma same_fields s s' :
  put_props no_cache s' = put_props no_cache s ->
  user_unique_vals s' = user_unique_vals s
  /\ item_unique_vals s' = item_unique_vals s.
Proof.
  intros Hsame. split.
  - by apply (f_equal user_unique_vals) in Hsame.
  - by apply (f_equal item_unique_vals) in Hsame.
Qed.

Lemma zip_indexed {A} (users items : A -> Z) (lab : A -> Qc) (data : list A) :
  zip_with (fun (ui : Z * Z) r => mkInteraction ui.1 ui.2 (lab r))
    (zip (users <$> data) (items <$> data)) data
  = (fun r => mkInteraction (users r) (items r) (lab r)) <$> data.
Proof. induction data as [| r data IH]; [done |]. simpl. f_equal. exact IH. Qed.

(** The indexed interaction data of a coherent index. *)
Lemma get_indexed_interaction_value st data uvals ivals :
  cache_coherent st -> interaction_data st = Some data ->
  user_unique_vals st = Some uvals -> item_unique_vals st = Some ivals ->
  value_of get_indexed_interaction st
  = Ok ((fun r =>
           mkInteraction
             (default (Z.of_nat (length uvals))
                (py_dict (zip uvals (py_range (length uvals))) !! user r))
             (default (Z.of_nat (length ivals))
                (py_dict (zip ivals (py_range (length ivals))) !! item r))
             (label r)) <$> data).
Proof.
  intros Hcoh Hdata Hu Hi. unfold value_of, get_indexed_interaction.
  rewrite bind_run. unfold get. cbv beta iota. rewrite Hdata.
  destruct (user2id_run st uvals Hcoh Hu) as (s1 & Hrun1 & Hcoh1 & Hs1).
  rewrite bind_run, Hrun1. cbv beta iota.
  destruct (same_fields _ _ Hs1) as [Hu1 Hi1]. rewrite Hu in Hu1. rewrite Hi in Hi1.
  destruct (item2id_run s1 ivals Hcoh1 Hi1) as (s2 & Hrun2 & Hcoh2 & Hs2).
  rewrite bind_run, Hrun2. cbv beta iota.
  destruct (same_fields _ _ Hs2) as [Hu2 Hi2]. rewrite Hu1 in Hu2. rewrite Hi1 in Hi2.
  destruct (n_users_run s2 uvals Hcoh2 Hu2) as (s3 & Hn3 & Hcoh3 & Hs3).
  destruct (fill_missing_value
              ((fun r => py_dict (zip uvals (py_range (length uvals))) !! user r)
                 <$> data) n_users s2 _ s3 Hn3) as (s4 & Hrun4 & Hs4).
  rewrite bind_run, Hrun4. cbv beta iota.
  assert (cache_coherent s4 /\ item_unique_vals s4 = Some ivals) as [Hcoh4 Hi4].
  { destruct Hs4 as [-> | ->]; [done |]. split; [done |].
    destruct (same_fields _ _ Hs3) as [_ Hi3]. congruence. }
  destruct (n_items_run s4 ivals Hcoh4 Hi4) as (s5 & Hn5 & _ & _).
  destruct (fill_missing_value
              ((fun r => py_dict (zip ivals (py_range (length ivals))) !! item r)
                 <$> data) n_items s4 _ s5 Hn5) as (s6 & Hrun6 & _).
  rewrite bind_run, Hrun6. cbv beta iota. unfold mret, M_ret. cbn [fst].
  rewrite <- !list_fmap_compose. f_equal. apply zip_indexed.
Qed.

Lemma foldl_insert_is_Some `{Countable K} {V} (l : list (K * V)) :
  forall (m : gmap K V) k,
  k ∈ l.*1 \/ is_Some (m !! k) ->
  is_Some (foldl (fun m kv => <[kv.1 := kv.2]> m) m l !! k).
Proof.
  induction l as [| [k' v'] l IH]; intros m k Hk; simpl in *.
  - destruct Hk as [Hk | Hk]; [by apply elem_of_nil in Hk | done].
  - apply IH. destruct (decide (k = k')) as [-> | Hne].
    + right. rewrite lookup_insert_eq. by eexists.
    + rewrite lookup_insert_ne by done.
      destruct Hk as [Hk | Hk]; [| by right].
      apply elem_of_cons in Hk as [? | Hk]; [done | by left].
Qed.

(** The inner id that the id mapping of [vals] gives, or [len(vals)]. *)
Lemma id_mapping_default (vals : list Z) (x : Z) :
  let i := default (Z.of_nat (length vals))
             (py_dict (zip vals (py_range (length vals))) !! x) in
  if decide (x ∈ vals)
  then exists p : nat, i = Z.of_nat p /\ vals !! p = Some x
  else i = Z.of_nat (length vals).
Proof.
  simpl. destruct (id_mapping_lookup vals) as [Hpos _]. simpl in Hpos.
  assert ((zip vals (py_range (length vals))).*1 = vals) as Hkeys.
  { apply fst_zip. unfold py_range. by rewrite length_fmap, length_seq. }
  destruct (decide (x ∈ vals)) as [Hin | Hout].
  - destruct (foldl_insert_is_Some (zip vals (py_range (length vals))) ∅ x)
      as [i Hi]; [left; by rewrite Hkeys |].
    fold (py_dict (zip vals (py_range (length vals)))) in Hi.
    rewrite Hi. simpl. by apply Hpos.
  - destruct (py_dict (zip vals (py_range (length vals))) !! x) as [i |] eqn:Hi;
      [| done].
    apply py_dict_lookup_key in Hi. by rewrite Hkeys in Hi.
Qed.

(** X14.  [get_indexed_interaction] returns the interaction data row by
    row, with the labels unchanged, every known user or item id replaced by
    its inner id (a position of the unique values holding it) and every
    unknown one by the oov id, [n_users] or [n_items]. *)
Theorem get_indexed_interaction_resolves (st : DataInfo) (data : list Interaction)
    (uvals ivals : list Z) :
  cache_coherent st -> interaction_data st = Some data ->
  user_unique_vals st = Some uvals -> item_unique_vals st = Some ivals ->
  exists rows,
    value_of get_indexed_interaction st = Ok rows
    /\ length rows = length data
    /\ forall k r, data !! k = Some r ->
         exists r', rows !! k = Some r' /\ label r' = label r
           /\ (if decide (user r ∈ uvals)
               then exists p : nat, user r' = Z.of_nat p /\ uvals !! p = Some (user r)
               else user r' = Z.of_nat (length uvals))
           /\ (if decide (item r ∈ ivals)
               then exists p : nat, item r' = Z.of_nat p /\ ivals !! p = Some (item r)
               else item r' = Z.of_nat (length ivals)).
Proof.
  intros Hcoh Hdata Hu Hi.
  eexists. split; [by apply (get_indexed_interaction_value st data uvals ivals) |].
  split; [by rewrite length_fmap |].
  intros k r Hk. eexists. rewrite list_lookup_fmap, Hk. split; [done |].
  simpl. split; [done |]. split; apply id_mapping_default.
Qed.

(** The three interactions of the example. *)
Lemma get_indexed_interaction_resolves_witness :
  exists rows,
    value_of get_indexed_interaction example_data_info = Ok rows
    /\ length rows = 3%nat.
Proof.
  destruct (get_indexed_interaction_resolves example_data_info
              [mkInteraction 1 10 1%Qc; mkInteraction 2 10 1%Qc;
               mkInteraction 2 20 1%Qc] [1; 2] [10; 20])
    as (rows & Hrows & Hlen & _); try reflexivity.
  - apply no_cache_coherent. reflexivity.
  - by exists rows.
Defined.

(** ** [store_args], then [save] and [load] *)

Lemma same_core w s s' :
  put_props no_cache s' = put_props no_cache s ->
  rows_of w s' = rows_of w s /\ entities_of w s' = entities_of w s.
Proof.
  intros Hsame. split.
  - apply (f_equal (rows_of w)) in Hsame. by destruct w.
  - apply (f_equal (entities_of w)) in Hsame. by destruct w.
Qed.

Lemma n_entities_keeps_coherent w st :
  cache_coherent st -> cache_coherent (n_entities_of w st).2.
Proof.
  destruct w; simpl;
    first [ apply n_users_keeps_coherent | apply n_items_keeps_coherent ].
Qed.

Lemma n_entities_core w st :
  put_props no_cache (n_entities_of w st).2 = put_props no_cache st.
Proof.
  destruct w; simpl;
    first [ by apply (unchanged_n_users (put_props no_cache))
          | by apply (unchanged_n_items (put_props no_cache)) ].
Qed.

(** The blocks of [add_oov] pass over matrices that do not have one row per
    entity: only the cache is filled. *)
Lemma blocks_pass ws : forall st,
  cache_coherent st ->
  (forall w rows, rows_of w st = Some rows ->
     exists ents, entities_of w st = Some ents /\ length rows <> length ents) ->
  (for_each ws oov_block st).1 = Ok tt
  /\ cache_coherent (for_each ws oov_block st).2
  /\ put_props no_cache (for_each ws oov_block st).2 = put_props no_cache st.
Proof.
  induction ws as [| w ws IH]; intros st Hcoh Hrows; simpl; [done |].
  rewrite bind_run.
  assert (exists s1, oov_block w st = (Ok tt, s1) /\ cache_coherent s1
                     /\ put_props no_cache s1 = put_props no_cache st)
    as (s1 & -> & Hcoh1 & Hcore1).
  { pose proof (oov_block_cases w st) as Hcases.
    destruct (rows_of w st) as [rows |] eqn:Hw; [| by exists st].
    destruct (Hrows w rows Hw) as (ents & Hents & Hne).
    pose proof (n_entities_coherent w st ents Hcoh Hents) as Hn.
    unfold value_of in Hn. rewrite Hn in Hcases.
    rewrite decide_False in Hcases by done.
    eexists. split; [exact Hcases |].
    split; [by apply n_entities_keeps_coherent | apply n_entities_core]. }
  destruct (IH s1 Hcoh1) as (Hok & Hcoh' & Hcore').
  - intros w' rows Hw'. destruct (same_core w' _ _ Hcore1) as [Hr He].
    rewrite Hr in Hw'. rewrite He. by apply Hrows.
  - split_and!; [done | done | congruence].
Qed.

(** The constructor on arguments whose matrices already carry their oov
    rows: nothing is appended. *)
Lemma init_passes (a : Args) (ui ii : list Z) (data : list Interaction) :
  arg_user_indices a = Some ui -> arg_item_indices a = Some ii ->
  arg_interaction_data a = Some data ->
  let st0 := initial_state a (interaction_consumed ui ii) in
  (forall w rows, rows_of w st0 = Some rows ->
     exists ents, entities_of w st0 = Some ents /\ length rows <> length ents) ->
  exists st, __init__ a = Ok st /\ cache_coherent st
             /\ put_popular_items None (put_props no_cache st) = st0.
Proof.
  intros Hui Hii Hdata st0 Hrows. unfold __init__. rewrite Hui, Hii. fold st0.
  rewrite bind_run, add_oov_as_blocks.
  destruct (blocks_pass [UserSparse; ItemSparse; UserDense; ItemDense] st0)
    as (Hok & Hcoh & Hcore); [by apply no_cache_coherent | done |].
  destruct (for_each _ oov_block st0) as [[[] | e] s1]; simpl in Hok, Hcoh, Hcore;
    [| done].
  rewrite bind_run. unfold get. cbv beta iota.
  assert (popular_items s1 = None) as ->
    by (by apply (f_equal popular_items) in Hcore).
  unfold set_popular_items. rewrite bind_run. unfold get. cbv beta iota.
  assert (interaction_data s1 = Some data) as ->.
  { apply (f_equal interaction_data) in Hcore. simpl in Hcore. congruence. }
  unfold modify. eexists. split; [done |]. split; [done |].
  match goal with
  | |- put_popular_items None (put_props no_cache (put_popular_items _ s1)) = _ =>
      change (put_popular_items None (put_props no_cache s1) = st0)
  end.
  by rewrite Hcore.
Qed.

(** X15.  After [store_args], [save] followed by [load] brings the object
    back: for an object whose unique matrices all carry their oov row (none
    has one row per entity) the loaded object has the same [user2id],
    [item2id] and unique feature matrices, and the consumption indices built
    from the indices given to [store_args]. *)
Theorem store_args_round_trip (st : DataInfo) (ui ii : list Z)
    (data : list Interaction) (uvals ivals : list Z)
    (path model_name : string) (w : World) :
  cache_coherent st ->
  interaction_data st = Some data ->
  user_unique_vals st = Some uvals -> item_unique_vals st = Some ivals ->
  (forall m rows, rows_of m st = Some rows ->
     exists ents, entities_of m st = Some ents /\ length rows <> length ents) ->
  (col_name_mapping st = None ->
   files w !! path_join path (model_name +:+ "_data_info_name_mapping.json")
   = None) ->
  let stored := (store_args (Some ui) (Some ii) st).2 in
  exists st',
    load path model_name (save stored path model_name w).2 = Ok st'
    /\ value_of user2id st' = value_of user2id st
    /\ value_of item2id st' = value_of item2id st
    /\ user_sparse_unique st' = user_sparse_unique st
    /\ user_dense_unique st' = user_dense_unique st
    /\ item_sparse_unique st' = item_sparse_unique st
    /\ item_dense_unique st' = item_dense_unique st
    /\ user_consumed st' = (interaction_consumed ui ii).1
    /\ item_consumed st' = (interaction_consumed ui ii).2.
Proof.
  intros Hcoh Hdata Hu Hi Hrows Hfile stored.
  pose proof (load_after_save stored path model_name w) as Hload.
  destruct (init_passes (all_args stored) ui ii data) as (s0 & Hinit & Hcoh0 & Hcore);
    [done | done | done | |].
  { intros m rows Hm.
    destruct (Hrows m rows) as (ents & Hents & Hne); [by destruct m |].
    exists ents. split; [by destruct m | done]. }
  rewrite Hinit in Hload.
  destruct (load path model_name (save stored path model_name w).2) as [st' | e].
  2:{ exfalso. by specialize (Hload (fun Hnone => conj Hnone (Hfile Hnone))). }
  specialize (Hload (fun Hnone => conj Hnone (Hfile Hnone))).
  assert (observed st' = observed s0) as Hobserved
    by (unfold outcome_map in Hload; congruence).
  exists st'. split; [done |]. unfold observed in Hobserved.
  injection Hobserved as -> -> -> -> -> -> -> ->.
  assert (user_unique_vals s0 = Some uvals) as Hu0
    by (apply (f_equal user_unique_vals) in Hcore; simpl in Hcore; congruence).
  assert (item_unique_vals s0 = Some ivals) as Hi0
    by (apply (f_equal item_unique_vals) in Hcore; simpl in Hcore; congruence).
  split_and!.
  - by rewrite (user2id_coherent s0 uvals), (user2id_coherent st uvals).
  - by rewrite (item2id_coherent s0 ivals), (item2id_coherent st ivals).
  - by apply (f_equal user_sparse_unique) in Hcore.
  - by apply (f_equal user_dense_unique) in Hcore.
  - by apply (f_equal item_sparse_unique) in Hcore.
  - by apply (f_equal item_dense_unique) in Hcore.
  - by apply (f_equal user_consumed) in Hcore.
  - by apply (f_equal item_consumed) in Hcore.
Qed.

(** The example with the "sex" feature, stored, saved and loaded. *)
Lemma store_args_round_trip_witness :
  let st := example_feat_data_info in
  let stored := (store_args (Some [0; 1; 1]) (Some [0; 0; 1]) st).2 in
  exists st',
    load "models" "cf" (save stored "models" "cf" empty_world).2 = Ok st'
    /\ value_of user2id st' = value_of user2id st
    /\ value_of item2id st' = value_of item2id st
    /\ user_sparse_unique st' = user_sparse_unique st
    /\ user_dense_unique st' = user_dense_unique st
    /\ item_sparse_unique st' = item_sparse_unique st
    /\ item_dense_unique st' = item_dense_unique st
    /\ user_consumed st' = (interaction_consumed [0; 1; 1] [0; 0; 1]).1
    /\ item_consumed st' = (interaction_consumed [0; 1; 1] [0; 0; 1]).2.
Proof.
  intros st.
  apply (store_args_round_trip st [0; 1; 1] [0; 0; 1]
           [mkInteraction 1 10 1%Qc; mkInteraction 2 10 1%Qc;
            mkInteraction 2 20 1%Qc] [1; 2] [10; 20] "models" "cf" empty_world).
  - repeat split; intros ? Heq; vm_compute in Heq; try discriminate.
    injection Heq as <-. exists [1; 2]. split; reflexivity.
  - reflexivity.
  - reflexivity.
  - reflexivity.
  - intros m rows Hm. destruct m; vm_compute in Hm; try discriminate.
    injection Hm as <-. exists [1; 2]. split; [reflexivity | simpl; lia].
  - intros Hnone. vm_compute in Hnone. discriminate.
Defined.

(** ** What [all_args] shares with the attributes *)

Lemma update_sparse_column_dicts_in_args data k col st :
  dicts_in_args st -> dicts_in_args (update_sparse_column data k col st).2.
Proof.
  intros Hst. unfold update_sparse_column.
  rewrite bind_run. unfold get at 1. cbv beta iota.
  rewrite bind_run.
  destruct (unique_dicts_of k st) as [d |]; simpl; [| done].
  rewrite bind_run. unfold lift at 1.
  destruct (dict_item col d) as [vals | e]; cbv beta iota; [| done].
  rewrite bind_run. unfold lift at 1.
  destruct (frame_get data col) as [column | e]; cbv beta iota; [| done].
  rewrite bind_run. unfold lift at 1.
  destruct (int_values column) as [values | e]; cbv beta iota; [| done].
  destruct (decide _); [| done].
  rewrite bind_run. unfold modify at 1. cbv beta iota.
  rewrite bind_run.
  destruct (unique_idxs_of k st) as [idxs |]; simpl;
    destruct Hst as [H1 H2]; destruct k, st; simpl in *; by split.
Qed.

(** X16.  The dictionaries of unique sparse values that [all_args] holds are
    those of the attributes, and [expand_sparse_unique_vals_and_matrix] keeps
    it so: the categories that a call adds show in [all_args], which is what
    [save] writes, whether the call returns or raises. *)
Theorem expand_keeps_dicts_in_args (st : DataInfo) (data : Frame) :
  dicts_in_args st ->
  dicts_in_args (expand_sparse_unique_vals_and_matrix data st).2.
Proof.
  set (keep := fun s => (arg_sparse_unique_vals (all_args s), sparse_unique_vals s,
                         arg_multi_sparse_unique_vals (all_args s),
                         multi_sparse_unique_vals s)).
  assert (forall s s', keep s' = keep s -> dicts_in_args s -> dicts_in_args s')
    as Hkeep.
  { intros s s' [= H1 H2 H3 H4] [Ha Hb]. split; congruence. }
  assert (forall k s, dicts_in_args s ->
                      dicts_in_args (update_if_present data k s).2) as Hupdate.
  { intros k s Hs. unfold update_if_present. rewrite bind_run. unfold get. cbv beta iota.
    destruct (unique_dicts_of k s) as [d |] eqn:Hd; [| done].
    unfold update_sparse_unique. rewrite bind_run. unfold get. cbv beta iota.
    rewrite Hd. unfold not_none. rewrite bind_run.
    unfold mret at 1, M_ret at 1. cbv beta iota.
    apply (for_each_maintains dicts_in_args); [| done].
    intros col _ s' Hs'. by apply update_sparse_column_dicts_in_args. }
  intros Hst. unfold expand_sparse_unique_vals_and_matrix.
  rewrite bind_run.
  pose proof (unchanged_store_old_info keep ltac:(by intros ? [])
                ltac:(by intros ? []) st) as H1.
  destruct (store_old_info st) as [[[] | e] s1]; simpl in H1;
    [| by apply (Hkeep st)].
  assert (dicts_in_args s1) as Hs1 by (by apply (Hkeep st)).
  rewrite bind_run. unfold reset_property, modify at 1. cbv beta iota.
  set (s2 := put_props no_cache s1).
  assert (dicts_in_args s2) as Hs2 by (apply (Hkeep s1); [by destruct s1 | done]).
  rewrite bind_run.
  pose proof (unchanged_expand_users keep data) as H3.
  specialize (H3 ltac:(by intros ? []) ltac:(by intros ? []) ltac:(by intros ? []) s2).
  destruct (expand_users data s2) as [[[] | e] s3]; simpl in H3;
    [| by apply (Hkeep s2)].
  assert (dicts_in_args s3) as Hs3 by (by apply (Hkeep s2)).
  rewrite bind_run.
  pose proof (unchanged_expand_items keep data) as H4.
  specialize (H4 ltac:(by intros ? []) ltac:(by intros ? []) ltac:(by intros ? []) s3).
  destruct (expand_items data s3) as [[[] | e] s4]; simpl in H4;
    [| by apply (Hkeep s3)].
  assert (dicts_in_args s4) as Hs4 by (by apply (Hkeep s3)).
  rewrite bind_run.
  pose proof (Hupdate Single s4 Hs4) as H5.
  destruct (update_if_present data Single s4) as [[[] | e] s5]; simpl in H5; [| done].
  by apply Hupdate.
Qed.

(** User 3 joins with the unseen category 7. *)
Lemma expand_keeps_dicts_in_args_witness :
  let st' := (expand_sparse_unique_vals_and_matrix example_new_category
                example_feat_data_info).2 in
  sparse_unique_vals st' = Some [("sex", [0; 1; 7])]
  /\ dicts_in_args st'.
Proof.
  intros st'. split; [vm_compute; reflexivity |].
  apply expand_keeps_dicts_in_args. split; reflexivity.
Defined.

Lemma assign_columns_maintains {A} (I : DataInfo -> Prop) data id_col family
    (unique : DataInfo -> option (Matrix A)) write_unique values :
  (forall s, (family s).2 = s) ->
  (forall v s, I s -> I (write_unique v s)) ->
  forall s, I s ->
    I (assign_columns data id_col family unique write_unique values s).2.
Proof.
  intros Hpure Hwrite s Hs. unfold assign_columns.
  rewrite bind_run. unfold lift at 1.
  destruct (frame_get data id_col) as [column | e]; cbv beta iota; [| done].
  rewrite bind_run. unfold lift at 1.
  destruct (int_values column) as [row_idx | e]; cbv beta iota; [| done].
  rewrite bind_run. specialize (Hpure s).
  destruct (family s) as [[col_info | e] s']; simpl in Hpure; subst s';
    cbv beta iota; [| done].
  rewrite bind_run. unfold get at 1. cbv beta iota.
  destruct (unique s); [| done]. destruct (name col_info) eqn:Hname; [done |].
  rewrite <- Hname.
  apply (for_each_maintains I); [| done].
  intros [feat_idx col] _ s1 Hs1. simpl.
  destruct (bool_decide _); [| done].
  rewrite bind_run. unfold get at 1. cbv beta iota.
  rewrite bind_run. unfold lift at 1.
  destruct (values s1 col_info feat_idx col); cbv beta iota; [| done].
  rewrite bind_run. destruct (unique s1); simpl; [| done].
  rewrite bind_run. unfold lift at 1.
  destruct (np_assign_col _ _ _ _); cbv beta iota; [| done].
  by apply Hwrite.
Qed.

Section SharedMatrices.
Context `{FeatureHelpers}.

Lemma assign_sparse_features_shared data mode s :
  shares_matrices s -> shares_matrices (assign_sparse_features data mode s).2.
Proof.
  intros Hs. unfold assign_sparse_features.
  rewrite bind_run. unfold get at 1. cbv beta iota.
  rewrite bind_run. unfold lift at 1.
  destruct (check_oov s data mode); cbv beta iota; [| done].
  destruct (decide (mode = "user")); [| destruct (decide (mode = "item"))];
    [| | done].
  all: apply (assign_columns_maintains shares_matrices); [apply column_family_pure | | done].
  all: intros v [] [Hsharing (H1 & H2 & H3 & H4)]; simpl in *; subst;
    by repeat split.
Qed.

Lemma assign_dense_features_shared data mode s :
  shares_matrices s -> shares_matrices (assign_dense_features data mode s).2.
Proof.
  intros Hs. unfold assign_dense_features.
  rewrite bind_run. unfold get at 1. cbv beta iota.
  rewrite bind_run. unfold lift at 1.
  destruct (check_oov s data mode); cbv beta iota; [| done].
  destruct (decide (mode = "user")); [| destruct (decide (mode = "item"))];
    [| | done].
  all: apply (assign_columns_maintains shares_matrices); [apply column_family_pure | | done].
  all: intros v [] [Hsharing (H1 & H2 & H3 & H4)]; simpl in *; subst;
    by repeat split.
Qed.

Lemma store_args_shared ui ii st : shares_matrices (store_args ui ii st).2.
Proof. by destruct st. Qed.

(** X17.  After [store_args], [all_args] holds the unique matrices
    themselves: what [assign_user_features] or [assign_item_features] then
    writes into them shows in [all_args], whether the call returns or
    raises. *)
Theorem assign_after_store_args_in_args (st : DataInfo) (ui ii : option (list Z))
    (data : Frame) :
  let stored := (store_args ui ii st).2 in
  matrices_in_args (assign_user_features data stored).2
  /\ matrices_in_args (assign_item_features data stored).2.
Proof.
  intros stored.
  pose proof (store_args_shared ui ii st) as Hstored. fold stored in Hstored.
  split.
  - unfold assign_user_features. rewrite bind_run.
    pose proof (assign_sparse_features_shared data "user" stored Hstored) as H1.
    destruct (assign_sparse_features data "user" stored) as [[[] | e] s1];
      simpl in H1; [| apply H1].
    apply (assign_dense_features_shared data "user" s1 H1).
  - unfold assign_item_features. rewrite bind_run.
    pose proof (assign_sparse_features_shared data "item" stored Hstored) as H1.
    destruct (assign_sparse_features data "item" stored) as [[[] | e] s1];
      simpl in H1; [| apply H1].
    apply (assign_dense_features_shared data "item" s1 H1).
Qed.
End SharedMatrices.

(** The sex of user 2 is set after [store_args]: the stored matrix shows
    it.  Without [store_args] the constructed object keeps in [all_args] the
    matrix it was given, which [add_oov] did not extend. *)
Lemma assign_after_store_args_example :
  let stored := (store_args (Some [0; 1; 1]) (Some [0; 0; 1])
                   example_feat_data_info).2 in
  arg_user_sparse_unique
    (all_args (assign_user_features example_partial_update stored).2)
  = Some (mkMatrix 1 [[0]; [0]; [2]])
  /\ arg_user_sparse_unique
       (all_args (assign_user_features example_partial_update
                    example_feat_data_info).2)
     = Some (mkMatrix 1 [[0]; [1]]).
Proof. split; vm_compute; reflexivity. Qed.
